(** * WigdosXP unified save system (savesync.js): codec and synchronisation

    A shallow embedding of [src/savesync.js]: the tagged serialisation
    codec ([serializeForLocalStorage] / [deserializeFromLocalStorage]),
    the IndexedDB <-> localStorage synchronisation ([IndexedDBSync]) and
    the parent-frame message protocol ([WigdosXPSync]).

    Conventions of the embedding.
    - A JavaScript string is a Rocq [string]: a sequence of code units
      below 256.
    - An [ArrayBuffer] is a [list byte].
    - An object is the list of its own enumerable properties, in the
      order in which they are enumerated.
    - [localStorage] is a [gmap string string]; the object store
      FILE_DATA of IndexedDB is a [gmap string value].
    - A function that may raise returns an [outcome].
    - The functions of the platform ([btoa], [atob], [JSON.stringify],
      [JSON.parse], [Number]) are defined from their standards, on the
      strings and numbers above.

    What the embedding leaves out.
    - Binary floating point: an integer is exact, any other finite number
      is the literal that denotes it, and the two zeros are one. A double
      holds the integers below 2^53 exactly and is printed with an
      exponent from 10^21; the embedding has every integer and prints it
      in full.
    - The rule that puts the integer keys of an object first.
    - The limits of an engine: the length of a string and the depth of
      the call stack. Where an engine raises [RangeError] for a string
      that is too long or a nesting that is too deep, the embedding goes
      on. A theorem that says that a string is returned and read back
      bounds its length ([within_string_limit]).
    - The globals of the page other than the view constructors: under
      the tag [TA:] the source looks any name up in [globalThis] and
      constructs what it finds, and the object store refuses what cannot
      be cloned, so that the import is rejected. A theorem about
      the value of a string of [localStorage] is about a string on which
      this makes no difference ([exact_string]).
    - Failures of IndexedDB requests, of the reading of a blob, and the
      quota of [localStorage].
    - Interleaving: a function runs to its end, the callbacks of its
      promises included, before another event is handled. The order of
      the effects of a handler is that of its list of effects
      ([handleSetAllLocalStorageData_effects]). *)

From Stdlib Require Import ZArith NArith Ascii String List Bool Lia.
From Stdlib.Strings Require Import Byte.
From Stdlib Require Import Decimal DecimalString DecimalFacts DecimalPos DecimalZ.
From stdpp Require Import base option list gmap strings fin_maps.

#[local] Set Warnings "-register-all".
#[local] Arguments String.append : simpl nomatch.

Local Open Scope string_scope.
Local Open Scope N_scope.

#[local] Ltac Zify.zify_post_hook ::= Z.to_euclidean_division_equations.

(** ** Outcomes of calls that may raise *)

Inductive error : Type :=
| SyntaxError            (* JSON.parse on a malformed text *)
| InvalidCharacterError  (* atob on a string that is not base64 *)
| TypeError              (* JSON.stringify on a BigInt *)
| RangeError.            (* call stack exhausted *)

Inductive outcome (A : Type) : Type :=
| Returns (a : A)
| Throws (e : error).

Arguments Returns {A} a.
Arguments Throws {A} e.

Definition obind {A B} (x : outcome A) (f : A -> outcome B) : outcome B :=
  match x with
  | Returns a => f a
  | Throws e => Throws e
  end.

#[global] Instance outcome_bind : MBind outcome := fun A B f x => obind x f.
#[global] Instance outcome_ret : MRet outcome := fun A a => Returns a.

Definition of_option {A} (e : error) (o : option A) : outcome A :=
  match o with
  | Some a => Returns a
  | None => Throws e
  end.

(** ** Base64: the platform functions [btoa] and [atob] *)

Module Base64.

(** The character of a 6-bit group. *)
Definition b64_char (i : N) : ascii :=
  if i <? 26 then ascii_of_N (i + 65)
  else if i <? 52 then ascii_of_N (i + 71)
  else if i <? 62 then ascii_of_N (i - 4)
  else if i =? 62 then "+"%char
  else "/"%char.

(** The 6-bit group of a character of the alphabet. *)
Definition b64_index (c : ascii) : option N :=
  let n := N_of_ascii c in
  if (65 <=? n) && (n <=? 90) then Some (n - 65)
  else if (97 <=? n) && (n <=? 122) then Some (n - 71)
  else if (48 <=? n) && (n <=? 57) then Some (n + 4)
  else if n =? 43 then Some 62
  else if n =? 47 then Some 63
  else None.

(** [btoa]: three bytes become four characters; a last group of one or
    two bytes is padded with [=]. *)
Fixpoint btoa (s : string) : string :=
  match s with
  | EmptyString => EmptyString
  | String a EmptyString =>
      let a := N_of_ascii a in
      String (b64_char (a / 4))
        (String (b64_char ((a mod 4) * 16)) "==")
  | String a (String b EmptyString) =>
      let a := N_of_ascii a in
      let b := N_of_ascii b in
      String (b64_char (a / 4))
        (String (b64_char ((a mod 4) * 16 + b / 16))
           (String (b64_char ((b mod 16) * 4)) "="))
  | String a (String b (String c rest)) =>
      let a := N_of_ascii a in
      let b := N_of_ascii b in
      let c := N_of_ascii c in
      String (b64_char (a / 4))
        (String (b64_char ((a mod 4) * 16 + b / 16))
           (String (b64_char ((b mod 16) * 4 + c / 64))
              (String (b64_char (c mod 64)) (btoa rest))))
  end.

(** [atob] is the forgiving base64 decoder. *)

Definition is_ascii_whitespace (c : ascii) : bool :=
  let n := N_of_ascii c in
  (n =? 9) || (n =? 10) || (n =? 12) || (n =? 13) || (n =? 32).

Fixpoint strip_whitespace (s : string) : string :=
  match s with
  | EmptyString => EmptyString
  | String c rest =>
      if is_ascii_whitespace c then strip_whitespace rest
      else String c (strip_whitespace rest)
  end.

Definition is_pad (c : ascii) : bool := N_of_ascii c =? 61.

(** Removes one or two [=] that end the string. *)
Fixpoint strip_trailing_pad (s : string) : string :=
  match s with
  | EmptyString => EmptyString
  | String c rest =>
      if is_pad c then
        match rest with
        | EmptyString => EmptyString
        | String d EmptyString =>
            if is_pad d then EmptyString else String c (strip_trailing_pad rest)
        | _ => String c (strip_trailing_pad rest)
        end
      else String c (strip_trailing_pad rest)
  end.

Definition strip_padding (s : string) : string :=
  if (String.length s mod 4 =? 0)%nat then strip_trailing_pad s else s.

(** Four characters give three bytes; two or three characters at the end
    give one or two bytes, their unused low bits dropped; one character
    at the end, or a character outside the alphabet, is an error. *)
Fixpoint decode_groups (s : string) : option string :=
  match s with
  | EmptyString => Some EmptyString
  | String _ EmptyString => None
  | String c0 (String c1 EmptyString) =>
      s0 ← b64_index c0; s1 ← b64_index c1;
      Some (String (ascii_of_N (s0 * 4 + s1 / 16)) EmptyString)
  | String c0 (String c1 (String c2 EmptyString)) =>
      s0 ← b64_index c0; s1 ← b64_index c1; s2 ← b64_index c2;
      Some (String (ascii_of_N (s0 * 4 + s1 / 16))
              (String (ascii_of_N ((s1 mod 16) * 16 + s2 / 4)) EmptyString))
  | String c0 (String c1 (String c2 (String c3 rest))) =>
      s0 ← b64_index c0; s1 ← b64_index c1; s2 ← b64_index c2;
      s3 ← b64_index c3; tl ← decode_groups rest;
      Some (String (ascii_of_N (s0 * 4 + s1 / 16))
              (String (ascii_of_N ((s1 mod 16) * 16 + s2 / 4))
                 (String (ascii_of_N ((s2 mod 4) * 64 + s3)) tl)))
  end.

Definition atob (s : string) : outcome string :=
  of_option InvalidCharacterError
    (decode_groups (strip_padding (strip_whitespace s))).

End Base64.

Import Base64.

(** [arrayBufferToBase64]: the bytes become a binary string, one
    character per byte, which [btoa] encodes. *)
Definition arrayBufferToBase64 (buffer : list byte) : string :=
  btoa (string_of_list_byte buffer).

(** [base64ToArrayBuffer]: [atob], then one byte per character. *)
Definition base64ToArrayBuffer (base64 : string) : outcome (list byte) :=
  binary ← atob base64;
  Returns (list_byte_of_string binary).


(** ** Strings: the methods of [String.prototype] the source calls *)

Local Open Scope nat_scope.

Definition dquote : ascii := "034"%char.
Definition backslash : ascii := "092"%char.

(** [s.indexOf(p) === 0], and [s.startsWith(p)]. *)
Fixpoint startsWith (p s : string) : bool :=
  match p, s with
  | EmptyString, _ => true
  | String a p', String b s' => Ascii.eqb a b && startsWith p' s'
  | String _ _, EmptyString => false
  end.

(** [s.slice(n)] and [s.substring(n)] for [0 <= n]. *)
Fixpoint slice (n : nat) (s : string) : string :=
  match n, s with
  | O, _ => s
  | S n', String _ rest => slice n' rest
  | S _, EmptyString => EmptyString
  end.

(** [s.slice(0, n)]. *)
Fixpoint slice_to (n : nat) (s : string) : string :=
  match n, s with
  | S n', String c rest => String c (slice_to n' rest)
  | _, _ => EmptyString
  end.

(** [s.indexOf(c)] for a one-character [c]; [None] stands for -1. *)
Fixpoint indexOf (c : ascii) (s : string) : option nat :=
  match s with
  | EmptyString => None
  | String d rest =>
      if Ascii.eqb d c then Some 0 else S <$> indexOf c rest
  end.

(** [s.endsWith(p)]. *)
Definition endsWith (p s : string) : bool :=
  (String.length p <=? String.length s) &&
  String.eqb (slice (String.length s - String.length p) s) p.

(** ** Numbers *)

(** The numbers of the embedding: the integers, the three special
    values, and [Lit], a finite number written with a fraction or an
    exponent, which is kept as the literal it was read from and is not
    evaluated. *)
Inductive number : Type :=
| Fin (z : Z)
| NaN
| PosInf
| NegInf
| Lit (lit : string).

#[global] Instance number_eq_dec : EqDecision number.
Proof. solve_decision. Defined.

(** [String(n)]: an integer prints in decimal (as ECMAScript prints it
    below 10^21). *)
Definition NumberToString (n : number) : string :=
  match n with
  | Fin z => NilEmpty.string_of_int (Z.to_int z)
  | NaN => "NaN"
  | PosInf => "Infinity"
  | NegInf => "-Infinity"
  | Lit lit => lit
  end.

Definition is_digit (c : ascii) : bool :=
  let n := N_of_ascii c in ((48 <=? n) && (n <=? 57))%N.

(** The longest prefix of digits, and what follows it. *)
Fixpoint span_digits (s : string) : string * string :=
  match s with
  | EmptyString => (EmptyString, EmptyString)
  | String c rest =>
      if is_digit c then
        let '(ds, r) := span_digits rest in (String c ds, r)
      else (EmptyString, s)
  end.

Definition digits_value (ds : string) : Z :=
  match NilEmpty.uint_of_string ds with
  | Some d => Z.of_uint d
  | None => 0%Z
  end.

Definition is_empty (s : string) : bool :=
  match s with EmptyString => true | _ => false end.

(** The fraction of a number literal: absent, or a point and digits. *)
Definition scan_frac (s : string) : option (string * string) :=
  match s with
  | String c r =>
      if Ascii.eqb c "." then
        let '(fp, r') := span_digits r in
        if is_empty fp then None else Some (String c fp, r')
      else Some (EmptyString, s)
  | EmptyString => Some (EmptyString, s)
  end.

(** The exponent of a number literal: absent, or [e], a sign and digits. *)
Definition scan_exp (s : string) : option (string * string) :=
  match s with
  | String c r =>
      if Ascii.eqb c "e" || Ascii.eqb c "E" then
        let '(sg, r1) :=
          match r with
          | String d r1 =>
              if Ascii.eqb d "+" || Ascii.eqb d "-"
              then (String d EmptyString, r1) else (EmptyString, r)
          | EmptyString => (EmptyString, r)
          end in
        let '(ds, r2) := span_digits r1 in
        if is_empty ds then None else Some (String c (sg ++ ds), r2)
      else Some (EmptyString, s)
  | EmptyString => Some (EmptyString, s)
  end.

(** A number literal of the JSON grammar at the head of [s]: an optional
    minus sign; a zero, or digits that do not start with a zero; an
    optional fraction; an optional exponent. *)
Definition scan_number (s : string) : option (number * string) :=
  let '(neg, s1) :=
    match s with
    | String c r => if Ascii.eqb c "-" then (true, r) else (false, s)
    | EmptyString => (false, s)
    end in
  let '(ip, s2) := span_digits s1 in
  match ip with
  | EmptyString => None
  | String d ds =>
      if Ascii.eqb d "0" && negb (is_empty ds) then None
      else
        '(fp, s3) ← scan_frac s2;
        '(ep, s4) ← scan_exp s3;
        if is_empty fp && is_empty ep then
          Some (Fin (if neg then - digits_value ip else digits_value ip)%Z, s4)
        else
          Some (Lit ((if neg then "-" else EmptyString) ++ ip ++ fp ++ ep), s4)
  end.

(** [Number(s)] on the literals above, the empty string and the names of
    the special values; any other string reads as [NaN]. (ECMAScript
    also reads radix prefixes, a leading [+], leading zeros and
    surrounding white space.) *)
Definition Number (s : string) : number :=
  if is_empty s then Fin 0
  else if String.eqb s "Infinity" then PosInf
  else if String.eqb s "-Infinity" then NegInf
  else match scan_number s with
       | Some (n, EmptyString) => n
       | _ => NaN
       end.

(** The time value that [new Date(n)] keeps. *)
Definition TimeClip (n : number) : number :=
  match n with
  | Fin z => if (Z.abs z <=? 8640000000000000)%Z then Fin z else NaN
  | Lit lit => Lit lit
  | _ => NaN
  end.

(** ** Objects as property lists *)

(** The own enumerable properties of an object, in the order in which
    [for (k in o)] and [Object.keys(o)] visit them. *)
Definition props (A : Type) : Type := list (string * A).

(** [CreateDataProperty(o, k, x)]: an existing property keeps its place
    and takes the new value, a new property goes last. *)
Fixpoint obj_define {A} (k : string) (x : A) (o : props A) : props A :=
  match o with
  | [] => [(k, x)]
  | (k', y) :: o' =>
      if String.eqb k' k then (k, x) :: o' else (k', y) :: obj_define k x o'
  end.

(** The assignment [o[k] = x] on an ordinary object: the key
    [__proto__] reaches the accessor of [Object.prototype] and creates no
    property. *)
Definition obj_set {A} (k : string) (x : A) (o : props A) : props A :=
  if String.eqb k "__proto__" then o else obj_define k x o.

(** ** JSON: the platform functions [JSON.stringify] and [JSON.parse] *)

Inductive json : Type :=
| JNull
| JBool (b : bool)
| JNum (n : number)
| JStr (s : string)
| JArr (l : list json)
| JObj (l : props json).

Module JSON.

Definition hex_digit (n : N) : ascii :=
  if (n <? 10)%N then ascii_of_N (n + 48) else ascii_of_N (n + 87).

(** [QuoteJSONString], one code unit at a time. *)
Definition quote_char (c : ascii) : string :=
  let n := N_of_ascii c in
  if (n =? 8)%N then "\b"
  else if (n =? 9)%N then "\t"
  else if (n =? 10)%N then "\n"
  else if (n =? 12)%N then "\f"
  else if (n =? 13)%N then "\r"
  else if (n =? 34)%N then String backslash (String dquote EmptyString)
  else if (n =? 92)%N then "\\"
  else if (n <? 32)%N then
    "\u00" ++ String (hex_digit (n / 16)) (String (hex_digit (n mod 16)) EmptyString)
  else String c EmptyString.

Fixpoint quote_body (s : string) : string :=
  match s with
  | EmptyString => EmptyString
  | String c rest => quote_char c ++ quote_body rest
  end.

Definition quote (s : string) : string :=
  String dquote (quote_body s ++ String dquote EmptyString).

Fixpoint join_comma (l : list string) : string :=
  match l with
  | [] => EmptyString
  | [x] => x
  | x :: rest => x ++ "," ++ join_comma rest
  end.

(** A number that is not finite is written [null]. *)
Definition stringify_number (n : number) : string :=
  match n with
  | NaN | PosInf | NegInf => "null"
  | _ => NumberToString n
  end.

(** [JSON.stringify(j)] without indentation. *)
Fixpoint stringify (j : json) : string :=
  match j with
  | JNull => "null"
  | JBool b => if b then "true" else "false"
  | JNum n => stringify_number n
  | JStr s => quote s
  | JArr l => "[" ++ join_comma (map stringify l) ++ "]"
  | JObj l =>
      "{" ++ join_comma
               (map (fun kv => quote (fst kv) ++ ":" ++ stringify (snd kv)) l)
          ++ "}"
  end.

(** *** Parsing *)

Definition is_json_ws (c : ascii) : bool :=
  let n := N_of_ascii c in
  ((n =? 32) || (n =? 9) || (n =? 10) || (n =? 13))%N.

Fixpoint skip_ws (s : string) : string :=
  match s with
  | EmptyString => EmptyString
  | String c rest => if is_json_ws c then skip_ws rest else s
  end.

Definition hex_value (c : ascii) : option N :=
  let n := N_of_ascii c in
  if ((48 <=? n) && (n <=? 57))%N then Some (n - 48)%N
  else if ((97 <=? n) && (n <=? 102))%N then Some (n - 87)%N
  else if ((65 <=? n) && (n <=? 70))%N then Some (n - 55)%N
  else None.

(** The code unit of an escape [\uXXXX]; the embedding keeps its low
    eight bits. *)
Definition unicode_escape (a b c d : ascii) : option ascii :=
  a ← hex_value a; b ← hex_value b; c ← hex_value c; d ← hex_value d;
  Some (ascii_of_N (((a * 16 + b) * 16 + c) * 16 + d)).

(** The escapes of one character: quote, backslash, slash, b, f, n, r
    and t. *)
Definition simple_escape (e : ascii) : option ascii :=
  let n := N_of_ascii e in
  if (n =? 34)%N then Some dquote
  else if (n =? 92)%N then Some backslash
  else if (n =? 47)%N then Some "/"%char
  else if (n =? 98)%N then Some (ascii_of_N 8)
  else if (n =? 102)%N then Some (ascii_of_N 12)
  else if (n =? 110)%N then Some (ascii_of_N 10)
  else if (n =? 114)%N then Some (ascii_of_N 13)
  else if (n =? 116)%N then Some (ascii_of_N 9)
  else None.

(** A string literal after its opening quote: the string, and what
    follows the closing quote. *)
Fixpoint parse_string_body (s : string) : option (string * string) :=
  match s with
  | EmptyString => None
  | String c rest =>
      if Ascii.eqb c dquote then Some (EmptyString, rest)
      else if Ascii.eqb c backslash then
        match rest with
        | EmptyString => None
        | String e rest1 =>
            if Ascii.eqb e "u" then
              match rest1 with
              | String h1 (String h2 (String h3 (String h4 rest2))) =>
                  u ← unicode_escape h1 h2 h3 h4;
                  '(t, r) ← parse_string_body rest2;
                  Some (String u t, r)
              | _ => None
              end
            else
              u ← simple_escape e;
              '(t, r) ← parse_string_body rest1;
              Some (String u t, r)
        end
      else if (N_of_ascii c <? 32)%N then None
      else
        '(t, r) ← parse_string_body rest;
        Some (String c t, r)
  end.

(** A literal name at the head of [s]. *)
Fixpoint strip_prefix (p s : string) : option string :=
  match p with
  | EmptyString => Some s
  | String a p' =>
      match s with
      | String b s' => if Ascii.eqb a b then strip_prefix p' s' else None
      | EmptyString => None
      end
  end.

Definition define_all (ms : props json) : props json :=
  fold_left (fun o kv => obj_define (fst kv) (snd kv) o) ms [].

(** Recursive descent; [fuel] bounds the depth of the recursion. *)
Fixpoint parse_value (fuel : nat) (s : string) : option (json * string) :=
  match fuel with
  | O => None
  | S fuel =>
      match skip_ws s with
      | EmptyString => None
      | String c rest =>
          if Ascii.eqb c "[" then
            match skip_ws rest with
            | EmptyString => None
            | String d rest1 =>
                if Ascii.eqb d "]" then Some (JArr [], rest1)
                else '(l, r) ← parse_elements fuel (String d rest1);
                     Some (JArr l, r)
            end
          else if Ascii.eqb c "{" then
            match skip_ws rest with
            | EmptyString => None
            | String d rest1 =>
                if Ascii.eqb d "}" then Some (JObj [], rest1)
                else '(ms, r) ← parse_members fuel (String d rest1);
                     Some (JObj (define_all ms), r)
            end
          else if Ascii.eqb c dquote then
            '(t, r) ← parse_string_body rest; Some (JStr t, r)
          else if Ascii.eqb c "t" then
            r ← strip_prefix "rue" rest; Some (JBool true, r)
          else if Ascii.eqb c "f" then
            r ← strip_prefix "alse" rest; Some (JBool false, r)
          else if Ascii.eqb c "n" then
            r ← strip_prefix "ull" rest; Some (JNull, r)
          else
            '(n, r) ← scan_number (String c rest); Some (JNum n, r)
      end
  end
with parse_elements (fuel : nat) (s : string) : option (list json * string) :=
  match fuel with
  | O => None
  | S fuel =>
      '(v, r) ← parse_value fuel s;
      match skip_ws r with
      | EmptyString => None
      | String c r1 =>
          if Ascii.eqb c "," then
            '(vs, r2) ← parse_elements fuel r1; Some (v :: vs, r2)
          else if Ascii.eqb c "]" then Some ([v], r1)
          else None
      end
  end
with parse_members (fuel : nat) (s : string) : option (props json * string) :=
  match fuel with
  | O => None
  | S fuel =>
      match skip_ws s with
      | EmptyString => None
      | String c r =>
          if Ascii.eqb c dquote then
            '(k, r1) ← parse_string_body r;
            match skip_ws r1 with
            | EmptyString => None
            | String c1 r2 =>
                if Ascii.eqb c1 ":" then
                  '(v, r3) ← parse_value fuel r2;
                  match skip_ws r3 with
                  | EmptyString => None
                  | String c2 r4 =>
                      if Ascii.eqb c2 "," then
                        '(ms, r5) ← parse_members fuel r4;
                        Some ((k, v) :: ms, r5)
                      else if Ascii.eqb c2 "}" then Some ([(k, v)], r4)
                      else None
                  end
                else None
            end
          else None
      end
  end.

(** [JSON.parse(s)]: one value, and nothing but white space after it.
    Twice the length of the text is fuel enough: a level of nesting costs
    two units and at least one character. *)
Definition parse (s : string) : outcome json :=
  match parse_value (2 * String.length s + 2) s with
  | Some (j, r) =>
      if is_empty (skip_ws r) then Returns j else Throws SyntaxError
  | None => Throws SyntaxError
  end.

End JSON.

(** ** Structured values *)

(** What the object store holds: the values of the structured clone
    algorithm that the codec distinguishes. A typed view is its
    constructor name, the whole underlying buffer and the window of the
    view, in bytes; a blob is its media type and its bytes. *)
Inductive value : Type :=
| VNull
| VUndefined
| VBool (b : bool)
| VNum (n : number)
| VStr (s : string)
| VBigInt (z : Z)
| VDate (time : number)
| VArrayBuffer (bytes : list byte)
| VView (kind : string) (buffer : list byte) (byteOffset byteLength : nat)
| VBlob (type : string) (bytes : list byte)
| VArr (l : list value)
| VObj (l : props value).

(** The view constructors of [globalThis] and their element sizes;
    [DataView] takes any length. Every other name is taken to be bound
    to nothing; a page binds many more ([Array], [Date], [WeakRef], ...),
    and for a string that names one of them the source constructs an
    object that is no value of the embedding. *)
Definition globalThis (ctor : string) : option nat :=
  if String.eqb ctor "Int8Array" then Some 1
  else if String.eqb ctor "Uint8Array" then Some 1
  else if String.eqb ctor "Uint8ClampedArray" then Some 1
  else if String.eqb ctor "Int16Array" then Some 2
  else if String.eqb ctor "Uint16Array" then Some 2
  else if String.eqb ctor "Int32Array" then Some 4
  else if String.eqb ctor "Uint32Array" then Some 4
  else if String.eqb ctor "Float32Array" then Some 4
  else if String.eqb ctor "Float64Array" then Some 8
  else if String.eqb ctor "BigInt64Array" then Some 8
  else if String.eqb ctor "BigUint64Array" then Some 8
  else if String.eqb ctor "DataView" then Some 1
  else None.

(** [new T(ab)]: a view of the whole buffer; a [RangeError] when the
    length of the buffer is not a multiple of the element size. *)
Definition new_view (ctor : string) (size : nat) (ab : list byte) : option value :=
  if (length ab mod size =? 0) then Some (VView ctor ab 0 (length ab)) else None.

(** ** The codec *)

(** [blobToBase64]: the data URL of the blob, from after its first
    comma. *)
Definition readAsDataURL (type : string) (bytes : list byte) : string :=
  "data:" ++ type ++ ";base64," ++ btoa (string_of_list_byte bytes).

Definition blobToBase64 (type : string) (bytes : list byte) : string :=
  let dataUrl := readAsDataURL type bytes in
  match indexOf "," dataUrl with
  | Some comma => slice (comma + 1) dataUrl
  | None => dataUrl
  end.

(** The strings of a parsed value on which [rev] calls
    [deserializeFromLocalStorage]: those that are members of a container,
    at any depth. *)
Fixpoint jstrings (j : json) : list string :=
  match j with
  | JStr s => [s]
  | JArr l => concat (map jstrings l)
  | JObj l => concat (map (fun kv => jstrings (snd kv)) l)
  | _ => []
  end.

(** [v.map(f)] for an [f] that may raise. *)
Definition map_outcome {A B} (f : A -> outcome B) : list A -> outcome (list B) :=
  fix go (l : list A) : outcome (list B) :=
    match l with
    | [] => Returns []
    | x :: l => y ← f x; ys ← go l; Returns (y :: ys)
    end.

(** [for (var p in v) o[p] = f(v[p])]. *)
Definition for_in {A B} (f : A -> outcome B) : props A -> props B -> outcome (props B) :=
  fix go (l : props A) (o : props B) : outcome (props B) :=
    match l with
    | [] => Returns o
    | (p, x) :: l => y ← f x; go l (obj_set p y o)
    end.

(** [serializeForLocalStorage]. The branches follow the tests of the
    source in their order: null, undefined, Date, ArrayBuffer, view, Blob,
    object (array or not), primitive. The object [out] of a container
    holds the strings of its members; a member that raises makes the
    container raise. *)
Fixpoint serializeForLocalStorage (value : value) : outcome string :=
  match value with
  | VNull => Returns "JS:__NULL__"
  | VUndefined => Returns "JS:__UNDEFINED__"
  | VDate time => Returns ("DATE:" ++ NumberToString time)
  | VArrayBuffer bytes => Returns ("AB:" ++ arrayBufferToBase64 bytes)
  | VView kind buffer _ _ =>
      Returns ("TA:" ++ kind ++ ":" ++ arrayBufferToBase64 buffer)
  | VBlob type bytes => Returns ("BL:" ++ blobToBase64 type bytes)
  | VArr l =>
      out ← map_outcome serializeForLocalStorage l;
      Returns ("OBJ:" ++ JSON.stringify (JArr (map JStr out)))
  | VObj l =>
      out ← for_in serializeForLocalStorage l [];
      Returns ("OBJ:" ++ JSON.stringify
                            (JObj (map (fun kv => (fst kv, JStr (snd kv))) out)))
  | VBool b => Returns ("JS:" ++ JSON.stringify (JBool b))
  | VNum n => Returns ("JS:" ++ JSON.stringify (JNum n))
  | VStr s => Returns ("JS:" ++ JSON.stringify (JStr s))
  | VBigInt _ => Throws TypeError
  end.

(** The value that [JSON.parse] returns, as a structured value. *)
Fixpoint value_of_json (j : json) : value :=
  match j with
  | JNull => VNull
  | JBool b => VBool b
  | JNum n => VNum n
  | JStr s => VStr s
  | JArr l => VArr (map value_of_json l)
  | JObj l => VObj (map (fun kv => (fst kv, value_of_json (snd kv))) l)
  end.

(** The local function [rev] of [deserializeFromLocalStorage]; [leaf] is
    the call of the enclosing function on a string of the container. *)
Fixpoint rev (leaf : string -> outcome value) (v : json) : outcome value :=
  match v with
  | JNull => Returns VNull
  | JStr s => leaf s
  | JArr l => l' ← map_outcome (rev leaf) l; Returns (VArr l')
  | JObj l => o ← for_in (rev leaf) l []; Returns (VObj o)
  | JBool b => Returns (VBool b)
  | JNum n => Returns (VNum n)
  end.

(** [deserializeFromLocalStorage] on a string; [fuel] bounds the depth
    of the calls that [rev] makes on the strings of a container. *)
Fixpoint deserialize (fuel : nat) (str : string) : outcome value :=
  match fuel with
  | O => Throws RangeError
  | S fuel =>
      if String.eqb str "JS:__NULL__" then Returns VNull
      else if String.eqb str "JS:__UNDEFINED__" then Returns VUndefined
      else if startsWith "AB:" str then
        ab ← base64ToArrayBuffer (slice 3 str); Returns (VArrayBuffer ab)
      else if startsWith "TA:" str then
        let rest := slice 3 str in
        match indexOf ":" rest with
        | None => ab ← base64ToArrayBuffer rest; Returns (VArrayBuffer ab)
        | Some idx =>
            let ctor := slice_to idx rest in
            let b64 := slice (idx + 1) rest in
            ab ← base64ToArrayBuffer b64;
            match globalThis ctor with
            | Some size =>
                match new_view ctor size ab with
                | Some view => Returns view
                | None => Returns (VArrayBuffer ab)
                end
            | None => Returns (VArrayBuffer ab)
            end
        end
      else if startsWith "BL:" str then
        ab ← base64ToArrayBuffer (slice 3 str);
        Returns (VBlob "application/octet-stream" ab)
      else if startsWith "DATE:" str then
        Returns (VDate (TimeClip (Number (slice 5 str))))
      else if startsWith "JS:" str then
        j ← JSON.parse (slice 3 str); Returns (value_of_json j)
      else if startsWith "OBJ:" str then
        inner ← JSON.parse (slice 4 str); rev (deserialize fuel) inner
      else Returns (VStr str)
  end.

(** [deserializeFromLocalStorage(str)], where [None] is [null], what
    [localStorage.getItem] returns for a key that is absent. A string
    nests containers less deep than it is long, so that the fuel is
    enough for every string: the call stack of the embedding has no
    bound, where that of an engine is exhausted by a nesting of some
    thousands of levels. *)
Definition deserializeFromLocalStorage (str : option string) : outcome value :=
  match str with
  | None => Returns VNull
  | Some str => deserialize (S (String.length str)) str
  end.

(** ** Values that the codec gives back unchanged *)

(** A number that [JSON.stringify] writes as itself: an integer, or a
    literal with a fraction or an exponent. *)
Definition finite_number (n : number) : bool :=
  match n with
  | Fin _ => true
  | Lit lit =>
      match scan_number lit with
      | Some (Lit lit', EmptyString) => String.eqb lit' lit
      | _ => false
      end
  | _ => false
  end.

(** The time value of a [Date]: an integer within the range of
    [TimeClip], or [NaN] for an invalid date. *)
Definition time_value (t : number) : bool :=
  match t with
  | Fin z => (Z.abs z <=? 8640000000000000)%Z
  | NaN => true
  | _ => false
  end.

(** [preserved v]: [v] holds no BigInt, every number of [v] is finite, every typed view spans
    the whole of its buffer, every blob has the generic media type and no
    mapping has a key [__proto__]; and [v] is well formed: the time value
    of a date is one, a view has the name and the alignment of a view
    constructor, the keys of a mapping are distinct. *)
Fixpoint preserved (v : value) : bool :=
  match v with
  | VNull | VUndefined | VBool _ | VStr _ | VArrayBuffer _ => true
  | VBigInt _ => false
  | VNum n => finite_number n
  | VDate t => time_value t
  | VView kind buffer byteOffset byteLength =>
      match globalThis kind with
      | Some size =>
          (byteOffset =? 0) && (byteLength =? length buffer)
          && (length buffer mod size =? 0)
      | None => false
      end
  | VBlob type _ => String.eqb type "application/octet-stream"
  | VArr l => forallb preserved l
  | VObj l =>
      bool_decide (NoDup (map fst l))
      && negb (existsb (String.eqb "__proto__") (map fst l))
      && forallb (fun kv => preserved (snd kv)) l
  end.

(** A value round-trips when the serialiser returns a string from which
    [deserialize], with fuel for its length, gives the value back. *)
Definition round_trips (v : value) : Prop :=
  exists s, serializeForLocalStorage v = Returns s /\
    forall fuel, String.length s < fuel -> deserialize fuel s = Returns v.

(** A member [x] of a container and its string [s], for the call [leaf]
    that [rev] makes on strings. *)
Definition codec_pair (leaf : string -> outcome value) (x : value) (s : string) : Prop :=
  serializeForLocalStorage x = Returns s /\ leaf s = Returns x.

(** ** The script and its browsing context *)

(** [CONFIG]. *)
Definition gameId : string := "dt".
Definition localStoragePrefix : string := "dt".

(** What a run finds around it. [isInIframe] is [window.parent !==
    window]. [MAX_LOCALSTORAGE_BYTES] is the constant of that name in
    [exportToLocalStorage], which the source sets to [4 * 1024 * 1024].
    [timestampKey v] is [String(k)] for the key [k] under which the index
    [timestamp] of the object store lists a record of value [v], and
    [None] when the store has no such index or [v] no such key. *)
Record environment : Type := {
  isInIframe : bool;
  MAX_LOCALSTORAGE_BYTES : nat;
  timestampKey : value -> option string
}.

(** The payload [allLocalStorageData] of a message: the own enumerable
    properties of the object, their values as [localStorage.setItem]
    stores them. *)
Definition payload : Type := props string.

(** The messages that the script posts. *)
Inductive outbound : Type :=
| SaveDataChanged (allLocalStorageData : payload)
| GetInitialSaveData (messageId : string)
| SaveDataResponse (messageId : option string) (allLocalStorageData : payload)
| LoadDataResponse (messageId : option string) (success : bool)
| SnapshotResponse (messageId : option string).

(** The data of a message event that the script receives. A field
    [allLocalStorageData] that is absent or falsy is [None]. *)
Record message : Type := {
  type : string;
  messageId : option string;
  allLocalStorageData : option payload
}.

(** The state that the script reads and writes. [listener] is the
    message id of the listener [responseHandler] that
    [requestInitialSaveData] registered, while it is registered;
    [timeout] tells whether its timer is pending. [saveLoaded] collects the details of the events
    [wigdosxp-save-loaded], [reloads] counts the page reloads
    scheduled. *)
Record world : Type := {
  localStorage : gmap string string;
  FILE_DATA : gmap string value;
  lastSyncedData : option string;
  listener : option string;
  timeout : bool;
  posted : list outbound;
  saveLoaded : list (payload * bool);
  reloads : nat
}.

Definition set_localStorage (ls : gmap string string) (w : world) : world :=
  {| localStorage := ls; FILE_DATA := FILE_DATA w;
     lastSyncedData := lastSyncedData w; listener := listener w;
     timeout := timeout w; posted := posted w; saveLoaded := saveLoaded w;
     reloads := reloads w |}.

Definition set_FILE_DATA (db : gmap string value) (w : world) : world :=
  {| localStorage := localStorage w; FILE_DATA := db;
     lastSyncedData := lastSyncedData w; listener := listener w;
     timeout := timeout w; posted := posted w; saveLoaded := saveLoaded w;
     reloads := reloads w |}.

Definition set_lastSyncedData (d : option string) (w : world) : world :=
  {| localStorage := localStorage w; FILE_DATA := FILE_DATA w;
     lastSyncedData := d; listener := listener w;
     timeout := timeout w; posted := posted w; saveLoaded := saveLoaded w;
     reloads := reloads w |}.

Definition set_listener (h : option string) (t : bool) (w : world) : world :=
  {| localStorage := localStorage w; FILE_DATA := FILE_DATA w;
     lastSyncedData := lastSyncedData w; listener := h;
     timeout := t; posted := posted w; saveLoaded := saveLoaded w;
     reloads := reloads w |}.

(** [postMessage(m, ...)]. *)
Definition postMessage (m : outbound) (w : world) : world :=
  {| localStorage := localStorage w; FILE_DATA := FILE_DATA w;
     lastSyncedData := lastSyncedData w; listener := listener w;
     timeout := timeout w; posted := posted w ++ [m]; saveLoaded := saveLoaded w;
     reloads := reloads w |}.

(** [window.dispatchEvent(new CustomEvent('wigdosxp-save-loaded', ...))]. *)
Definition dispatchSaveLoaded (data : payload) (isInitialLoad : bool) (w : world) : world :=
  {| localStorage := localStorage w; FILE_DATA := FILE_DATA w;
     lastSyncedData := lastSyncedData w; listener := listener w;
     timeout := timeout w; posted := posted w;
     saveLoaded := saveLoaded w ++ [(data, isInitialLoad)];
     reloads := reloads w |}.

(** [setTimeout(() => window.location.reload(), 100)]. *)
Definition scheduleReload (w : world) : world :=
  {| localStorage := localStorage w; FILE_DATA := FILE_DATA w;
     lastSyncedData := lastSyncedData w; listener := listener w;
     timeout := timeout w; posted := posted w; saveLoaded := saveLoaded w;
     reloads := S (reloads w) |}.

(** *** localStorage *)

(** Entries written to a map one after the other. *)
Definition writes {V} (l : list (string * V)) (m : gmap string V) : gmap string V :=
  fold_left (fun m kv => <[fst kv := snd kv]> m) l m.

(** [localStorage.key(i)] for every [i] below [localStorage.length]. *)
Definition keys (ls : gmap string string) : list string :=
  map fst (map_to_list ls).

(** [localStorage.getItem(k)]; [None] is [null]. *)
Definition getItem (k : string) (ls : gmap string string) : option string :=
  ls !! k.

(** [localStorage.setItem(k, v)]. *)
Definition setItem (k v : string) (ls : gmap string string) : gmap string string :=
  <[k := v]> ls.

(** [Object.keys(data).forEach(key => localStorage.setItem(key, data[key]))]. *)
Definition setItems (data : payload) (ls : gmap string string) : gmap string string :=
  fold_left (fun ls kv => setItem (fst kv) (snd kv) ls) data ls.

(** ** IndexedDBSync *)

(** [getAllFromIndexedDB]: the keys and the values of the records, and
    the map [timestamps] read from the index. *)
Definition getAllFromIndexedDB (w : world) : list (string * value) :=
  map_to_list (FILE_DATA w).

(** [saveToIndexedDB(key, data)]: [store.put(data, key)]. *)
Definition saveToIndexedDB (key : string) (data : value) (w : world) : world :=
  set_FILE_DATA (<[key := data]> (FILE_DATA w)) w.

(** The function that [exportToLocalStorage] maps over the keys: [true]
    when the entry was written, [false] when its string is too long or
    the serialiser raised. *)
Definition exportEntry (E : environment) (entry : string * value)
    (ls : gmap string string) : bool * gmap string string :=
  let '(key, value) := entry in
  let localStorageKey := localStoragePrefix ++ key in
  match serializeForLocalStorage value with
  | Returns serialized =>
      if MAX_LOCALSTORAGE_BYTES E <? String.length serialized then (false, ls)
      else
        let ls := setItem localStorageKey serialized ls in
        match timestampKey E value with
        | Some ts => (true, setItem (localStorageKey ++ "::ts") ts ls)
        | None => (true, ls)
        end
  | Throws _ => (false, ls)
  end.

(** [Promise.all(storePromises)]: the results of the entries, and
    [localStorage] after them. *)
Fixpoint exportEntries (E : environment) (entries : list (string * value))
    (ls : gmap string string) : list bool * gmap string string :=
  match entries with
  | [] => ([], ls)
  | entry :: entries =>
      let '(ok, ls) := exportEntry E entry ls in
      let '(results, ls) := exportEntries E entries ls in
      (ok :: results, ls)
  end.

(** The object [allLocalStorageData] that a loop over [localStorage]
    fills by assignment, for the keys that [keep] lets through. *)
Definition collect (keep : string -> bool) (ls : gmap string string) : payload :=
  fold_left
    (fun all key =>
       if keep key then
         match getItem key ls with
         | Some v => obj_set key v all
         | None => all
         end
       else all)
    (keys ls) [].

(** [JSON.stringify(allLocalStorageData)]. *)
Definition stringify_payload (all : payload) : string :=
  JSON.stringify (JObj (map (fun kv => (fst kv, JStr (snd kv))) all)).

(** The test of [notifySaveDataChanged] on a key: falsy keys and the
    keys of timestamps are not sent. *)
Definition is_data_key (key : string) : bool :=
  negb (is_empty key || endsWith "::ts" key).

(** [WigdosXPSync.notifySaveDataChanged]. *)
Definition notifySaveDataChanged (E : environment) (w : world) : world :=
  if negb (isInIframe E) then w
  else
    let allLocalStorageData := collect is_data_key (localStorage w) in
    let dataString := stringify_payload allLocalStorageData in
    if bool_decide (Some dataString = lastSyncedData w) then w
    else postMessage (SaveDataChanged allLocalStorageData)
           (set_lastSyncedData (Some dataString) w).

(** [IndexedDBSync.exportToLocalStorage]: the count that the promise
    resolves to, and the state after it. *)
Definition exportToLocalStorage (E : environment) (w : world) : nat * world :=
  let data := getAllFromIndexedDB w in
  if (length data =? 0) then (0, w)
  else
    let '(results, ls) := exportEntries E data (localStorage w) in
    let successCount := length (filter (fun b => b = true) results) in
    (successCount, notifySaveDataChanged E (set_localStorage ls w)).

(** The body of the loop of [importFromLocalStorage] for one key: the
    record to put, if any. *)
Definition importEntry (ls : gmap string string) (localKey : string)
    : option (string * value) :=
  if is_empty localKey then None
  else if endsWith "::ts" localKey then None
  else if startsWith localStoragePrefix localKey then
    let indexedDBKey := slice (String.length localStoragePrefix) localKey in
    let dataString := getItem localKey ls in
    match deserializeFromLocalStorage dataString with
    | Returns data => Some (indexedDBKey, data)
    | Throws _ => None
    end
  else None.

(** [IndexedDBSync.importFromLocalStorage]: every record is put, and
    counted once put. A put of a value of the embedding does not raise;
    the source is rejected by a put that raises. *)
Definition importFromLocalStorage (w : world) : nat * world :=
  let records := omap (importEntry (localStorage w)) (keys (localStorage w)) in
  (length records,
   fold_left (fun w kv => saveToIndexedDB (fst kv) (snd kv) w) records w).

(** ** WigdosXPSync *)

(** [handleGetAllLocalStorageData]: every key of [localStorage] is
    sent. *)
Definition handleGetAllLocalStorageData (data : message) (w : world) : world :=
  let allLocalStorageData := collect (fun _ => true) (localStorage w) in
  postMessage (SaveDataResponse (messageId data) allLocalStorageData) w.

(** [handleSetAllLocalStorageData]. The event [wigdosxp-save-loaded] is
    dispatched while the promise of the import is pending; the response
    and the reload belong to the callback of that promise. *)
Definition handleSetAllLocalStorageData (data : message) (w : world) : world :=
  match allLocalStorageData data with
  | Some entries =>
      let w := set_localStorage ∅ w in
      let w := set_localStorage (setItems entries (localStorage w)) w in
      let w := dispatchSaveLoaded entries false w in
      let '(_, w) := importFromLocalStorage w in
      let w := postMessage (LoadDataResponse (messageId data) true) w in
      scheduleReload w
  | None => w
  end.

(** [handleSnapshotRequest]: the capture is left to [html2canvas]; the
    response carries its image or [null]. *)
Definition handleSnapshotRequest (data : message) (w : world) : world :=
  postMessage (SnapshotResponse (messageId data)) w.

(** [requestInitialSaveData], called at the time [now]. *)
Definition requestInitialSaveData (E : environment) (now : Z) (w : world) : world :=
  if negb (isInIframe E) then w
  else
    let messageId := "initial_load_" ++ NumberToString (Fin now) in
    postMessage (GetInitialSaveData messageId)
      (set_listener (Some messageId) true w).

(** The callback of the timer of [requestInitialSaveData]: it logs. *)
Definition timeoutCallback (w : world) : world :=
  set_listener (listener w) false w.

(** The listener [responseHandler] of the request [messageId]. *)
Definition responseHandler (messageId' : string) (data : option message)
    (w : world) : world :=
  match data with
  | Some data =>
      if String.eqb (type data) "initialSaveDataResponse"
         && bool_decide (messageId data = Some messageId')
      then
        let w := set_listener None false w in
        match allLocalStorageData data with
        | Some entries =>
            if 0 <? length entries then
              let w := set_localStorage (setItems entries (localStorage w)) w in
              let w := dispatchSaveLoaded entries true w in
              snd (importFromLocalStorage w)
            else w
        | None => w
        end
      else w
  | None => w
  end.

(** The listener of [setupMessageListeners]. *)
Definition messageListener (data : option message) (w : world) : world :=
  match data with
  | Some data =>
      if is_empty (type data) then w
      else if String.eqb (type data) "getAllLocalStorageData"
      then handleGetAllLocalStorageData data w
      else if String.eqb (type data) "setAllLocalStorageData"
      then handleSetAllLocalStorageData data w
      else if String.eqb (type data) "requestSnapshot"
      then handleSnapshotRequest data w
      else w
  | None => w
  end.

(** What the event loop runs after [WigdosXPSync.initialize]: a message
    event goes to the listeners in the order of their registration, a
    timer runs its callback. *)
Inductive event : Type :=
| Message (data : option message)
| Timeout
| ExportInterval
| NotifyInterval.

Definition step (E : environment) (ev : event) (w : world) : world :=
  match ev with
  | Message data =>
      let w :=
        match listener w with
        | Some messageId => responseHandler messageId data w
        | None => w
        end in
      if isInIframe E then messageListener data w else w
  | Timeout => if timeout w then timeoutCallback w else w
  | ExportInterval => snd (exportToLocalStorage E w)
  | NotifyInterval => notifySaveDataChanged E w
  end.

Definition run (E : environment) (evs : list event) (w : world) : world :=
  fold_left (fun w ev => step E ev w) evs w.

(** The state in which a script starts. *)
Definition start (ls : gmap string string) (db : gmap string value) : world :=
  {| localStorage := ls; FILE_DATA := db; lastSyncedData := None;
     listener := None; timeout := false; posted := []; saveLoaded := [];
     reloads := 0 |}.

(** ** The categories of structured values of the codec *)

(** [supported v]: [v] is built from null, undefined, booleans, numbers,
    strings, dates, buffers, typed views, blobs, sequences and mappings,
    and is well formed: the time value of a date is one, the window of a
    view lies in its buffer and is aligned for a view constructor, the
    keys of a mapping are distinct. *)
Fixpoint supported (v : value) : bool :=
  match v with
  | VNull | VUndefined | VBool _ | VNum _ | VStr _ | VArrayBuffer _
  | VBlob _ _ => true
  | VBigInt _ => false
  | VDate t => time_value t
  | VView kind buffer byteOffset byteLength =>
      match globalThis kind with
      | Some size =>
          (byteOffset + byteLength <=? length buffer)
          && (byteOffset mod size =? 0) && (byteLength mod size =? 0)
      | None => false
      end
  | VArr l => forallb supported l
  | VObj l =>
      bool_decide (NoDup (map fst l))
      && forallb (fun kv => supported (snd kv)) l
  end.

(** The bytes that a view shows. *)
Definition window (buffer : list byte) (byteOffset byteLength : nat) : list byte :=
  firstn byteLength (skipn byteOffset buffer).

(** The writes of an entry of [exportToLocalStorage]. *)
Definition entryWrites (E : environment) (entry : string * value)
    : list (string * string) :=
  let '(key, value) := entry in
  let localStorageKey := localStoragePrefix ++ key in
  match serializeForLocalStorage value with
  | Returns serialized =>
      if MAX_LOCALSTORAGE_BYTES E <? String.length serialized then []
      else
        (localStorageKey, serialized) ::
        match timestampKey E value with
        | Some ts => [(localStorageKey ++ "::ts", ts)]
        | None => []
        end
  | Throws _ => []
  end.

(** The tags of [deserializeFromLocalStorage]. *)
Definition tags : list string := ["AB:"; "TA:"; "BL:"; "DATE:"; "JS:"; "OBJ:"].

Definition recognised (str : string) : bool :=
  existsb (fun tag => startsWith tag str) tags.

(** ** States and messages of the scenarios *)

(** In a frame, with a limit of one hundred characters and no index
    [timestamp]. *)
Definition in_frame : environment :=
  {| isInIframe := true; MAX_LOCALSTORAGE_BYTES := 100;
     timestampKey := fun _ => None |}.

(** A store [{a: 1, b: Date(1000)}]. *)
Definition store_a_b : gmap string value :=
  <["a" := VNum (Fin 1)]> (<["b" := VDate (Fin 1000)]> ∅).

(** A [localStorage] with an entry and the timestamp that goes with it. *)
Definition flat_with_timestamp : gmap string string :=
  <["dta" := "JS:1"]> (<["dta::ts" := "5"]> ∅).

Definition getAll_request : message :=
  {| type := "getAllLocalStorageData"; messageId := Some "m1";
     allLocalStorageData := None |}.

(** A store whose one value cannot be serialised. *)
Definition store_bigint : gmap string value := <["a" := VBigInt 10]> ∅.

(** The response to the request that [requestInitialSaveData] posts at
    the time 0, with one entry. *)
Definition initial_response : message :=
  {| type := "initialSaveDataResponse"; messageId := Some "initial_load_0";
     allLocalStorageData := Some [("dtx", "JS:1")] |}.

(** The digest of [notifySaveDataChanged]. *)
Definition dataString (ls : gmap string string) : string :=
  stringify_payload (collect is_data_key ls).

(** A maximum of five characters. *)
Definition tight : environment :=
  {| isInIframe := true; MAX_LOCALSTORAGE_BYTES := 5;
     timestampKey := fun _ => None |}.

(** A store with a short entry and a long one. *)
Definition store_short_long : gmap string value :=
  <["a" := VNum (Fin 1)]> (<["b" := VStr "0123456789"]> ∅).

(** A nested value of every kind that the codec preserves. *)
Definition nested_value : value :=
  VObj [("list", VArr [VNull; VUndefined; VBool true; VNum (Fin (-7));
                       VNum (Lit "1.5"); VStr "x"]);
        ("date", VDate (Fin 1000));
        ("buffer", VArrayBuffer [x00; xff]%byte);
        ("view", VView "Uint16Array" [x01; x02]%byte 0 2);
        ("blob", VBlob "application/octet-stream" [x2a]%byte);
        ("map", VObj [("k", VStr "v")])].

Definition set_request_without_payload : message :=
  {| type := "setAllLocalStorageData"; messageId := Some "m2";
     allLocalStorageData := None |}.

(** ** More of the script: predicates, start-up, initialisation *)

(** [has_bigint v]: [v] is a BigInt or holds one, at any depth. *)
Fixpoint has_bigint (v : value) : bool :=
  match v with
  | VBigInt _ => true
  | VArr l => existsb has_bigint l
  | VObj l => existsb (fun kv => has_bigint (snd kv)) l
  | _ => false
  end.

(** [well_formed v]: [v] holds no BigInt; a number written as a literal
    is a literal of JSON; the time value of a date is one; a typed view
    has the name of a view constructor; the media type of a blob holds
    no comma; the keys of a mapping are distinct. *)
Fixpoint well_formed (v : value) : bool :=
  match v with
  | VNull | VUndefined | VBool _ | VStr _ | VArrayBuffer _ => true
  | VBigInt _ => false
  | VNum n => match n with Lit _ => finite_number n | _ => true end
  | VDate t => time_value t
  | VView kind _ _ _ =>
      match globalThis kind with Some _ => true | None => false end
  | VBlob type _ =>
      match indexOf "," type with Some _ => false | None => true end
  | VArr l => forallb well_formed l
  | VObj l =>
      bool_decide (NoDup (map fst l))
      && forallb (fun kv => well_formed (snd kv)) l
  end.

(** What a value comes back as from its string: a number that is not
    finite as null; a typed view as a view of its whole buffer, or as the
    buffer when its length is no multiple of the element size; a blob
    with the generic media type; a mapping without its key [__proto__];
    the members of a container likewise. *)
Fixpoint round_trip_image (v : value) : value :=
  match v with
  | VNum n => if finite_number n then VNum n else VNull
  | VView kind buffer _ _ =>
      match globalThis kind with
      | Some size =>
          if length buffer mod size =? 0
          then VView kind buffer 0 (length buffer)
          else VArrayBuffer buffer
      | None => VArrayBuffer buffer
      end
  | VBlob _ bytes => VBlob "application/octet-stream" bytes
  | VArr l => VArr (map round_trip_image l)
  | VObj l =>
      VObj (flat_map
              (fun kv =>
                 if String.eqb (fst kv) "__proto__" then []
                 else [(fst kv, round_trip_image (snd kv))]) l)
  | _ => v
  end.

(** *** The limits of the engine *)

(** A length that a string may have in the engines in use: V8 allows
    [2 ^ 29 - 24] code units, and [2 ^ 28 - 16] on a 32-bit platform;
    SpiderMonkey and JavaScriptCore allow more. Beyond its limit an engine
    raises [RangeError: Invalid string length] where the embedding goes
    on. The room left below the least limit is for the prefix of a data
    URL. *)
Definition maxStringLength : N := 2 ^ 28 - 64.

Definition within_string_limit (s : string) : Prop :=
  (N.of_nat (String.length s) <= maxStringLength)%N.

(** *** Strings on which the embedding is exact *)

(** [exact_value v]: the numbers of [v] are integers that a double holds
    exactly, or are not finite. For such a number the string of the
    embedding is the string of the engine. *)
Fixpoint exact_value (v : value) : bool :=
  match v with
  | VNum n =>
      match n with
      | Fin z => (Z.abs z <? 2 ^ 53)%Z
      | Lit _ => false
      | _ => true
      end
  | VArr l => forallb exact_value l
  | VObj l => forallb (fun kv => exact_value (snd kv)) l
  | _ => true
  end.

(** [exact_string s]: [s] is under no tag, or is the string of a well
    formed value with exact numbers, within the limit of strings. On such
    a string [deserializeFromLocalStorage] meets no name of a global
    other than a view constructor, no number that a double rounds and no
    nesting that the call stack cannot take, and returns a value that the
    structured clone algorithm accepts. *)
Definition exact_string (s : string) : Prop :=
  recognised s = false \/
  exists v,
    well_formed v = true /\ exact_value v = true /\
    serializeForLocalStorage v = Returns s /\ within_string_limit s.

(** The payloads of the messages [saveDataChanged] posted so far. *)
Definition notifications (w : world) : list payload :=
  omap (fun m => match m with
                 | SaveDataChanged all => Some all
                 | _ => None
                 end) (posted w).

Module IndexedDBSync.

(** [IndexedDBSync.initialize]: the import, then the export; the
    periodic export that it sets up is the event [ExportInterval]. *)
Definition initialize (E : environment) (w : world) : world :=
  let '(_, w) := importFromLocalStorage w in
  snd (exportToLocalStorage E w).

End IndexedDBSync.

(** *** The effects of a handler, in their order *)

(** What a handler does to the state, one effect after the other:
    [localStorage.clear()], [localStorage.setItem(k, v)], the event
    [wigdosxp-save-loaded], [store.put(data, key)], [postMessage] and the
    timer of the reload. *)
Inductive effect : Type :=
| Clear
| SetItem (key value : string)
| DispatchSaveLoaded (data : payload) (isInitialLoad : bool)
| Put (key : string) (data : value)
| Post (m : outbound)
| ScheduleReload.

Definition perform (e : effect) (w : world) : world :=
  match e with
  | Clear => set_localStorage ∅ w
  | SetItem key value => set_localStorage (setItem key value (localStorage w)) w
  | DispatchSaveLoaded data isInitialLoad => dispatchSaveLoaded data isInitialLoad w
  | Put key data => saveToIndexedDB key data w
  | Post m => postMessage m w
  | ScheduleReload => scheduleReload w
  end.

Definition perform_all (effects : list effect) (w : world) : world :=
  fold_left (fun w e => perform e w) effects w.

(** The puts of [importFromLocalStorage] for a [localStorage]. *)
Definition importFromLocalStorage_effects (ls : gmap string string) : list effect :=
  map (fun kv => Put (fst kv) (snd kv)) (omap (importEntry ls) (keys ls)).

(** The effects of [handleSetAllLocalStorageData], in the order in which
    the source brings them about: the clear; the entries of the payload,
    one [setItem] each; the event, dispatched while the promise of the
    import is pending; the puts of the import, which reads the
    [localStorage] that the entries made; and, in the callback of the
    promise of the import, the response and the timer of the reload.
    (The puts are puts of values of the embedding, none of which raises;
    after a put that raises the source posts no response.) *)
Definition handleSetAllLocalStorageData_effects (data : message) : list effect :=
  match allLocalStorageData data with
  | Some entries =>
      ([Clear]
       ++ map (fun kv => SetItem (fst kv) (snd kv)) entries
       ++ [DispatchSaveLoaded entries false]
       ++ importFromLocalStorage_effects (setItems entries ∅)
       ++ [Post (LoadDataResponse (messageId data) true); ScheduleReload])%list
  | None => []
  end.

(** *** Game start-up *)

(** A start function of the game as a closure of [startFunctions] finds
    it: [None] when the name is bound to no function, otherwise what a
    call does, which is to return a value, taken for its truth, or to
    raise. A call is taken to leave [localStorage] alone. *)
Definition startFunction : Type := option (outcome bool).

Record game : Type := {
  startGame : startFunction;
  GameMaker_Init : startFunction;
  window_GameMaker_Init : startFunction
}.

(** The variables [_gameStarted] and [_startAttempted], and the start
    functions called so far, in the order of the calls. *)
Record startup : Type := {
  _gameStarted : bool;
  _startAttempted : bool;
  calls : list string
}.

Definition startFunctions (G : game) : list (string * startFunction) :=
  [("startGame", startGame G);
   ("GameMaker_Init", GameMaker_Init G);
   ("window.GameMaker_Init", window_GameMaker_Init G)].

(** The loop [for (const fn of startFunctions)]: a closure whose name is
    bound to no function is false; a call that returns a true value sets
    [_gameStarted] and ends the loop; a call that returns a false value
    or raises lets the loop go on. *)
Fixpoint tryStart (fns : list (string * startFunction)) (s : startup) : startup :=
  match fns with
  | [] => s
  | (name, fn) :: fns =>
      match fn with
      | None => tryStart fns s
      | Some result =>
          let s := {| _gameStarted := _gameStarted s;
                      _startAttempted := _startAttempted s;
                      calls := (calls s ++ [name])%list |} in
          match result with
          | Returns true =>
              {| _gameStarted := true; _startAttempted := _startAttempted s;
                 calls := calls s |}
          | _ => tryStart fns s
          end
      end
  end.

(** [_startGameOnce]. *)
Definition _startGameOnce (G : game) (s : startup) (w : world) : startup * world :=
  if _gameStarted s || _startAttempted s then (s, w)
  else
    let s := {| _gameStarted := _gameStarted s; _startAttempted := true;
                calls := calls s |} in
    let s := tryStart (startFunctions G) s in
    let w :=
      match getItem "deltarune_loaded" (localStorage w) with
      | Some flag =>
          if is_empty flag
          then set_localStorage (setItem "deltarune_loaded" "true" (localStorage w)) w
          else w
      | None =>
          set_localStorage (setItem "deltarune_loaded" "true" (localStorage w)) w
      end in
    ({| _gameStarted := true; _startAttempted := _startAttempted s;
        calls := calls s |}, w).

(** A game of which [startGame] raises and [GameMaker_Init] starts it. *)
Definition game_second : game :=
  {| startGame := Some (Throws TypeError);
     GameMaker_Init := Some (Returns true);
     window_GameMaker_Init := Some (Returns true) |}.

(** The script before its first attempt to start the game. *)
Definition not_started : startup :=
  {| _gameStarted := false; _startAttempted := false; calls := [] |}.

(** *** Notifications in a row *)

(** No two strings next to each other in the list are the same. *)
Fixpoint no_repeat (l : list string) : Prop :=
  match l with
  | a :: l' =>
      match l' with
      | b :: _ => a <> b /\ no_repeat l'
      | [] => True
      end
  | [] => True
  end.

(** [lastSyncedData] is the string of the last payload posted. *)
Definition synced (w : world) : Prop :=
  lastSyncedData w = stringify_payload <$> last (notifications w).

(** What the loops over [localStorage] put into [allLocalStorageData]
    for a key: the entry, unless the test stops it or the key is
    [__proto__]. *)
Definition collected (keep : string -> bool) (ls : gmap string string)
    (key : string) : option (string * string) :=
  if keep key && negb (String.eqb key "__proto__")
  then (fun v => (key, v)) <$> getItem key ls
  else None.

(** ** More states and messages of the scenarios *)

(** Outside a frame, with a limit of one hundred characters and no
    index [timestamp]. *)
Definition standalone : environment :=
  {| isInIframe := false; MAX_LOCALSTORAGE_BYTES := 100;
     timestampKey := fun _ => None |}.

(** A [localStorage] with a string under no tag. *)
Definition flat_raw : gmap string string := <["dtx" := "hello"]> ∅.

(** A request to set one entry. *)
Definition set_request : message :=
  {| type := "setAllLocalStorageData"; messageId := Some "m3";
     allLocalStorageData := Some [("x", "1")] |}.

(** A view of the first two of three bytes. *)
Definition odd_view : value := VView "Uint16Array" [x01; x02; x03]%byte 0 2.

(** A value of which every part comes back changed: a number that is
    not finite, a view that fits no whole buffer, a blob with a media
    type of its own, a key [__proto__]. *)
Definition lossy_value : value :=
  VObj [("n", VNum NaN);
        ("view", odd_view);
        ("blob", VBlob "image/png" [x2a]%byte);
        ("__proto__", VNull);
        ("list", VArr [VNum PosInf])].

(** A store with two records that come back changed. *)
Definition store_lossy : gmap string value :=
  <["a" := VNum NaN]> (<["b" := VBlob "image/png" [x2a]%byte]> ∅).

(** A [localStorage] that holds an entry of which the store has no
    record. *)
Definition flat_stale : gmap string string := <["dtc" := "JS:3"]> ∅.

(** A store whose one value holds a BigInt. *)
Definition store_nested_bigint : gmap string value :=
  <["a" := VArr [VNum (Fin 1); VBigInt 10]]> ∅.
(** * Properties *)

(** ** Base64 *)

Section Base64Facts.

Local Open Scope N_scope.

Lemma below_64 (f : N -> bool) :
  forallb f (map N.of_nat (seq 0 64)) = true ->
  forall i, i < 64 -> f i = true.
Proof.
  intros Hall i Hi.
  rewrite forallb_forall in Hall. apply Hall.
  apply in_map_iff. exists (N.to_nat i). split.
  - apply N2Nat.id.
  - apply in_seq. lia.
Qed.

Lemma b64_index_char i : i < 64 -> b64_index (b64_char i) = Some i.
Proof.
  intros Hi.
  pose proof (below_64
    (fun j => match b64_index (b64_char j) with
              | Some k => k =? j
              | None => false
              end)) as H.
  specialize (H eq_refl i Hi). cbv beta in H.
  destruct (b64_index (b64_char i)) as [k|]; [|discriminate].
  apply N.eqb_eq in H. congruence.
Qed.

Lemma b64_char_not_whitespace i :
  i < 64 -> is_ascii_whitespace (b64_char i) = false.
Proof.
  intros Hi.
  pose proof (below_64 (fun j => negb (is_ascii_whitespace (b64_char j)))
                eq_refl i Hi) as H.
  cbv beta in H. by apply negb_true_iff in H.
Qed.

Lemma b64_char_not_pad i : i < 64 -> is_pad (b64_char i) = false.
Proof.
  intros Hi.
  pose proof (below_64 (fun j => negb (is_pad (b64_char j))) eq_refl i Hi) as H.
  cbv beta in H. by apply negb_true_iff in H.
Qed.

(** Induction on a string three characters at a time. *)
Lemma string_ind3 (P : string -> Prop) :
  P EmptyString ->
  (forall a, P (String a EmptyString)) ->
  (forall a b, P (String a (String b EmptyString))) ->
  (forall a b c rest, P rest -> P (String a (String b (String c rest)))) ->
  forall s, P s.
Proof.
  intros H0 H1 H2 H3.
  fix IH 1. intros [|a [|b [|c rest]]].
  - exact H0.
  - apply H1.
  - apply H2.
  - apply H3, IH.
Qed.

Lemma strip_whitespace_keep c s :
  is_ascii_whitespace c = false ->
  strip_whitespace (String c s) = String c (strip_whitespace s).
Proof. intros H. simpl. by rewrite H. Qed.

Lemma strip_trailing_pad_keep c s :
  is_pad c = false ->
  strip_trailing_pad (String c s) = String c (strip_trailing_pad s).
Proof. intros H. simpl. by rewrite H. Qed.

Ltac byte_bounds :=
  repeat match goal with
  | a : ascii |- _ =>
      lazymatch goal with
      | H : N_of_ascii a < 256 |- _ => fail
      | _ => pose proof (N_ascii_bounded a)
      end
  end.

Ltac sextet := byte_bounds; lia.

Lemma strip_whitespace_btoa s : strip_whitespace (btoa s) = btoa s.
Proof.
  induction s as [|a|a b|a b c rest IH] using string_ind3; [done|..];
    cbn [btoa];
    repeat (rewrite strip_whitespace_keep;
            [|apply b64_char_not_whitespace; sextet]);
    [reflexivity|reflexivity|by rewrite IH].
Qed.

Lemma length_btoa s : (String.length (btoa s) mod 4 = 0)%nat.
Proof.
  induction s as [|a|a b|a b c rest IH] using string_ind3; [done..|].
  cbn [btoa String.length].
  change (S (S (S (S ?n)))) with (1 * 4 + n)%nat.
  rewrite Nat.add_comm, Nat.Div0.mod_add. exact IH.
Qed.

Lemma ascii_of_byte_value a n : n = N_of_ascii a -> ascii_of_N n = a.
Proof. intros ->. apply ascii_N_embedding. Qed.

Lemma decode_groups_btoa s :
  decode_groups (strip_trailing_pad (btoa s)) = Some s.
Proof.
  induction s as [|a|a b|a b c rest IH] using string_ind3; [done|..];
    cbn [btoa];
    repeat (rewrite strip_trailing_pad_keep; [|apply b64_char_not_pad; sextet]).
  - cbn [strip_trailing_pad is_pad N_of_ascii]. simpl strip_trailing_pad.
    cbn [decode_groups].
    rewrite !b64_index_char by sextet. cbn [mbind option_bind].
    f_equal. f_equal. apply ascii_of_byte_value. sextet.
  - simpl strip_trailing_pad. cbn [decode_groups].
    rewrite !b64_index_char by sextet. cbn [mbind option_bind].
    f_equal. f_equal; [|f_equal]; apply ascii_of_byte_value; sextet.
  - cbn [decode_groups].
    rewrite !b64_index_char by sextet. cbn [mbind option_bind].
    rewrite IH. cbn [mbind option_bind].
    f_equal. f_equal; [|f_equal; [|f_equal]]; apply ascii_of_byte_value; sextet.
Qed.

(** [atob] undoes [btoa]. *)
Lemma atob_btoa s : atob (btoa s) = Returns s.
Proof.
  unfold atob, strip_padding.
  rewrite strip_whitespace_btoa, length_btoa. cbn [Nat.eqb].
  by rewrite decode_groups_btoa.
Qed.

Lemma base64ToArrayBuffer_arrayBufferToBase64 buffer :
  base64ToArrayBuffer (arrayBufferToBase64 buffer) = Returns buffer.
Proof.
  unfold base64ToArrayBuffer, arrayBufferToBase64.
  rewrite atob_btoa. cbn.
  by rewrite list_byte_of_string_of_list_byte.
Qed.

End Base64Facts.

(** ** Strings *)

Section StringFacts.

Local Open Scope string_scope.

Lemma append_assoc (a b c : string) : (a ++ b) ++ c = a ++ (b ++ c).
Proof. induction a as [|x a IH]; simpl; [done|by f_equal]. Qed.

Lemma append_empty_r (a : string) : a ++ EmptyString = a.
Proof. induction a as [|x a IH]; simpl; [done|by f_equal]. Qed.

Lemma length_append (a b : string) :
  String.length (a ++ b) = (String.length a + String.length b)%nat.
Proof. induction a as [|x a IH]; simpl; [done|by f_equal]. Qed.

Lemma is_empty_true s : is_empty s = true -> s = EmptyString.
Proof. by destruct s. Qed.

End StringFacts.

(** ** Numbers: what is read back from a printed number *)

Section NumberFacts.

Local Open Scope string_scope.

Lemma span_digits_uint d :
  span_digits (NilEmpty.string_of_uint d) = (NilEmpty.string_of_uint d, EmptyString).
Proof. induction d; simpl; [done|by rewrite IHd..]. Qed.

Lemma digits_value_uint d :
  digits_value (NilEmpty.string_of_uint d) = Z.of_uint d.
Proof. unfold digits_value. by rewrite NilEmpty.usu. Qed.

(** The decimal digits of a positive number do not start with a zero. *)
Lemma to_uint_head p d : Pos.to_uint p <> D0 d.
Proof.
  intros Hd.
  pose proof (Unsigned.to_of (Pos.to_uint p)) as Hn.
  rewrite Unsigned.of_to in Hn. simpl in Hn.
  pose proof (Unsigned.to_uint_nonzero p) as Hz.
  pose proof (nzhead_nonzero (Pos.to_uint p)) as Hh.
  unfold unorm in Hn. rewrite Hd in Hn at 1.
  destruct (nzhead (Pos.to_uint p)) eqn:E; try discriminate.
  - injection Hn as ->. by apply Hz.
  - by apply (Hh u).
Qed.

Lemma scan_number_digits (neg : bool) d :
  d <> Nil -> (forall d', d <> D0 d') ->
  scan_number ((if neg then "-" else EmptyString) ++ NilEmpty.string_of_uint d) =
    Some (Fin (if neg then - Z.of_uint d else Z.of_uint d), EmptyString).
Proof.
  intros Hnil Hhd.
  pose proof (digits_value_uint d) as Hv.
  pose proof (span_digits_uint d) as Hs.
  unfold scan_number.
  destruct d as [|d|d|d|d|d|d|d|d|d|d];
    [done|by destruct (Hhd d)|..];
    destruct neg;
    cbn [NilEmpty.string_of_uint String.append Ascii.eqb Bool.eqb] in *;
    rewrite Hs; cbn; by rewrite Hv.
Qed.

Lemma Z_of_uint_pos p : Z.of_uint (Pos.to_uint p) = Z.pos p.
Proof. unfold Z.of_uint. by rewrite Unsigned.of_to. Qed.

Lemma scan_number_print z :
  scan_number (NumberToString (Fin z)) = Some (Fin z, EmptyString).
Proof.
  destruct z as [|p|p]; [done|..]; cbn [NumberToString Z.to_int NilEmpty.string_of_int].
  - rewrite <- (Z_of_uint_pos p).
    apply (scan_number_digits false);
      [apply Unsigned.to_uint_nonnil|apply to_uint_head].
  - change (Z.neg p) with (- Z.pos p)%Z. rewrite <- (Z_of_uint_pos p).
    apply (scan_number_digits true);
      [apply Unsigned.to_uint_nonnil|apply to_uint_head].
Qed.

(** A number literal starts with a digit or a minus sign. *)
Lemma scan_number_head s n r :
  scan_number s = Some (n, r) ->
  exists c s', s = String c s' /\ (is_digit c = true \/ c = "-"%char).
Proof.
  unfold scan_number. destruct s as [|c s']; [done|].
  intros H. exists c, s'. split; [done|].
  destruct (Ascii.eqb c "-") eqn:Ec; [right; by apply Ascii.eqb_eq|left].
  simpl in H. destruct (is_digit c); [done|]. discriminate.
Qed.

Lemma Number_literal s n :
  scan_number s = Some (n, EmptyString) -> Number s = n.
Proof.
  intros H. unfold Number.
  destruct s as [|c s]; [done|]. cbn [is_empty].
  destruct (String.eqb_spec (String c s) "Infinity") as [E|_];
    [by rewrite E in H|].
  destruct (String.eqb_spec (String c s) "-Infinity") as [E|_];
    [by rewrite E in H|].
  by rewrite H.
Qed.

Lemma Number_print z : Number (NumberToString (Fin z)) = Fin z.
Proof. apply Number_literal, scan_number_print. Qed.

End NumberFacts.

(** ** JSON: what [parse] reads back from [stringify] *)

Section JSONFacts.

Import JSON.
Local Open Scope string_scope.

Lemma parse_string_body_quote s rest :
  parse_string_body (quote_body s ++ String dquote rest) = Some (s, rest).
Proof.
  induction s as [|c s IH]; [done|].
  cbn [quote_body]. rewrite append_assoc.
  destruct c as [[] [] [] [] [] [] [] []]; simpl; rewrite IH; reflexivity.
Qed.

Lemma quote_append s rest :
  quote s ++ rest = String dquote (quote_body s ++ String dquote rest).
Proof. unfold quote. simpl. by rewrite append_assoc. Qed.

Lemma parse_value_quote fuel s rest :
  0 < fuel -> parse_value fuel (quote s ++ rest) = Some (JStr s, rest).
Proof.
  intros Hfuel. destruct fuel as [|fuel]; [lia|].
  rewrite quote_append. simpl. by rewrite parse_string_body_quote.
Qed.

Lemma number_head_dispatch c :
  is_digit c = true \/ c = "-"%char ->
  is_json_ws c = false /\ Ascii.eqb c "[" = false /\ Ascii.eqb c "{" = false /\
  Ascii.eqb c dquote = false /\ Ascii.eqb c "t" = false /\
  Ascii.eqb c "f" = false /\ Ascii.eqb c "n" = false.
Proof.
  intros [H| ->]; [|done].
  destruct c as [[] [] [] [] [] [] [] []]; try discriminate H; done.
Qed.

Lemma parse_value_number fuel s n r :
  scan_number s = Some (n, r) ->
  parse_value (S fuel) s = Some (JNum n, r).
Proof.
  intros H. destruct (scan_number_head _ _ _ H) as (c & s' & -> & Hc).
  destruct (number_head_dispatch c Hc) as (Hw & H1 & H2 & H3 & H4 & H5 & H6).
  cbn [parse_value skip_ws]. rewrite Hw, H1, H2, H3, H4, H5, H6.
  by rewrite H.
Qed.

Lemma parse_whole s j :
  parse_value (2 * String.length s + 2) s = Some (j, EmptyString) ->
  parse s = Returns j.
Proof. intros H. unfold parse. by rewrite H. Qed.

Lemma parse_number s n :
  scan_number s = Some (n, EmptyString) -> parse s = Returns (JNum n).
Proof.
  intros H. apply parse_whole.
  replace (2 * String.length s + 2) with (S (2 * String.length s + 1)) by lia.
  by apply parse_value_number.
Qed.

Lemma parse_quote s : parse (quote s) = Returns (JStr s).
Proof.
  apply parse_whole.
  replace (2 * String.length (quote s) + 2)
    with (S (2 * String.length (quote s) + 1)) by lia.
  rewrite <- (append_empty_r (quote s)) at 2. apply parse_value_quote. lia.
Qed.

Lemma parse_bool (b : bool) : parse (if b then "true" else "false") = Returns (JBool b).
Proof. by destruct b. Qed.

(** *** Arrays and objects of strings *)

Lemma join_comma_cons x y l :
  join_comma (x :: y :: l) = x ++ "," ++ join_comma (y :: l).
Proof. reflexivity. Qed.

Lemma parse_elements_quotes l : forall fuel s rest,
  S (length l) < fuel ->
  parse_elements fuel (join_comma (map quote (s :: l)) ++ String "]" rest) =
    Some (map JStr (s :: l), rest).
Proof.
  induction l as [|s' l IH]; intros fuel s rest Hfuel;
    (destruct fuel as [|fuel]; [simpl in Hfuel; lia|]).
  - cbn [map join_comma parse_elements].
    rewrite parse_value_quote by (simpl in Hfuel; lia). done.
  - cbn [map]. rewrite join_comma_cons, !append_assoc.
    specialize (IH fuel s' rest). cbn [map] in IH.
    remember (join_comma (quote s' :: map quote l) ++ String "]" rest) as tail.
    cbn [parse_elements]. rewrite parse_value_quote by (simpl in Hfuel; lia).
    simpl. rewrite IH by (simpl in *; lia). done.
Qed.

Lemma join_quote_head s l rest :
  exists t, join_comma (map quote (s :: l)) ++ rest = String dquote t.
Proof.
  destruct l as [|s' l]; cbn [map].
  - cbn [join_comma]. rewrite quote_append. eauto.
  - rewrite join_comma_cons, append_assoc, quote_append. eauto.
Qed.

Lemma parse_value_array l fuel rest :
  S (S (length l)) < fuel ->
  parse_value fuel (stringify (JArr (map JStr l)) ++ rest) =
    Some (JArr (map JStr l), rest).
Proof.
  intros Hfuel. destruct fuel as [|fuel]; [lia|].
  cbn [stringify]. rewrite map_map. cbn [stringify].
  change (map (fun x => quote x) l) with (map quote l).
  destruct l as [|s l]; [done|].
  rewrite !append_assoc.
  pose proof (parse_elements_quotes l fuel s rest) as Hel.
  destruct (join_quote_head s l (String "]" rest)) as [t Ht].
  change ("]" ++ rest) with (String "]" rest).
  rewrite Ht in *. simpl. rewrite Hel by (simpl in *; lia). done.
Qed.

Local Abbreviation member :=
  (fun kv : string * string => quote (fst kv) ++ ":" ++ quote (snd kv)).
Local Abbreviation jmember := (fun kv : string * string => (fst kv, JStr (snd kv))).

Lemma parse_members_quotes l : forall fuel kv rest,
  S (length l) < fuel ->
  parse_members fuel (join_comma (map member (kv :: l)) ++ String "}" rest) =
    Some (map jmember (kv :: l), rest).
Proof.
  induction l as [|kv' l IH]; intros fuel [k v] rest Hfuel;
    (destruct fuel as [|fuel]; [simpl in Hfuel; lia|]).
  - cbn [map join_comma fst snd]. rewrite !append_assoc, quote_append.
    remember (quote v ++ String "}" rest) as tail.
    simpl. rewrite parse_string_body_quote. simpl. subst tail.
    rewrite parse_value_quote by (simpl in Hfuel; lia). done.
  - cbn [map]. rewrite join_comma_cons. cbn [fst snd].
    rewrite !append_assoc, quote_append.
    specialize (IH fuel kv' rest). cbn [map] in IH.
    remember (join_comma (member kv' :: map member l) ++ String "}" rest) as tail.
    remember (quote v ++ "," ++ tail) as tail'.
    simpl. rewrite parse_string_body_quote. simpl. subst tail'.
    rewrite parse_value_quote by (simpl in Hfuel; lia).
    simpl. rewrite IH by (simpl in *; lia). done.
Qed.

Lemma join_member_head kv l rest :
  exists t, join_comma (map member (kv :: l)) ++ rest = String dquote t.
Proof.
  destruct l as [|kv' l]; cbn [map].
  - cbn [join_comma]. rewrite append_assoc, quote_append. eauto.
  - rewrite join_comma_cons, !append_assoc, quote_append. eauto.
Qed.

(** Defining properties whose keys are new and distinct appends them. *)
Lemma obj_define_fresh {A} k (x : A) o :
  k ∉ map fst o -> obj_define k x o = (o ++ [(k, x)])%list.
Proof.
  induction o as [|[k' y] o IH]; intros Hk; [done|].
  cbn [obj_define]. cbn [map fst] in Hk.
  apply not_elem_of_cons in Hk as [Hne Hk].
  destruct (String.eqb_spec k' k) as [->|_]; [done|].
  by rewrite IH.
Qed.

Lemma define_all_fresh {A} (ms : props A) : forall acc,
  NoDup (map fst (acc ++ ms)%list) ->
  fold_left (fun o kv => obj_define (fst kv) (snd kv) o) ms acc = (acc ++ ms)%list.
Proof.
  induction ms as [|[k v] ms IH]; intros acc Hnd.
  - by rewrite app_nil_r.
  - cbn [fold_left fst snd].
    rewrite obj_define_fresh.
    + rewrite IH; rewrite <- app_assoc; done.
    + rewrite map_app in Hnd. apply NoDup_app in Hnd as (_ & Hdisj & _).
      intros Hin. apply (Hdisj k Hin). cbn. left.
Qed.

Lemma define_all_nodup ms : NoDup (map fst ms) -> define_all ms = ms.
Proof. intros H. unfold define_all. by rewrite define_all_fresh. Qed.

Lemma parse_value_object l fuel rest :
  NoDup (map fst l) ->
  S (S (length l)) < fuel ->
  parse_value fuel (stringify (JObj (map jmember l)) ++ rest) =
    Some (JObj (map jmember l), rest).
Proof.
  intros Hnd Hfuel. destruct fuel as [|fuel]; [lia|].
  cbn [stringify]. rewrite map_map. cbn [stringify fst snd].
  destruct l as [|kv l]; [done|].
  rewrite !append_assoc.
  pose proof (parse_members_quotes l fuel kv rest) as Hel.
  destruct (join_member_head kv l (String "}" rest)) as [t Ht].
  change ("}" ++ rest) with (String "}" rest).
  rewrite Ht in *. simpl. rewrite Hel by (simpl in *; lia).
  cbn [mbind option_bind]. rewrite define_all_nodup; [done|].
  by rewrite map_map.
Qed.

(** [parse] reads back an array of strings and an object of strings with
    distinct keys. *)
Lemma length_join_comma l : length l <= String.length (join_comma l) + 1.
Proof.
  induction l as [|x [|y l] IH]; [simpl; lia..|].
  rewrite join_comma_cons, !length_append. simpl in *. lia.
Qed.

Lemma parse_array l :
  parse (stringify (JArr (map JStr l))) = Returns (JArr (map JStr l)).
Proof.
  apply parse_whole.
  rewrite <- (append_empty_r (stringify _)) at 2.
  apply parse_value_array.
  cbn [stringify]. rewrite !length_append.
  pose proof (length_join_comma (map stringify (map JStr l))) as H.
  rewrite !length_map in H. simpl. lia.
Qed.

Lemma parse_object l :
  NoDup (map fst l) ->
  parse (stringify (JObj (map jmember l))) = Returns (JObj (map jmember l)).
Proof.
  intros Hnd. apply parse_whole.
  rewrite <- (append_empty_r (stringify _)) at 2.
  apply parse_value_object; [done|].
  cbn [stringify]. rewrite !length_append.
  match goal with |- context [join_comma ?m] =>
    pose proof (length_join_comma m) as H; remember (join_comma m) as J end.
  rewrite !length_map in H. simpl. lia.
Qed.

End JSONFacts.

(** ** The codec *)

Section CodecFacts.

Import JSON.
Local Open Scope string_scope.

(** Induction on a structured value, with the hypothesis for every
    member of a container. *)
Lemma value_ind' (P : value -> Prop) :
  P VNull -> P VUndefined ->
  (forall b, P (VBool b)) -> (forall n, P (VNum n)) -> (forall s, P (VStr s)) ->
  (forall z, P (VBigInt z)) -> (forall t, P (VDate t)) -> (forall bytes, P (VArrayBuffer bytes)) ->
  (forall kind buffer off len, P (VView kind buffer off len)) ->
  (forall type bytes, P (VBlob type bytes)) ->
  (forall l, Forall P l -> P (VArr l)) ->
  (forall l, Forall (fun kv => P (snd kv)) l -> P (VObj l)) ->
  forall v, P v.
Proof.
  intros Hnull Hundef Hbool Hnum Hstr Hbig Hdate Hbuf Hview Hblob Harr Hobj.
  fix IH 1. intros [| |b|n|s|z|t|bytes|kind buffer off len|type bytes|l|l].
  - exact Hnull.
  - exact Hundef.
  - apply Hbool.
  - apply Hnum.
  - apply Hstr.
  - apply Hbig.
  - apply Hdate.
  - apply Hbuf.
  - apply Hview.
  - apply Hblob.
  - apply Harr. induction l as [|x l IHl]; constructor; [apply IH|exact IHl].
  - apply Hobj. induction l as [|[k x] l IHl]; constructor; [apply IH|exact IHl].
Qed.

(** The payload under the tag [JS:]. *)
Lemma deserialize_JS fuel c X :
  c <> "_"%char ->
  deserialize (S fuel) ("JS:" ++ String c X) =
    (j ← JSON.parse (String c X); Returns (value_of_json j)).
Proof.
  intros Hc. apply Ascii.eqb_neq in Hc.
  cbn [deserialize]. simpl String.eqb. rewrite Hc. reflexivity.
Qed.

Lemma deserialize_number fuel n :
  finite_number n = true ->
  deserialize (S fuel) ("JS:" ++ stringify (JNum n)) = Returns (VNum n).
Proof.
  intros Hn.
  assert (scan_number (NumberToString n) = Some (n, EmptyString)) as Hscan.
  { destruct n as [z| | |  |lit]; try discriminate Hn.
    - apply scan_number_print.
    - simpl in *. destruct (scan_number lit) as [[[] []]|]; try discriminate Hn.
      by apply String.eqb_eq in Hn as ->. }
  cbn [stringify].
  replace (stringify_number n) with (NumberToString n)
    by (by destruct n).
  destruct (scan_number_head _ _ _ Hscan) as (c & s' & Hs & Hc).
  rewrite Hs. rewrite deserialize_JS.
  - rewrite <- Hs. by rewrite (parse_number _ _ Hscan).
  - destruct Hc as [Hc| ->]; [|done]. by intros ->.
Qed.

Lemma deserialize_string fuel s :
  deserialize (S fuel) ("JS:" ++ stringify (JStr s)) = Returns (VStr s).
Proof.
  cbn [stringify].
  pose proof (parse_quote s) as Hp. unfold quote in *.
  rewrite deserialize_JS by done. by rewrite Hp.
Qed.

Lemma deserialize_bool fuel b :
  deserialize (S fuel) ("JS:" ++ stringify (JBool b)) = Returns (VBool b).
Proof. by destruct b. Qed.

Lemma deserialize_date fuel t :
  time_value t = true ->
  deserialize (S fuel) ("DATE:" ++ NumberToString t) = Returns (VDate t).
Proof.
  intros Ht. cbn [deserialize]. simpl.
  destruct t as [z| | | |lit]; try discriminate Ht; [|reflexivity].
  rewrite Number_print. cbn [TimeClip]. simpl in Ht. by rewrite Ht.
Qed.

Lemma deserialize_buffer fuel bytes :
  deserialize (S fuel) ("AB:" ++ arrayBufferToBase64 bytes) =
    Returns (VArrayBuffer bytes).
Proof.
  cbn [deserialize]. simpl.
  by rewrite base64ToArrayBuffer_arrayBufferToBase64.
Qed.

Lemma deserialize_blob fuel bytes :
  deserialize (S fuel)
    ("BL:" ++ blobToBase64 "application/octet-stream" bytes) =
    Returns (VBlob "application/octet-stream" bytes).
Proof.
  cbn [deserialize]. simpl.
  fold (arrayBufferToBase64 bytes).
  by rewrite base64ToArrayBuffer_arrayBufferToBase64.
Qed.

#[local] Arguments new_view : simpl never.

Lemma deserialize_view fuel kind buffer size :
  globalThis kind = Some size ->
  length buffer mod size = 0 ->
  deserialize (S fuel) ("TA:" ++ kind ++ ":" ++ arrayBufferToBase64 buffer) =
    Returns (VView kind buffer 0 (length buffer)).
Proof.
  intros Hkind Hmod. unfold globalThis in Hkind.
  repeat match type of Hkind with
  | (if String.eqb kind ?name then _ else _) = _ =>
      destruct (String.eqb_spec kind name) as [->|_];
      [injection Hkind as <-;
       cbn [deserialize]; simpl;
       rewrite base64ToArrayBuffer_arrayBufferToBase64;
       cbn [mbind outcome_bind obind]; unfold new_view;
       rewrite ?Hmod; reflexivity|]
  end.
  discriminate.
Qed.

(** The payload under the tag [OBJ:]. *)
Lemma deserialize_OBJ fuel X :
  deserialize (S fuel) ("OBJ:" ++ X) =
    (inner ← JSON.parse X; rev (deserialize fuel) inner).
Proof. reflexivity. Qed.

Lemma map_outcome_serialize leaf (l : list value) (ss : list string) :
  Forall2 (codec_pair leaf) l ss ->
  map_outcome serializeForLocalStorage l = Returns ss /\
  map_outcome (rev leaf) (map JStr ss) = Returns l.
Proof.
  induction 1 as [|x s l ss [Hs Hx] _ [IH1 IH2]]; [done|].
  cbn [map map_outcome rev]. rewrite Hs, Hx. cbn [mbind outcome_bind obind].
  by rewrite IH1, IH2.
Qed.

Lemma obj_set_fresh {A} k (x : A) o :
  k <> "__proto__" -> k ∉ map fst o -> obj_set k x o = (o ++ [(k, x)])%list.
Proof.
  intros Hk Hfresh. unfold obj_set.
  destruct (String.eqb_spec k "__proto__"); [done|].
  by apply obj_define_fresh.
Qed.

Lemma not_proto_cons k (ks : list string) :
  existsb (String.eqb "__proto__") (k :: ks) = false ->
  k <> "__proto__" /\ existsb (String.eqb "__proto__") ks = false.
Proof.
  cbn [existsb]. intros [Hk Hks]%orb_false_iff. split; [|done].
  intros ->. by rewrite String.eqb_refl in Hk.
Qed.

(** A loop [for (k in v) o[k] = f(v[k])] over distinct keys, none of
    them [__proto__], appends the results. *)
Lemma for_in_fresh {A B} (f : A -> outcome B) (l : props A) (r : props B) :
  Forall2 (fun kx ky => fst kx = fst ky /\ f (snd kx) = Returns (snd ky)) l r ->
  forall acc,
    NoDup (map fst acc ++ map fst l)%list ->
    existsb (String.eqb "__proto__") (map fst l) = false ->
    for_in f l acc = Returns (acc ++ r)%list.
Proof.
  induction 1 as [|[k x] [k' y] l r [Hk Hy] _ IH]; intros acc Hnd Hproto.
  - by rewrite app_nil_r.
  - cbn [fst snd map] in *. subst k'.
    apply not_proto_cons in Hproto as [Hk Hproto].
    cbn [for_in]. rewrite Hy. cbn [mbind outcome_bind obind].
    assert (k ∉ map fst acc) as Hfresh.
    { apply NoDup_app in Hnd as (_ & Hdisj & _). intros Hin.
      apply (Hdisj k Hin). left. }
    rewrite obj_set_fresh by done.
    fold (@for_in A B f). rewrite IH; [by rewrite <- app_assoc| |done].
    by rewrite map_app, <- app_assoc.
Qed.

(** *** Lengths: a container is longer than the strings it holds *)

Lemma length_quote_char c : 1 <= String.length (quote_char c).
Proof.
  unfold quote_char.
  repeat match goal with
  | |- context [if ?b then _ else _] => destruct b
  end; simpl; lia.
Qed.

Lemma length_quote s : String.length s + 2 <= String.length (quote s).
Proof.
  unfold quote. cbn [String.length]. rewrite length_append. cbn [String.length].
  assert (String.length s <= String.length (quote_body s)); [|lia].
  induction s as [|c s IH]; [done|].
  cbn [quote_body String.length]. rewrite length_append.
  pose proof (length_quote_char c). lia.
Qed.

Lemma length_join_elem x l :
  x ∈ l -> String.length x <= String.length (join_comma l).
Proof.
  induction l as [|y [|z l] IH]; intros Hin.
  - by apply elem_of_nil in Hin.
  - apply list_elem_of_singleton in Hin as ->. done.
  - rewrite join_comma_cons, !length_append.
    apply elem_of_cons in Hin as [->|Hin]; [lia|].
    specialize (IH Hin). lia.
Qed.

Lemma length_array_elem (l : list string) x :
  x ∈ l ->
  String.length x + 8 <= String.length ("OBJ:" ++ stringify (JArr (map JStr l))).
Proof.
  intros Hin. cbn [stringify]. rewrite map_map. cbn [stringify].
  rewrite !length_append. cbn [String.length].
  pose proof (length_quote x).
  pose proof (length_join_elem (quote x) (map quote l)) as Hj.
  change (map (fun x => quote x) l) with (map quote l).
  specialize (Hj ltac:(by apply list_elem_of_fmap_2)). lia.
Qed.

Lemma length_object_elem (l : props string) k x :
  (k, x) ∈ l ->
  String.length x + 8 <=
    String.length
      ("OBJ:" ++ stringify (JObj (map (fun kv => (fst kv, JStr (snd kv))) l))).
Proof.
  intros Hin. cbn [stringify]. rewrite map_map. cbn [stringify fst snd].
  rewrite !length_append. cbn [String.length].
  pose proof (length_quote x).
  match goal with |- context [join_comma (map ?f l)] =>
    pose proof (length_join_elem (f (k, x)) (map f l)) as Hj;
    remember (join_comma (map f l)) as J
  end.
  specialize (Hj ltac:(by apply (list_elem_of_fmap_2 _ l (k, x)))).
  cbn [fst snd] in Hj. rewrite !length_append in Hj. lia.
Qed.

Lemma map_fst_snd_map {A B} (f : A -> B) (l : props A) :
  map fst (map (fun kv => (fst kv, f (snd kv))) l) = map fst l.
Proof. rewrite map_map. by apply map_ext. Qed.

Lemma round_trips_leaf v s :
  serializeForLocalStorage v = Returns s ->
  (forall fuel, deserialize (S fuel) s = Returns v) ->
  round_trips v.
Proof.
  intros Hs Hd. exists s. split; [done|].
  intros [|fuel] Hfuel; [lia|apply Hd].
Qed.

(** The members of a container, each with its string. *)
Lemma round_trips_members (l : list value) :
  Forall round_trips l ->
  exists ss, Forall2 (fun x s => serializeForLocalStorage x = Returns s /\
                 forall fuel, String.length s < fuel -> deserialize fuel s = Returns x) l ss.
Proof.
  induction 1 as [|x l (s & Hs & Hd) _ (ss & IH)]; [by exists []|].
  exists (s :: ss). by constructor.
Qed.

Lemma serialize_deserialize v : preserved v = true -> round_trips v.
Proof.
  induction v as [| |b|n|s|z|t|bytes|kind buffer off len|type bytes|l IH|l IH]
    using value_ind'; intros Hv.
  - by eapply round_trips_leaf.
  - by eapply round_trips_leaf.
  - eapply round_trips_leaf; [done|]. intros. apply deserialize_bool.
  - eapply round_trips_leaf; [done|]. intros. by apply deserialize_number.
  - eapply round_trips_leaf; [done|]. intros. apply deserialize_string.
  - done.
  - eapply round_trips_leaf; [done|]. intros. by apply deserialize_date.
  - eapply round_trips_leaf; [done|]. intros. apply deserialize_buffer.
  - cbn [preserved] in Hv.
    destruct (globalThis kind) as [size|] eqn:Hkind; [|done].
    apply andb_true_iff in Hv as [[Hoff Hlen]%andb_true_iff Hmod].
    apply Nat.eqb_eq in Hoff as ->. apply Nat.eqb_eq in Hlen as ->.
    apply Nat.eqb_eq in Hmod.
    eapply round_trips_leaf; [done|]. intros. by eapply deserialize_view.
  - cbn [preserved] in Hv. apply String.eqb_eq in Hv as ->.
    eapply round_trips_leaf; [done|]. intros. apply deserialize_blob.
  - cbn [preserved] in Hv. rewrite forallb_forall in Hv.
    assert (Forall round_trips l) as Hall.
    { rewrite Forall_forall in IH. apply Forall_forall. intros x Hx.
      by apply IH, Hv, list_elem_of_In. }
    destruct (round_trips_members l Hall) as (ss & Hss).
    exists ("OBJ:" ++ stringify (JArr (map JStr ss))). split.
    + cbn [serializeForLocalStorage].
      assert (map_outcome serializeForLocalStorage l = Returns ss) as ->; [|done].
      clear -Hss. induction Hss as [|x s l ss [Hs _] _ IHl]; [done|].
      cbn [map_outcome]. by rewrite Hs, IHl.
    + intros [|fuel] Hfuel; [lia|].
      rewrite deserialize_OBJ, parse_array. cbn [mbind outcome_bind obind rev].
      assert (Forall2 (codec_pair (deserialize fuel)) l ss) as Hpairs.
      { assert (forall s, s ∈ ss -> String.length s < fuel) as Hsmall.
        { intros s Hin. pose proof (length_array_elem ss s Hin). lia. }
        clear -Hss Hsmall.
        induction Hss as [|x s l ss [Hs Hd] _ IHl]; constructor.
        - split; [done|]. apply Hd, Hsmall. left.
        - apply IHl. intros s' Hin. apply Hsmall. by right. }
      apply map_outcome_serialize in Hpairs as [_ ->]. done.
  - cbn [preserved] in Hv.
    apply andb_true_iff in Hv as [[Hnd Hproto]%andb_true_iff Hv].
    apply bool_decide_eq_true in Hnd. apply negb_true_iff in Hproto.
    rewrite forallb_forall in Hv.
    assert (Forall round_trips (map snd l)) as Hall.
    { rewrite Forall_forall in IH. apply Forall_forall.
      intros x ([k x'] & -> & Hx)%list_elem_of_fmap.
      by apply (IH (k, x')), (Hv (k, x')), list_elem_of_In. }
    destruct (round_trips_members _ Hall) as (ss & Hss).
    remember (zip (map fst l) ss) as out eqn:Hout.
    assert (length ss = length l) as Hlen
      by (apply Forall2_length in Hss; by rewrite length_map in Hss).
    assert (map fst out = map fst l) as Hkeys
      by (subst out; apply fst_zip; rewrite length_map; lia).
    exists ("OBJ:" ++ stringify (JObj (map (fun kv => (fst kv, JStr (snd kv))) out))).
    split.
    + cbn [serializeForLocalStorage].
      rewrite (for_in_fresh serializeForLocalStorage l out); [done| |done|done].
      subst out. clear -Hss. revert ss Hss.
      induction l as [|[k x] l IHl]; intros ss Hss.
      * cbn. constructor.
      * cbn [map] in Hss. apply Forall2_cons_inv_l in Hss as (s & ss' & [Hs _] & Hss & ->).
        cbn [map zip zip_with fst snd]. constructor; [done|by apply IHl].
    + intros [|fuel] Hfuel; [lia|].
      rewrite deserialize_OBJ. rewrite parse_object by (by rewrite Hkeys).
      cbn [mbind outcome_bind obind rev].
      rewrite (for_in_fresh (rev (deserialize fuel)) _ l);
        [done| |by rewrite map_fst_snd_map, Hkeys|by rewrite map_fst_snd_map, Hkeys].
      assert (forall k s, (k, s) ∈ out -> String.length s < fuel) as Hsmall.
      { intros k s Hin. pose proof (length_object_elem out k s Hin). lia. }
      subst out. clear -Hss Hsmall. revert ss Hss Hsmall.
      induction l as [|[k x] l IHl]; intros ss Hss Hsmall.
      * cbn. constructor.
      * cbn [map] in Hss. apply Forall2_cons_inv_l in Hss as (s & ss' & [_ Hd] & Hss & ->).
        cbn [map zip zip_with fst snd] in *. constructor.
        -- cbn [fst snd rev]. split; [done|]. apply Hd, (Hsmall k). left.
        -- apply IHl; [done|]. intros k' s' Hin. apply (Hsmall k'). by right.
Qed.

End CodecFacts.

(** ** The parser: sizes and fuel *)

Section ParserSize.
Import JSON.
Local Open Scope string_scope.

Lemma length_skip_ws s : String.length (skip_ws s) <= String.length s.
Proof.
  induction s as [|c s IH]; [done|]. cbn [skip_ws].
  destruct (is_json_ws c); cbn [String.length]; lia.
Qed.

Lemma length_strip_prefix p : forall s r,
  strip_prefix p s = Some r -> String.length r <= String.length s.
Proof.
  induction p as [|a p IH]; intros s r H; cbn [strip_prefix] in H.
  - injection H as ->. done.
  - destruct s as [|b s]; [done|]. destruct (Ascii.eqb a b); [|done].
    apply IH in H. cbn [String.length]. lia.
Qed.

Lemma length_span_digits s ds r :
  span_digits s = (ds, r) -> String.length ds + String.length r = String.length s.
Proof.
  revert ds r. induction s as [|c s IH]; intros ds r H; cbn [span_digits] in H.
  - by injection H as <- <-.
  - destruct (is_digit c).
    + destruct (span_digits s) as [ds' r'] eqn:E. injection H as <- <-.
      specialize (IH _ _ eq_refl). cbn [String.length]. lia.
    + by injection H as <- <-.
Qed.

Lemma length_scan_frac s fp r :
  scan_frac s = Some (fp, r) -> String.length r <= String.length s.
Proof.
  unfold scan_frac. destruct s as [|c s]; [by intros [= <- <-]|].
  destruct (Ascii.eqb c "."); [|by intros [= <- <-]].
  destruct (span_digits s) as [ds r'] eqn:E. apply length_span_digits in E.
  destruct (is_empty ds); [done|]. intros [= <- <-]. cbn [String.length]. lia.
Qed.

Lemma length_scan_exp s ep r :
  scan_exp s = Some (ep, r) -> String.length r <= String.length s.
Proof.
  unfold scan_exp. destruct s as [|c s]; [by intros [= <- <-]|].
  destruct (Ascii.eqb c "e" || Ascii.eqb c "E"); [|by intros [= <- <-]].
  assert (exists sg r1,
            match s with
            | String d r1 =>
                if Ascii.eqb d "+" || Ascii.eqb d "-"
                then (String d EmptyString, r1) else (EmptyString, s)
            | EmptyString => (EmptyString, s)
            end = (sg, r1) /\ String.length r1 <= String.length s)
    as (sg & r1 & -> & Hr1).
  { destruct s as [|d s']; [by eexists _, _|].
    destruct (Ascii.eqb d "+" || Ascii.eqb d "-"); eexists _, _;
      (split; [reflexivity|]); cbn [String.length]; lia. }
  destruct (span_digits r1) as [ds r2] eqn:E. apply length_span_digits in E.
  destruct (is_empty ds); [done|]. intros [= <- <-]. cbn [String.length]. lia.
Qed.

(** A number literal takes at least one character. *)
Lemma length_scan_number s n r :
  scan_number s = Some (n, r) -> String.length r < String.length s.
Proof.
  unfold scan_number.
  destruct (match s with String c r => _ | EmptyString => _ end) as [neg s1] eqn:Eneg.
  assert (String.length s1 <= String.length s) as Hs1.
  { destruct s as [|c s']; [by injection Eneg as <- <-|].
    destruct (Ascii.eqb c "-"); injection Eneg as <- <-; cbn [String.length]; lia. }
  destruct (span_digits s1) as [ip s2] eqn:E. apply length_span_digits in E.
  destruct ip as [|d ds]; [done|].
  destruct (Ascii.eqb d "0" && negb (is_empty ds)); [done|].
  destruct (scan_frac s2) as [[fp s3]|] eqn:Ef; [|done].
  apply length_scan_frac in Ef. cbn [mbind option_bind].
  destruct (scan_exp s3) as [[ep s4]|] eqn:Ee; [|done].
  apply length_scan_exp in Ee. cbn [mbind option_bind String.length] in *.
  destruct (is_empty fp && is_empty ep); intros [= <- <-]; lia.
Qed.

(** A string literal is longer than the string it denotes. *)
Lemma length_parse_string_body : forall s t r,
  parse_string_body s = Some (t, r) ->
  String.length t + String.length r + 1 <= String.length s.
Proof.
  fix IH 1. intros [|c rest] t r H; cbn [parse_string_body] in H; [done|].
  destruct (Ascii.eqb c dquote).
  { injection H as <- <-. cbn [String.length]. lia. }
  destruct (Ascii.eqb c backslash).
  - destruct rest as [|e rest1]; [done|].
    destruct (Ascii.eqb e "u").
    + destruct rest1 as [|h1 [|h2 [|h3 [|h4 rest2]]]]; try done.
      destruct (unicode_escape h1 h2 h3 h4) as [u|]; [|done].
      cbn [mbind option_bind] in H.
      destruct (parse_string_body rest2) as [[t' r']|] eqn:E; [|done].
      apply IH in E. injection H as <- <-. cbn [String.length]. lia.
    + destruct (simple_escape e) as [u|]; [|done].
      cbn [mbind option_bind] in H.
      destruct (parse_string_body rest1) as [[t' r']|] eqn:E; [|done].
      apply IH in E. injection H as <- <-. cbn [String.length]. lia.
  - destruct (N.ltb (N_of_ascii c) 32); [done|].
    cbn [mbind option_bind] in H.
    destruct (parse_string_body rest) as [[t' r']|] eqn:E; [|done].
    apply IH in E. injection H as <- <-. cbn [String.length]. lia.
Qed.

(** [t] is a string of a value parsed from [s] up to [r]. *)
Local Abbreviation fits s r :=
  (fun t : string => String.length t + String.length r + 2 <= String.length s).

Lemma fits_weaken (s s' r r' : string) (l : list string) :
  String.length s <= String.length s' -> String.length r' <= String.length r ->
  Forall (fits s r) l -> Forall (fits s' r') l.
Proof.
  intros Hs Hr. rewrite !Forall_forall. intros H t Ht.
  specialize (H t Ht). cbn beta in *. lia.
Qed.

Lemma obj_define_values {A} (Q : A -> Prop) k (x : A) o :
  Q x -> Forall (fun kv => Q (snd kv)) o ->
  Forall (fun kv => Q (snd kv)) (obj_define k x o).
Proof.
  intros Hx. induction 1 as [|[k' y] o Hy Ho IH]; cbn [obj_define].
  - by constructor.
  - destruct (String.eqb k' k); constructor; done.
Qed.

Lemma define_all_values (Q : json -> Prop) ms :
  Forall (fun kv => Q (snd kv)) ms ->
  Forall (fun kv => Q (snd kv)) (define_all ms).
Proof.
  unfold define_all. intros Hms.
  assert (Forall (fun kv : string * json => Q (snd kv)) []) as Hacc by constructor.
  revert Hacc. generalize (@nil (string * json)).
  induction Hms as [|[k x] ms Hx Hms IH]; intros acc Hacc; cbn [fold_left]; [done|].
  apply IH. by apply obj_define_values.
Qed.

Lemma jstrings_members (P : string -> Prop) (ms : props json) :
  Forall P (concat (map (fun kv => jstrings (snd kv)) ms)) <->
  Forall (fun kv => Forall P (jstrings (snd kv))) ms.
Proof. by rewrite Forall_concat, Forall_fmap. Qed.

Lemma parse_size fuel :
  (forall s j r, parse_value fuel s = Some (j, r) ->
     String.length r < String.length s /\ Forall (fits s r) (jstrings j)) /\
  (forall s l r, parse_elements fuel s = Some (l, r) ->
     String.length r < String.length s /\
     Forall (fits s r) (concat (map jstrings l))) /\
  (forall s ms r, parse_members fuel s = Some (ms, r) ->
     String.length r < String.length s /\
     Forall (fits s r) (concat (map (fun kv => jstrings (snd kv)) ms))).
Proof.
  induction fuel as [|fuel (IHv & IHe & IHm)]; [done|].
  split; [|split].
  - (* parse_value *)
    intros s j r H. cbn [parse_value] in H.
    pose proof (length_skip_ws s) as Hws.
    destruct (skip_ws s) as [|c rest]; [done|]. cbn [String.length] in Hws.
    destruct (Ascii.eqb c "[").
    { pose proof (length_skip_ws rest) as Hws'.
      destruct (skip_ws rest) as [|d rest1]; [done|]. cbn [String.length] in Hws'.
      destruct (Ascii.eqb d "]").
      { injection H as <- <-. split; [lia|constructor]. }
      destruct (parse_elements fuel (String d rest1)) as [[l r']|] eqn:E; [|done].
      injection H as <- <-. apply IHe in E as [Hr Hl]. cbn [String.length] in Hr.
      split; [lia|]. cbn [jstrings].
      eapply fits_weaken; [| |exact Hl]; cbn [String.length]; lia. }
    destruct (Ascii.eqb c "{").
    { pose proof (length_skip_ws rest) as Hws'.
      destruct (skip_ws rest) as [|d rest1]; [done|]. cbn [String.length] in Hws'.
      destruct (Ascii.eqb d "}").
      { injection H as <- <-. split; [lia|constructor]. }
      destruct (parse_members fuel (String d rest1)) as [[ms r']|] eqn:E; [|done].
      injection H as <- <-. apply IHm in E as [Hr Hl]. cbn [String.length] in Hr.
      split; [lia|]. cbn [jstrings].
      apply jstrings_members.
      apply (define_all_values (fun j => Forall (fits s r') (jstrings j))).
      apply jstrings_members.
      eapply fits_weaken; [| |exact Hl]; cbn [String.length]; lia. }
    destruct (Ascii.eqb c dquote).
    { destruct (parse_string_body rest) as [[t r']|] eqn:E; [|done].
      injection H as <- <-. apply length_parse_string_body in E.
      split; [lia|]. cbn [jstrings]. constructor; [lia|constructor]. }
    destruct (Ascii.eqb c "t").
    { destruct (strip_prefix "rue" rest) as [r'|] eqn:E; [|done].
      injection H as <- <-. apply length_strip_prefix in E.
      split; [lia|constructor]. }
    destruct (Ascii.eqb c "f").
    { destruct (strip_prefix "alse" rest) as [r'|] eqn:E; [|done].
      injection H as <- <-. apply length_strip_prefix in E.
      split; [lia|constructor]. }
    destruct (Ascii.eqb c "n").
    { destruct (strip_prefix "ull" rest) as [r'|] eqn:E; [|done].
      injection H as <- <-. apply length_strip_prefix in E.
      split; [lia|constructor]. }
    destruct (scan_number (String c rest)) as [[n r']|] eqn:E; [|done].
    injection H as <- <-. apply length_scan_number in E.
    cbn [String.length] in E. split; [lia|constructor].
  - (* parse_elements *)
    intros s l r H. cbn [parse_elements] in H.
    destruct (parse_value fuel s) as [[v r0]|] eqn:Ev; [|done].
    apply IHv in Ev as [Hr0 Hv]. cbn [mbind option_bind] in H.
    pose proof (length_skip_ws r0) as Hws.
    destruct (skip_ws r0) as [|c r1]; [done|]. cbn [String.length] in Hws.
    destruct (Ascii.eqb c ",").
    { destruct (parse_elements fuel r1) as [[vs r2]|] eqn:E; [|done].
      injection H as <- <-. apply IHe in E as [Hr2 Hvs].
      split; [lia|]. cbn [map concat]. apply Forall_app. split.
      - eapply fits_weaken; [| |exact Hv]; lia.
      - eapply fits_weaken; [| |exact Hvs]; lia. }
    destruct (Ascii.eqb c "]"); [|done].
    injection H as <- <-. split; [lia|]. cbn [map concat]. rewrite app_nil_r.
    eapply fits_weaken; [| |exact Hv]; lia.
  - (* parse_members *)
    intros s ms r H. cbn [parse_members] in H.
    pose proof (length_skip_ws s) as Hws.
    destruct (skip_ws s) as [|c r0]; [done|]. cbn [String.length] in Hws.
    destruct (Ascii.eqb c dquote); [|done].
    destruct (parse_string_body r0) as [[k r1]|] eqn:Ek; [|done].
    apply length_parse_string_body in Ek. cbn [mbind option_bind] in H.
    pose proof (length_skip_ws r1) as Hws1.
    destruct (skip_ws r1) as [|c1 r2]; [done|]. cbn [String.length] in Hws1.
    destruct (Ascii.eqb c1 ":"); [|done].
    destruct (parse_value fuel r2) as [[v r3]|] eqn:Ev; [|done].
    apply IHv in Ev as [Hr3 Hv]. cbn [mbind option_bind] in H.
    pose proof (length_skip_ws r3) as Hws3.
    destruct (skip_ws r3) as [|c2 r4]; [done|]. cbn [String.length] in Hws3.
    destruct (Ascii.eqb c2 ",").
    { destruct (parse_members fuel r4) as [[ms' r5]|] eqn:E; [|done].
      injection H as <- <-. apply IHm in E as [Hr5 Hms].
      split; [lia|]. cbn [map concat snd]. apply Forall_app. split.
      - eapply fits_weaken; [| |exact Hv]; lia.
      - eapply fits_weaken; [| |exact Hms]; lia. }
    destruct (Ascii.eqb c2 "}"); [|done].
    injection H as <- <-. split; [lia|]. cbn [map concat snd]. rewrite app_nil_r.
    eapply fits_weaken; [| |exact Hv]; lia.
Qed.

(** Every string of a parsed value is shorter than the text. *)
Lemma parse_strings s j t :
  parse s = Returns j -> t ∈ jstrings j -> String.length t < String.length s.
Proof.
  unfold parse. intros H Ht.
  destruct (parse_value _ s) as [[j' r]|] eqn:E; [|done].
  destruct (is_empty (skip_ws r)); [|done]. injection H as ->.
  apply parse_size in E as [_ Hall]. rewrite Forall_forall in Hall.
  specialize (Hall t Ht). lia.
Qed.

End ParserSize.

(** ** What the codec raises *)

Section Errors.
Import JSON.
Local Open Scope string_scope.

Lemma json_ind' (P : json -> Prop) :
  P JNull -> (forall b, P (JBool b)) -> (forall n, P (JNum n)) ->
  (forall s, P (JStr s)) ->
  (forall l, Forall P l -> P (JArr l)) ->
  (forall l, Forall (fun kv => P (snd kv)) l -> P (JObj l)) ->
  forall j, P j.
Proof.
  intros Hnull Hbool Hnum Hstr Harr Hobj.
  fix IH 1. intros [|b|n|s|l|l].
  - exact Hnull.
  - apply Hbool.
  - apply Hnum.
  - apply Hstr.
  - apply Harr. induction l as [|x l IHl]; constructor; [apply IH|exact IHl].
  - apply Hobj. induction l as [|[k x] l IHl]; constructor; [apply IH|exact IHl].
Qed.

Lemma map_outcome_throws {A B} (f : A -> outcome B) l e :
  map_outcome f l = Throws e -> exists x, x ∈ l /\ f x = Throws e.
Proof.
  induction l as [|x l IH]; cbn [map_outcome]; [done|].
  destruct (f x) as [y|e'] eqn:Hx; cbn [mbind outcome_bind obind].
  - destruct (map_outcome f l) as [ys|e'] eqn:Hl; [done|].
    intros [= ->]. destruct (IH eq_refl) as (x' & Hin & Hx').
    exists x'. split; [by right|done].
  - intros [= ->]. exists x. split; [left|done].
Qed.

Lemma for_in_throws {A B} (f : A -> outcome B) l : forall acc e,
  for_in f l acc = Throws e -> exists kx, kx ∈ l /\ f (snd kx) = Throws e.
Proof.
  induction l as [|[k x] l IH]; intros acc e; cbn [for_in]; [done|].
  destruct (f x) as [y|e'] eqn:Hx; cbn [mbind outcome_bind obind].
  - intros (kx & Hin & Hkx)%IH. exists kx. split; [by right|done].
  - intros [= ->]. exists (k, x). split; [left|done].
Qed.

(** [rev] raises only what a call on one of the strings raises. *)
Lemma rev_throws leaf j e :
  rev leaf j = Throws e -> exists t, t ∈ jstrings j /\ leaf t = Throws e.
Proof.
  induction j as [|b|n|s|l IH|l IH] using json_ind'; cbn [rev jstrings];
    try done.
  - intros H. exists s. split; [left|done].
  - destruct (map_outcome (rev leaf) l) as [l'|e'] eqn:Hl; [done|].
    cbn [mbind outcome_bind obind]. intros [= ->].
    apply map_outcome_throws in Hl as (x & Hin & Hx).
    rewrite Forall_forall in IH. destruct (IH x Hin Hx) as (t & Ht & Hleaf).
    exists t. split; [|done]. apply list_elem_of_In, in_concat.
    exists (jstrings x). split; [apply in_map|]; by apply list_elem_of_In.
  - destruct (for_in (rev leaf) l []) as [o|e'] eqn:Hl; [done|].
    cbn [mbind outcome_bind obind]. intros [= ->].
    apply for_in_throws in Hl as (kx & Hin & Hx).
    rewrite Forall_forall in IH. destruct (IH kx Hin Hx) as (t & Ht & Hleaf).
    exists t. split; [|done]. apply list_elem_of_In, in_concat.
    exists (jstrings (snd kx)). split; [|by apply list_elem_of_In].
    apply (in_map (fun kv => jstrings (snd kv))). by apply list_elem_of_In.
Qed.

Lemma length_slice n : forall s, String.length (slice n s) <= String.length s.
Proof.
  induction n as [|n IH]; intros [|c s]; cbn [slice String.length]; try lia.
  specialize (IH s). lia.
Qed.

Lemma base64ToArrayBuffer_throws b e :
  base64ToArrayBuffer b = Throws e -> e = InvalidCharacterError.
Proof.
  unfold base64ToArrayBuffer, atob.
  destruct (decode_groups _); cbn; [done|by intros [= <-]].
Qed.

Lemma parse_throws s e : parse s = Throws e -> e = SyntaxError.
Proof.
  unfold parse. destruct (parse_value _ s) as [[j r]|]; [|by intros [= <-]].
  destruct (is_empty (skip_ws r)); [done|by intros [= <-]].
Qed.

(** With fuel for the length of the string, [deserialize] raises only
    what [JSON.parse] and [atob] raise. *)
Lemma deserialize_throws fuel : forall str e,
  String.length str < fuel ->
  deserialize fuel str = Throws e ->
  e = SyntaxError \/ e = InvalidCharacterError.
Proof.
  induction fuel as [|fuel IH]; intros str e Hfuel; [lia|].
  cbn [deserialize].
  repeat match goal with
  | |- (if ?b then _ else _) = _ -> _ => destruct b eqn:?
  end; try done.
  - destruct (base64ToArrayBuffer _) eqn:Hb; [done|].
    intros [= <-]. right. by eapply base64ToArrayBuffer_throws.
  - destruct (indexOf ":" (slice 3 str)) as [idx|].
    + destruct (base64ToArrayBuffer _) eqn:Hb.
      * cbn [mbind outcome_bind obind].
        destruct (globalThis _); [destruct (new_view _ _ _)|]; done.
      * intros [= <-]. right. by eapply base64ToArrayBuffer_throws.
    + destruct (base64ToArrayBuffer _) eqn:Hb; [done|].
      intros [= <-]. right. by eapply base64ToArrayBuffer_throws.
  - destruct (base64ToArrayBuffer _) eqn:Hb; [done|].
    intros [= <-]. right. by eapply base64ToArrayBuffer_throws.
  - destruct (parse _) eqn:Hp; [done|].
    intros [= <-]. left. by eapply parse_throws.
  - destruct (parse (slice 4 str)) as [inner|e'] eqn:Hp.
    + cbn [mbind outcome_bind obind].
      intros (t & Ht & Hleaf)%rev_throws.
      apply (IH t e); [|done].
      pose proof (parse_strings _ _ _ Hp Ht).
      pose proof (length_slice 4 str). lia.
    + intros [= <-]. left. by eapply parse_throws.
Qed.

End Errors.

(** ** Fuel *)

Section ParserFuel.
Import JSON.
Local Open Scope string_scope.

(** More fuel than the bound changes nothing. *)
Lemma parse_fuel n : forall m,
  (forall s, 2 * String.length s < n -> 2 * String.length s < m ->
     parse_value n s = parse_value m s) /\
  (forall s, 2 * String.length s + 1 < n -> 2 * String.length s + 1 < m ->
     parse_elements n s = parse_elements m s) /\
  (forall s, 2 * String.length s + 1 < n -> 2 * String.length s + 1 < m ->
     parse_members n s = parse_members m s).
Proof.
  induction n as [|n IH]; intros m; [repeat split; intros; lia|].
  destruct m as [|m]; [repeat split; intros; lia|].
  destruct (IH m) as (IHv & IHe & IHm). clear IH.
  split; [|split]; intros s Hn Hm.
  - cbn [parse_value].
    pose proof (length_skip_ws s) as Hws.
    destruct (skip_ws s) as [|c rest]; [done|]. cbn [String.length] in Hws.
    pose proof (length_skip_ws rest) as Hws'.
    destruct (Ascii.eqb c "[").
    { destruct (skip_ws rest) as [|d rest1]; [done|].
      cbn [String.length] in Hws'.
      destruct (Ascii.eqb d "]"); [done|].
      rewrite (IHe (String d rest1)); [done|cbn [String.length]; lia..]. }
    destruct (Ascii.eqb c "{"); [|done].
    destruct (skip_ws rest) as [|d rest1]; [done|].
    cbn [String.length] in Hws'.
    destruct (Ascii.eqb d "}"); [done|].
    rewrite (IHm (String d rest1)); [done|cbn [String.length]; lia..].
  - cbn [parse_elements]. rewrite (IHv s) by lia.
    destruct (parse_value m s) as [[v r0]|] eqn:Ev; [|done].
    apply parse_size in Ev as [Hr0 _]. cbn [mbind option_bind].
    pose proof (length_skip_ws r0) as Hws.
    destruct (skip_ws r0) as [|c r1]; [done|]. cbn [String.length] in Hws.
    destruct (Ascii.eqb c ","); [|done].
    rewrite (IHe r1); [done|lia..].
  - cbn [parse_members].
    pose proof (length_skip_ws s) as Hws.
    destruct (skip_ws s) as [|c r0]; [done|]. cbn [String.length] in Hws.
    destruct (Ascii.eqb c dquote); [|done].
    destruct (parse_string_body r0) as [[k r1]|] eqn:Ek; [|done].
    apply length_parse_string_body in Ek. cbn [mbind option_bind].
    pose proof (length_skip_ws r1) as Hws1.
    destruct (skip_ws r1) as [|c1 r2]; [done|]. cbn [String.length] in Hws1.
    destruct (Ascii.eqb c1 ":"); [|done].
    rewrite (IHv r2) by lia.
    destruct (parse_value m r2) as [[v r3]|] eqn:Ev; [|done].
    apply parse_size in Ev as [Hr3 _]. cbn [mbind option_bind].
    pose proof (length_skip_ws r3) as Hws3.
    destruct (skip_ws r3) as [|c2 r4]; [done|]. cbn [String.length] in Hws3.
    destruct (Ascii.eqb c2 ","); [|done].
    rewrite (IHm r4); [done|lia..].
Qed.

(** The fuel of [JSON.parse] is enough: with more, the result is the
    same. *)
Lemma parse_fuel_enough s fuel :
  2 * String.length s + 2 <= fuel ->
  parse_value fuel s = parse_value (2 * String.length s + 2) s.
Proof. intros Hfuel. apply parse_fuel; lia. Qed.

End ParserFuel.

Section CodecFuel.
Import JSON.
Local Open Scope string_scope.

Lemma map_outcome_ext {A B} (f g : A -> outcome B) l :
  Forall (fun x => f x = g x) l -> map_outcome f l = map_outcome g l.
Proof.
  induction 1 as [|x l Hx _ IH]; [done|].
  cbn [map_outcome]. by rewrite Hx, IH.
Qed.

Lemma for_in_ext {A B} (f g : A -> outcome B) (l : props A) :
  Forall (fun kx => f (snd kx) = g (snd kx)) l ->
  forall acc, for_in f l acc = for_in g l acc.
Proof.
  induction 1 as [|[k x] l Hx _ IH]; intros acc; [done|].
  cbn [for_in]. cbn [snd] in Hx. rewrite Hx.
  destruct (g x); cbn [mbind outcome_bind obind]; [apply IH|done].
Qed.

(** [rev] depends on the calls on the strings of the value only. *)
Lemma rev_ext leaf leaf' j :
  (forall t, t ∈ jstrings j -> leaf t = leaf' t) -> rev leaf j = rev leaf' j.
Proof.
  induction j as [|b|n|s|l IH|l IH] using json_ind'; cbn [rev jstrings];
    intros Hleaf; try done.
  - apply Hleaf. left.
  - rewrite (map_outcome_ext (rev leaf) (rev leaf')); [done|].
    rewrite Forall_forall in IH. apply Forall_forall. intros x Hx.
    apply IH; [done|]. intros t Ht. apply Hleaf.
    apply list_elem_of_In, in_concat.
    exists (jstrings x). split; [apply in_map|]; by apply list_elem_of_In.
  - rewrite (for_in_ext (rev leaf) (rev leaf')); [done|].
    rewrite Forall_forall in IH. apply Forall_forall. intros kx Hx.
    apply IH; [done|]. intros t Ht. apply Hleaf.
    apply list_elem_of_In, in_concat.
    exists (jstrings (snd kx)). split; [|by apply list_elem_of_In].
    apply (in_map (fun kv => jstrings (snd kv))). by apply list_elem_of_In.
Qed.

(** The fuel of [deserializeFromLocalStorage] is enough: with more, the
    result is the same. *)
Lemma deserialize_fuel fuel : forall fuel' str,
  String.length str < fuel -> String.length str < fuel' ->
  deserialize fuel str = deserialize fuel' str.
Proof.
  induction fuel as [|fuel IH]; intros fuel' str Hfuel Hfuel'; [lia|].
  destruct fuel' as [|fuel']; [lia|]. cbn [deserialize].
  repeat match goal with
  | |- (if ?b then _ else _) = _ => destruct b eqn:?
  end; try done.
  destruct (parse (slice 4 str)) as [inner|e] eqn:Hp; [|done].
  cbn [mbind outcome_bind obind]. apply rev_ext. intros t Ht.
  pose proof (parse_strings _ _ _ Hp Ht). pose proof (length_slice 4 str).
  apply IH; lia.
Qed.

End CodecFuel.

(** ** Writes to a map, one after the other *)

Section WriteFacts.

Context {V : Type}.
Implicit Types (m : gmap string V) (l : list (string * V)).

Lemma writes_union l : forall m, writes l m = writes l ∅ ∪ m.
Proof.
  unfold writes.
  induction l as [|[k v] l IH]; intros m; cbn [fold_left fst snd].
  - by rewrite (left_id_L ∅ (∪)).
  - rewrite (IH (<[k:=v]> m)), (IH (<[k:=v]> ∅)).
    rewrite (insert_union_singleton_l m), insert_empty.
    by rewrite (assoc_L (∪)).
Qed.

(** Writing the same entries again changes nothing. *)
Lemma writes_idemp l m : writes l (writes l m) = writes l m.
Proof.
  rewrite (writes_union l (writes l m)), (writes_union l m).
  by rewrite (assoc_L (∪)), (idemp_L (∪)).
Qed.

Lemma writes_app l1 l2 m : writes (l1 ++ l2) m = writes l2 (writes l1 m).
Proof. apply fold_left_app. Qed.

Lemma writes_cons k v l m : writes ((k, v) :: l) m = writes l (<[k := v]> m).
Proof. reflexivity. Qed.

End WriteFacts.

(** ** IndexedDBSync *)

Section SyncFacts.

Local Open Scope string_scope.

Lemma setItems_writes (data : payload) ls :
  setItems data ls = writes data ls.
Proof. reflexivity. Qed.

(** The puts of an import touch the object store only. *)
Lemma puts_world (records : list (string * value)) : forall w,
  fold_left (fun w kv => saveToIndexedDB (fst kv) (snd kv) w) records w =
  set_FILE_DATA (writes records (FILE_DATA w)) w.
Proof.
  unfold writes. induction records as [|[k v] records IH]; intros w; cbn [fold_left fst snd].
  - by destruct w.
  - rewrite IH. by destruct w.
Qed.

Lemma importFromLocalStorage_localStorage w :
  localStorage (snd (importFromLocalStorage w)) = localStorage w.
Proof. unfold importFromLocalStorage. cbn [snd]. by rewrite puts_world. Qed.

(** Importing again puts the same records, which are there already. *)
Lemma importFromLocalStorage_again w :
  importFromLocalStorage (snd (importFromLocalStorage w)) =
  importFromLocalStorage w.
Proof.
  unfold importFromLocalStorage. cbn [snd]. rewrite !puts_world.
  cbn [localStorage set_FILE_DATA FILE_DATA]. f_equal.
  rewrite writes_idemp. by destruct w.
Qed.

(** *** The entries of an export *)

Lemma exportEntry_writes E entry ls :
  snd (exportEntry E entry ls) = writes (entryWrites E entry) ls.
Proof.
  destruct entry as [key value]. unfold exportEntry, entryWrites.
  destruct (serializeForLocalStorage value) as [s|]; [|done].
  destruct (Nat.ltb _ _); [done|].
  by destruct (timestampKey E value).
Qed.

Lemma exportEntry_result E entry ls ls' :
  fst (exportEntry E entry ls) = fst (exportEntry E entry ls').
Proof.
  destruct entry as [key value]. unfold exportEntry.
  destruct (serializeForLocalStorage value) as [s|]; [|done].
  destruct (Nat.ltb _ _); [done|].
  by destruct (timestampKey E value).
Qed.

Lemma exportEntries_writes E entries : forall ls,
  snd (exportEntries E entries ls) =
  writes (concat (map (entryWrites E) entries)) ls.
Proof.
  induction entries as [|entry entries IH]; intros ls; [done|].
  cbn [exportEntries map concat]. rewrite writes_app.
  rewrite <- exportEntry_writes, <- IH.
  destruct (exportEntry E entry ls) as [ok ls1]. cbn [snd].
  by destruct (exportEntries E entries ls1).
Qed.

Lemma exportEntries_results E entries : forall ls ls',
  fst (exportEntries E entries ls) = fst (exportEntries E entries ls').
Proof.
  induction entries as [|entry entries IH]; intros ls ls'; [done|].
  cbn [exportEntries].
  pose proof (exportEntry_result E entry ls ls') as Hok.
  destruct (exportEntry E entry ls) as [ok ls1].
  destruct (exportEntry E entry ls') as [ok' ls1'].
  specialize (IH ls1 ls1').
  destruct (exportEntries E entries ls1), (exportEntries E entries ls1').
  cbn in *. congruence.
Qed.

(** Exporting the same entries again writes what is there already. *)
Lemma exportEntries_again E entries ls :
  exportEntries E entries (snd (exportEntries E entries ls)) =
  exportEntries E entries ls.
Proof.
  apply injective_projections.
  - apply exportEntries_results.
  - rewrite !exportEntries_writes. apply writes_idemp.
Qed.

Lemma exportEntries_app E (l1 l2 : list (string * value)) ls :
  exportEntries E (l1 ++ l2)%list ls =
  let '(r1, ls1) := exportEntries E l1 ls in
  let '(r2, ls2) := exportEntries E l2 ls1 in
  ((r1 ++ r2)%list, ls2).
Proof.
  revert ls. induction l1 as [|entry l1 IH]; intros ls; cbn [app exportEntries].
  - by destruct (exportEntries E l2 ls).
  - destruct (exportEntry E entry ls) as [ok ls1]. rewrite IH.
    destruct (exportEntries E l1 ls1) as [r1 ls2].
    by destruct (exportEntries E l2 ls2).
Qed.

(** *** The keys of the payloads *)

Lemma obj_define_keys {A} k (x : A) o k' :
  k' ∈ map fst (obj_define k x o) -> k' = k \/ k' ∈ map fst o.
Proof.
  induction o as [|[k0 y] o IH]; cbn [obj_define map fst].
  - intros ->%list_elem_of_singleton. by left.
  - destruct (String.eqb_spec k0 k) as [->|_]; cbn [map fst].
    + intros [->|Hin]%elem_of_cons; [by left|right; by right].
    + intros [->|Hin]%elem_of_cons; [right; left|].
      destruct (IH Hin) as [->|Hin']; [by left|right; by right].
Qed.

Lemma obj_set_keys {A} k (x : A) o k' :
  k' ∈ map fst (obj_set k x o) -> k' = k \/ k' ∈ map fst o.
Proof.
  unfold obj_set. destruct (String.eqb k "__proto__"); [by right|].
  apply obj_define_keys.
Qed.

(** A payload holds keys that its test let through. *)
Lemma collect_keys keep ls k :
  k ∈ map fst (collect keep ls) -> keep k = true.
Proof.
  unfold collect. generalize (keys ls). intros l.
  assert (forall acc : payload,
            (forall k, k ∈ map fst acc -> keep k = true) ->
            forall k, k ∈ map fst
              (fold_left
                 (fun all key =>
                    if keep key then
                      match getItem key ls with
                      | Some v => obj_set key v all
                      | None => all
                      end
                    else all) l acc) -> keep k = true) as Hfold.
  { induction l as [|key l IH]; intros acc Hacc k'; cbn [fold_left]; [apply Hacc|].
    apply IH. intros k0 Hk0.
    destruct (keep key) eqn:Hkeep; [|by apply Hacc].
    destruct (getItem key ls); [|by apply Hacc].
    apply obj_set_keys in Hk0 as [->|Hk0]; [done|by apply Hacc]. }
  apply Hfold. intros k0 Hk0. by apply elem_of_nil in Hk0.
Qed.

(** [notifySaveDataChanged] sends no key of a timestamp. *)
Lemma notify_payload_keys ls k :
  k ∈ map fst (collect is_data_key ls) -> endsWith "::ts" k = false.
Proof.
  intros Hk%collect_keys. unfold is_data_key in Hk.
  apply negb_true_iff, orb_false_iff in Hk. tauto.
Qed.

(** [importFromLocalStorage] puts no record for the key of a
    timestamp. *)
Lemma importEntry_key ls localKey record :
  importEntry ls localKey = Some record -> endsWith "::ts" localKey = false.
Proof.
  unfold importEntry. destruct (is_empty localKey); [done|].
  by destruct (endsWith "::ts" localKey).
Qed.

(** *** The notification *)

Lemma notify_fields E w :
  localStorage (notifySaveDataChanged E w) = localStorage w /\
  FILE_DATA (notifySaveDataChanged E w) = FILE_DATA w.
Proof.
  unfold notifySaveDataChanged.
  destruct (negb (isInIframe E)); [done|]. by case_bool_decide.
Qed.

(** When it posts, and what. *)
Lemma notify_posted E w :
  posted (notifySaveDataChanged E w) =
    if isInIframe E
       && negb (bool_decide (Some (dataString (localStorage w)) = lastSyncedData w))
    then (posted w ++ [SaveDataChanged (collect is_data_key (localStorage w))])%list
    else posted w.
Proof.
  unfold notifySaveDataChanged, dataString.
  destruct (isInIframe E); [|done]. cbn [negb andb]. by case_bool_decide.
Qed.

(** Notifying again, with [localStorage] as it was, posts nothing. *)
Lemma notify_again E w :
  notifySaveDataChanged E (notifySaveDataChanged E w) = notifySaveDataChanged E w.
Proof.
  assert (forall w', isInIframe E = true ->
            lastSyncedData w' = Some (dataString (localStorage w')) ->
            notifySaveDataChanged E w' = w') as Hfix.
  { intros w' Hframe Hsynced. unfold notifySaveDataChanged. rewrite Hframe.
    cbn [negb]. by rewrite bool_decide_eq_true_2. }
  destruct (isInIframe E) eqn:Hframe.
  - apply Hfix; [done|]. unfold notifySaveDataChanged. rewrite Hframe.
    cbn [negb]. by case_bool_decide.
  - unfold notifySaveDataChanged. by rewrite Hframe.
Qed.

(** Exporting again, with the store as it was, changes nothing. *)
Lemma export_again E w :
  exportToLocalStorage E (snd (exportToLocalStorage E w)) =
  exportToLocalStorage E w.
Proof.
  unfold exportToLocalStorage at 2.
  destruct (length (getAllFromIndexedDB w) =? 0)%nat eqn:Hempty.
  { cbn [snd]. unfold exportToLocalStorage. by rewrite Hempty. }
  pose proof (exportEntries_again E (getAllFromIndexedDB w) (localStorage w)) as Hagain.
  destruct (exportEntries E (getAllFromIndexedDB w) (localStorage w))
    as [results ls] eqn:Hentries.
  cbn [snd] in *. set (w0 := set_localStorage ls w).
  destruct (notify_fields E w0) as [Hls Hdb].
  unfold exportToLocalStorage, getAllFromIndexedDB in *.
  rewrite Hdb. cbn [FILE_DATA set_localStorage w0]. rewrite Hempty.
  rewrite Hls. cbn [localStorage set_localStorage w0]. rewrite Hagain, Hentries.
  f_equal. fold w0.
  assert (set_localStorage ls (notifySaveDataChanged E w0) =
          notifySaveDataChanged E w0) as ->.
  { pose proof Hls as Hls'. cbn [localStorage set_localStorage w0] in Hls'.
    destruct (notifySaveDataChanged E w0). cbn in *. by subst. }
  apply notify_again.
Qed.

End SyncFacts.

(** ** The definitions on small inputs *)

Section Examples.

Local Open Scope string_scope.

Example btoa_three : btoa "abc" = "YWJj". Proof. reflexivity. Qed.
Example btoa_two : btoa "ab" = "YWI=". Proof. reflexivity. Qed.
Example btoa_one : btoa "a" = "YQ==". Proof. reflexivity. Qed.
Example atob_padded : atob "YQ==" = Returns "a". Proof. reflexivity. Qed.
Example atob_unpadded : atob "YQ" = Returns "a". Proof. reflexivity. Qed.
Example atob_spaces : atob " YW Jj" = Returns "abc". Proof. reflexivity. Qed.
Example atob_alphabet : atob "!" = Throws InvalidCharacterError.
Proof. reflexivity. Qed.
Example atob_length : atob "A" = Throws InvalidCharacterError.
Proof. reflexivity. Qed.
Example atob_pad_inside : atob "A===" = Throws InvalidCharacterError.
Proof. reflexivity. Qed.

Example parse_integer : JSON.parse " -12 " = Returns (JNum (Fin (-12))).
Proof. reflexivity. Qed.
Example parse_fraction : JSON.parse "1.5e3" = Returns (JNum (Lit "1.5e3")).
Proof. reflexivity. Qed.
Example parse_leading_zero : JSON.parse "01" = Throws SyntaxError.
Proof. reflexivity. Qed.
Example parse_nested :
  JSON.parse "[1, [true,null], {}]" =
  Returns (JArr [JNum (Fin 1); JArr [JBool true; JNull]; JObj []]).
Proof. reflexivity. Qed.
Example parse_duplicate_key :
  JSON.parse ("{ " ++ JSON.quote "a" ++ " : " ++ JSON.quote "x\ny" ++ ", "
              ++ JSON.quote "b" ++ ":[], " ++ JSON.quote "a" ++ ":2 }") =
  Returns (JObj [("a", JNum (Fin 2)); ("b", JArr [])]).
Proof. vm_compute. reflexivity. Qed.
Example parse_escape :
  JSON.parse (String dquote ("\u0041\n" ++ String dquote EmptyString)) =
  Returns (JStr (String "A" (String (ascii_of_N 10) EmptyString))).
Proof. vm_compute. reflexivity. Qed.
Example parse_open_brace : JSON.parse "{" = Throws SyntaxError.
Proof. reflexivity. Qed.
Example parse_trailing_comma : JSON.parse "[1,]" = Throws SyntaxError.
Proof. reflexivity. Qed.
Example parse_empty : JSON.parse EmptyString = Throws SyntaxError.
Proof. reflexivity. Qed.
Example parse_garbage_after : JSON.parse "true1" = Throws SyntaxError.
Proof. reflexivity. Qed.
Example stringify_not_finite :
  JSON.stringify (JArr [JNum (Fin (-3)); JNum NaN; JNum PosInf]) = "[-3,null,null]".
Proof. reflexivity. Qed.

Example serialize_number :
  serializeForLocalStorage (VNum (Fin 1)) = Returns "JS:1".
Proof. reflexivity. Qed.
Example serialize_date :
  serializeForLocalStorage (VDate (Fin 1000)) = Returns "DATE:1000".
Proof. reflexivity. Qed.
Example serialize_invalid_date :
  serializeForLocalStorage (VDate NaN) = Returns "DATE:NaN".
Proof. reflexivity. Qed.
Example serialize_buffer :
  serializeForLocalStorage (VArrayBuffer [x01; x02]%byte) = Returns "AB:AQI=".
Proof. reflexivity. Qed.
Example serialize_bigint :
  serializeForLocalStorage (VArr [VNum (Fin 1); VBigInt 10]) = Throws TypeError.
Proof. reflexivity. Qed.
Example serialize_array :
  serializeForLocalStorage (VArr [VNull; VNum (Fin 7)]) =
  Returns ("OBJ:[" ++ JSON.quote "JS:__NULL__" ++ "," ++ JSON.quote "JS:7" ++ "]").
Proof. reflexivity. Qed.
Example deserialize_odd_view :
  deserializeFromLocalStorage (Some "TA:Uint16Array:AQID") =
  Returns (VArrayBuffer [x01; x02; x03]%byte).
Proof. vm_compute. reflexivity. Qed.
Example deserialize_unknown_view :
  deserializeFromLocalStorage (Some "TA:Nothing:AQI=") =
  Returns (VArrayBuffer [x01; x02]%byte).
Proof. vm_compute. reflexivity. Qed.
Example deserialize_date_out_of_range :
  deserializeFromLocalStorage (Some "DATE:8640000000000001") = Returns (VDate NaN).
Proof. vm_compute. reflexivity. Qed.
Example deserialize_nested :
  deserializeFromLocalStorage
    (Some ("OBJ:[" ++ JSON.quote "plain" ++ ",null,3]")) =
  Returns (VArr [VStr "plain"; VNull; VNum (Fin 3)]).
Proof. vm_compute. reflexivity. Qed.

Example export_scenario :
  localStorage (snd (exportToLocalStorage in_frame (start ∅ store_a_b))) =
  <["dta" := "JS:1"]> (<["dtb" := "DATE:1000"]> ∅).
Proof. vm_compute. reflexivity. Qed.
Example import_scenario :
  importFromLocalStorage (start flat_with_timestamp ∅) =
  (1, start flat_with_timestamp (<["a" := VNum (Fin 1)]> ∅)).
Proof. vm_compute. reflexivity. Qed.
Example import_skips_malformed :
  importFromLocalStorage (start (<["dta" := "JS:{"]> (<["dtb" := "JS:2"]> ∅)) ∅) =
  (1, start (<["dta" := "JS:{"]> (<["dtb" := "JS:2"]> ∅)) (<["b" := VNum (Fin 2)]> ∅)).
Proof. vm_compute. reflexivity. Qed.

End Examples.
(** * More properties of the code *)

(** ** Strings *)

Section MoreStringFacts.

Local Open Scope string_scope.

Lemma length_string_of_list_byte l :
  String.length (string_of_list_byte l) = length l.
Proof. induction l as [|b l IH]; [done|]. cbn. f_equal. exact IH. Qed.

(** [btoa] writes four characters for every three bytes or part of
    them. *)
Lemma length_btoa_groups s :
  String.length (btoa s) = 4 * ((String.length s + 2) / 3).
Proof.
  induction s as [|a|a b|a b c rest IH] using string_ind3; [done..|].
  cbn [btoa String.length]. rewrite IH.
  replace (S (S (S (String.length rest))) + 2) with (1 * 3 + (String.length rest + 2)) by lia.
  rewrite Nat.div_add_l by lia. lia.
Qed.

Lemma slice_append a b : slice (String.length a) (a ++ b) = b.
Proof. induction a as [|c a IH]; [by destruct b|exact IH]. Qed.

Lemma slice_to_append a b : slice_to (String.length a) (a ++ b) = a.
Proof.
  induction a as [|c a IH]; [by destruct b|].
  cbn [String.length slice_to String.append]. simpl. by rewrite IH.
Qed.

Lemma indexOf_append c a b :
  indexOf c a = None -> indexOf c (a ++ String c b) = Some (String.length a).
Proof.
  induction a as [|d a IH]; intros Hnone.
  - simpl. by rewrite Ascii.eqb_refl.
  - simpl in *. destruct (Ascii.eqb d c); [done|].
    destruct (indexOf c a); [done|]. by rewrite IH.
Qed.

Lemma indexOf_none_append c a b :
  indexOf c a = None -> indexOf c b = None -> indexOf c (a ++ b) = None.
Proof.
  induction a as [|d a IH]; intros Ha Hb; [done|].
  simpl in *. destruct (Ascii.eqb d c); [done|].
  destruct (indexOf c a); [done|]. by rewrite IH.
Qed.

Lemma startsWith_append p s : startsWith p (p ++ s) = true.
Proof.
  induction p as [|c p IH]; [by destruct s|].
  simpl. by rewrite Ascii.eqb_refl.
Qed.

(** A string that starts with [p] is [p] and what [slice] leaves. *)
Lemma startsWith_slice p : forall s,
  startsWith p s = true -> s = p ++ slice (String.length p) s.
Proof.
  induction p as [|c p IH]; intros s Hs; [by destruct s|].
  destruct s as [|d s]; [done|]. simpl in Hs.
  apply andb_true_iff in Hs as [->%Ascii.eqb_eq Hs].
  simpl. f_equal. by apply IH.
Qed.

Lemma append_inj_l p a b : p ++ a = p ++ b -> a = b.
Proof. induction p as [|c p IH]; simpl; [done|]. intros [= H]. by apply IH. Qed.

Lemma endsWith_append p a : endsWith p (a ++ p) = true.
Proof.
  unfold endsWith. rewrite length_append.
  apply andb_true_iff. split; [apply Nat.leb_le; lia|].
  replace (String.length a + String.length p - String.length p)
    with (String.length a) by lia.
  rewrite slice_append. apply String.eqb_refl.
Qed.

End MoreStringFacts.

(** ** The codec *)

Section MoreCodecFacts.

Import JSON.
Local Open Scope string_scope.

(** The data URL of a blob whose media type holds no comma: what
    follows its first comma is the base64 of the bytes. *)
Lemma blobToBase64_bytes type bytes :
  indexOf "," type = None ->
  blobToBase64 type bytes = arrayBufferToBase64 bytes.
Proof.
  intros Htype. unfold blobToBase64, readAsDataURL, arrayBufferToBase64.
  set (b64 := btoa (string_of_list_byte bytes)).
  assert ("data:" ++ type ++ ";base64," ++ b64 =
          ("data:" ++ type ++ ";base64") ++ String "," b64) as ->.
  { by rewrite !append_assoc. }
  rewrite indexOf_append.
  - rewrite Nat.add_1_r.
    change (slice (S ?n) (?a ++ String "," ?b)) with (slice (S n) (a ++ String "," b)).
    replace (S (String.length ("data:" ++ type ++ ";base64")))
      with (String.length (("data:" ++ type ++ ";base64") ++ ",")).
    + rewrite <- (slice_append (("data:" ++ type ++ ";base64") ++ ",") b64) at 2.
      f_equal. rewrite !append_assoc. reflexivity.
    + rewrite (length_append _ ","). simpl. lia.
  - simpl. by rewrite indexOf_none_append.
Qed.

Lemma deserialize_view_any fuel kind buffer size :
  globalThis kind = Some size ->
  deserialize (S fuel) ("TA:" ++ kind ++ ":" ++ arrayBufferToBase64 buffer) =
    Returns (if Nat.eqb (length buffer mod size) 0
             then VView kind buffer 0 (length buffer)
             else VArrayBuffer buffer).
Proof.
  intros Hkind.
  destruct (Nat.eqb (length buffer mod size) 0) eqn:Hmod.
  { apply Nat.eqb_eq in Hmod. by apply (deserialize_view _ _ _ size). }
  unfold globalThis in Hkind.
  repeat match type of Hkind with
  | (if String.eqb kind ?name then _ else _) = _ =>
      destruct (String.eqb_spec kind name) as [->|_];
      [injection Hkind as <-;
       cbn [deserialize]; simpl;
       rewrite base64ToArrayBuffer_arrayBufferToBase64;
       cbn [mbind outcome_bind obind]; unfold new_view;
       rewrite ?Hmod; try reflexivity; try discriminate Hmod|]
  end.
  discriminate.
Qed.

Lemma map_outcome_bigint (l : list value) :
  Forall (fun v => match serializeForLocalStorage v with
                   | Returns s => has_bigint v = false /\ recognised s = true
                   | Throws e => has_bigint v = true /\ e = TypeError
                   end) l ->
  match map_outcome serializeForLocalStorage l with
  | Returns _ => existsb has_bigint l = false
  | Throws e => existsb has_bigint l = true /\ e = TypeError
  end.
Proof.
  induction 1 as [|v l Hv _ IH]; [done|].
  cbn [map_outcome existsb].
  destruct (serializeForLocalStorage v) as [s|e]; cbn [mbind outcome_bind obind].
  - destruct Hv as [-> _]. cbn [orb].
    destruct (map_outcome serializeForLocalStorage l); cbn [mbind outcome_bind obind]; done.
  - destruct Hv as [-> ->]. done.
Qed.

Lemma for_in_bigint (l : props value) :
  Forall (fun kv => match serializeForLocalStorage (snd kv) with
                    | Returns s => has_bigint (snd kv) = false /\ recognised s = true
                    | Throws e => has_bigint (snd kv) = true /\ e = TypeError
                    end) l ->
  forall acc,
  match for_in serializeForLocalStorage l acc with
  | Returns _ => existsb (fun kv => has_bigint (snd kv)) l = false
  | Throws e => existsb (fun kv => has_bigint (snd kv)) l = true /\ e = TypeError
  end.
Proof.
  induction 1 as [|[k v] l Hv _ IH]; intros acc; [done|].
  cbn [for_in existsb snd] in *.
  destruct (serializeForLocalStorage v) as [s|e]; cbn [mbind outcome_bind obind].
  - destruct Hv as [-> _]. cbn [orb]. apply IH.
  - destruct Hv as [-> ->]. done.
Qed.

Lemma serialize_outcome v :
  match serializeForLocalStorage v with
  | Returns s => has_bigint v = false /\ recognised s = true
  | Throws e => has_bigint v = true /\ e = TypeError
  end.
Proof.
  induction v as [| |b|n|s|z|t|bytes|kind buffer off len|type bytes|l IH|l IH]
    using value_ind'; try (cbn; done).
  - cbn [serializeForLocalStorage has_bigint].
    pose proof (map_outcome_bigint l IH) as H.
    destruct (map_outcome serializeForLocalStorage l); cbn [mbind outcome_bind obind]; done.
  - cbn [serializeForLocalStorage has_bigint].
    pose proof (for_in_bigint l IH []) as H.
    destruct (for_in serializeForLocalStorage l []); cbn [mbind outcome_bind obind]; done.
Qed.

End MoreCodecFacts.
(** ** Writes to a map: what a key holds afterwards *)

Section MoreWriteFacts.

Context {V : Type}.
Implicit Types (m : gmap string V) (l : list (string * V)).

Lemma writes_lookup_notin l : forall m k,
  k ∉ map fst l -> writes l m !! k = m !! k.
Proof.
  induction l as [|[k0 v0] l IH]; intros m k Hk; [done|].
  rewrite writes_cons. cbn [map fst] in Hk.
  apply not_elem_of_cons in Hk as [Hne Hk].
  rewrite IH by done. by apply lookup_insert_ne.
Qed.

(** The last write to a key is what the key holds. *)
Lemma writes_lookup_last l1 k v l2 m :
  k ∉ map fst l2 -> writes (l1 ++ (k, v) :: l2) m !! k = Some v.
Proof.
  intros Hk. rewrite writes_app, writes_cons, writes_lookup_notin by done.
  apply lookup_insert_eq.
Qed.

Lemma writes_lookup_nodup l m k v :
  NoDup (map fst l) -> (k, v) ∈ l -> writes l m !! k = Some v.
Proof.
  intros Hnd Hin. apply list_elem_of_split in Hin as (l1 & l2 & ->).
  apply writes_lookup_last.
  rewrite map_app in Hnd. cbn [map fst] in Hnd.
  apply NoDup_app in Hnd as (_ & _ & Hnd). by apply NoDup_cons in Hnd as [Hk _].
Qed.

Lemma writes_lookup_inv l m k x :
  writes l m !! k = Some x -> k ∈ map fst l \/ m !! k = Some x.
Proof.
  intros Hx. destruct (decide (k ∈ map fst l)) as [Hin|Hout]; [by left|].
  right. by rewrite writes_lookup_notin in Hx.
Qed.

(** A write removes no key. *)
Lemma writes_is_Some l : forall m k,
  is_Some (m !! k) -> is_Some (writes l m !! k).
Proof.
  induction l as [|[k0 v0] l IH]; intros m k Hk; [done|].
  rewrite writes_cons. apply IH.
  destruct (decide (k0 = k)) as [->|Hne].
  - rewrite lookup_insert_eq. eauto.
  - by rewrite lookup_insert_ne.
Qed.

Lemma writes_snoc l k v m : writes (l ++ [(k, v)]) m = <[k := v]> (writes l m).
Proof. by rewrite writes_app. Qed.

Lemma writes_size l :
  NoDup (map fst l) -> size (writes l (∅ : gmap string V)) = length l.
Proof.
  induction l as [|[k v] l IH] using rev_ind; intros Hnd; [done|].
  rewrite writes_snoc, length_app. cbn [length].
  rewrite map_app in Hnd. cbn [map fst] in Hnd.
  apply NoDup_app in Hnd as (Hl & Hdisj & _).
  rewrite map_size_insert_None.
  - rewrite IH by done. lia.
  - rewrite writes_lookup_notin; [done|].
    intros Hin. apply (Hdisj k Hin). left.
Qed.

End MoreWriteFacts.

(** ** The keys of localStorage and of the object store *)

Section MoreSyncFacts.

Local Open Scope string_scope.

Lemma keys_lookup (ls : gmap string string) key :
  key ∈ keys ls <-> is_Some (ls !! key).
Proof.
  unfold keys. split.
  - intros ([k v] & -> & Hin)%list_elem_of_fmap.
    apply elem_of_map_to_list in Hin. eauto.
  - intros [v Hv]. apply (list_elem_of_fmap_2 fst _ (key, v)).
    by apply elem_of_map_to_list.
Qed.

Lemma keys_nodup (ls : gmap string string) : NoDup (keys ls).
Proof. exact (NoDup_fst_map_to_list ls). Qed.

Lemma NoDup_omap_fst {A B} (f : A -> option (string * B)) (l : list A) :
  NoDup l ->
  (forall x y r r', f x = Some r -> f y = Some r' -> fst r = fst r' -> x = y) ->
  NoDup (map fst (omap f l)).
Proof.
  intros Hnd Hinj. induction Hnd as [|x l Hx Hnd IH]; [constructor|].
  cbn [omap list_omap]. destruct (f x) as [r|] eqn:Hfx; [|exact IH].
  cbn [map]. constructor; [|exact IH].
  intros ([k' v'] & Hk & Hin)%list_elem_of_fmap.
  apply list_elem_of_omap in Hin as (y & Hy & Hfy).
  assert (x = y) as -> by (by eapply Hinj). done.
Qed.

(** The suffix of timestamps, with and without the prefix of the
    keys. *)
Lemma endsWith_prefixed k : endsWith "::ts" ("dt" ++ k) = endsWith "::ts" k.
Proof.
  destruct k as [|a [|b [|c [|d k]]]]; try reflexivity.
  unfold endsWith. simpl. by rewrite Nat.sub_0_r.
Qed.

Lemma append_suffix_assoc k : ("dt" ++ k) ++ "::ts" = "dt" ++ (k ++ "::ts").
Proof. done. Qed.

Lemma length_neq_append (a b : string) : b <> EmptyString -> a ++ b <> a.
Proof.
  intros Hb Heq. apply (f_equal String.length) in Heq.
  rewrite length_append in Heq. destruct b; [done|]. cbn in Heq. lia.
Qed.

(** *** The import, key by key *)

Lemma importEntry_prefixed ls k s v :
  ls !! ("dt" ++ k) = Some s ->
  endsWith "::ts" k = false ->
  deserializeFromLocalStorage (Some s) = Returns v ->
  importEntry ls ("dt" ++ k) = Some (k, v).
Proof.
  intros Hs Hts Hv. unfold importEntry, getItem.
  rewrite endsWith_prefixed, Hts, Hs, Hv. reflexivity.
Qed.

Lemma importEntry_inv ls localKey k v :
  importEntry ls localKey = Some (k, v) ->
  localKey = "dt" ++ k /\ endsWith "::ts" k = false /\
  deserializeFromLocalStorage (ls !! localKey) = Returns v.
Proof.
  unfold importEntry, getItem. destruct (is_empty localKey); [done|].
  destruct (endsWith "::ts" localKey) eqn:Hts; [done|].
  destruct (startsWith localStoragePrefix localKey) eqn:Hpre; [|done].
  destruct (deserializeFromLocalStorage (ls !! localKey)) as [v'|] eqn:Hv; [|done].
  intros [= <- <-]. apply startsWith_slice in Hpre.
  split; [exact Hpre|]. split; [|done].
  rewrite Hpre in Hts. by rewrite <- endsWith_prefixed.
Qed.

Lemma import_records_nodup ls :
  NoDup (map fst (omap (importEntry ls) (keys ls))).
Proof.
  apply NoDup_omap_fst; [apply keys_nodup|].
  intros x y [k v] [k' v'] Hx Hy Hk. cbn [fst] in Hk. subst k'.
  apply importEntry_inv in Hx as (-> & _). by apply importEntry_inv in Hy as (-> & _).
Qed.

(** What the object store holds under a key after an import. *)
Lemma import_lookup w k :
  FILE_DATA (snd (importFromLocalStorage w)) !! k =
    match localStorage w !! ("dt" ++ k) with
    | Some s =>
        if endsWith "::ts" k then FILE_DATA w !! k
        else match deserializeFromLocalStorage (Some s) with
             | Returns v => Some v
             | Throws _ => FILE_DATA w !! k
             end
    | None => FILE_DATA w !! k
    end.
Proof.
  unfold importFromLocalStorage. cbn [snd]. rewrite puts_world.
  cbn [FILE_DATA set_FILE_DATA].
  set (ls := localStorage w). set (records := omap (importEntry ls) (keys ls)).
  assert (forall v, (k, v) ∈ records <->
            exists s, ls !! ("dt" ++ k) = Some s /\ endsWith "::ts" k = false /\
                      deserializeFromLocalStorage (Some s) = Returns v) as Hrec.
  { intros v. unfold records. rewrite list_elem_of_omap. split.
    - intros (localKey & Hin & Hentry).
      apply keys_lookup in Hin as [s Hs].
      apply importEntry_inv in Hentry as (-> & Hts & Hv).
      exists s. by rewrite <- Hs.
    - intros (s & Hs & Hts & Hv). exists ("dt" ++ k). split.
      + apply keys_lookup. eauto.
      + by apply (importEntry_prefixed _ _ s). }
  assert (k ∉ map fst records ->
          writes records (FILE_DATA w) !! k = FILE_DATA w !! k) as Hout
    by apply writes_lookup_notin.
  assert (forall v, (k, v) ∈ records ->
            writes records (FILE_DATA w) !! k = Some v) as Hin.
  { intros v. apply writes_lookup_nodup, import_records_nodup. }
  assert (forall P : Prop, (forall v, ~ (k, v) ∈ records) -> k ∉ map fst records)
    as Hnone.
  { intros _ Hno ([k' v'] & Hk & Hkv)%list_elem_of_fmap. cbn [fst] in Hk. subst k'.
    by apply (Hno v'). }
  destruct (ls !! ("dt" ++ k)) as [s|] eqn:Hs.
  - destruct (endsWith "::ts" k) eqn:Hts.
    + apply Hout, (Hnone True). intros v (s' & _ & ? & _)%Hrec. congruence.
    + destruct (deserializeFromLocalStorage (Some s)) as [v|e] eqn:Hv.
      * apply Hin, Hrec. eauto.
      * apply Hout, (Hnone True). intros v (s' & Hs' & _ & Hv')%Hrec. congruence.
  - apply Hout, (Hnone True). intros v (s' & Hs' & _)%Hrec. congruence.
Qed.

(** *** The export, key by key *)

Lemma entryWrites_keys E k0 v0 key :
  key ∈ map fst (entryWrites E (k0, v0)) ->
  key = "dt" ++ k0 \/ key = "dt" ++ (k0 ++ "::ts").
Proof.
  unfold entryWrites. destruct (serializeForLocalStorage v0) as [s|].
  - destruct (Nat.ltb _ _); [by intros ?%elem_of_nil|].
    destruct (timestampKey E v0); cbn [map fst].
    + intros [->|[->|?%elem_of_nil]%elem_of_cons]%elem_of_cons; [by left|by right|done].
    + intros [->|?%elem_of_nil]%elem_of_cons; [by left|done].
  - by intros ?%elem_of_nil.
Qed.

Lemma exportWrites_keys E (entries : list (string * value)) key :
  key ∈ map fst (concat (map (entryWrites E) entries)) ->
  exists k0 v0, (k0, v0) ∈ entries /\
    (key = "dt" ++ k0 \/ key = "dt" ++ (k0 ++ "::ts")).
Proof.
  induction entries as [|[k0 v0] entries IH]; cbn [map concat].
  - by intros ?%elem_of_nil.
  - rewrite map_app. intros [Hin|Hin]%elem_of_app.
    + exists k0, v0. split; [left|by apply (entryWrites_keys E k0 v0)].
    + destruct (IH Hin) as (k1 & v1 & Hin1 & Hkey).
      exists k1, v1. split; [by right|done].
Qed.

Lemma export_localStorage E w :
  localStorage (snd (exportToLocalStorage E w)) =
    writes (concat (map (entryWrites E) (map_to_list (FILE_DATA w))))
      (localStorage w).
Proof.
  unfold exportToLocalStorage, getAllFromIndexedDB.
  destruct (map_to_list (FILE_DATA w)) as [|entry entries] eqn:Hdata; [done|].
  cbn [length Nat.eqb].
  pose proof (exportEntries_writes E (entry :: entries) (localStorage w)) as Hw.
  destruct (exportEntries E (entry :: entries) (localStorage w)) as [results ls].
  cbn [snd] in *. destruct (notify_fields E (set_localStorage ls w)) as [-> _].
  exact Hw.
Qed.

Lemma export_FILE_DATA E w :
  FILE_DATA (snd (exportToLocalStorage E w)) = FILE_DATA w.
Proof.
  unfold exportToLocalStorage.
  destruct (Nat.eqb _ _); [done|].
  destruct (exportEntries E (getAllFromIndexedDB w) (localStorage w)) as [results ls].
  cbn [snd]. by destruct (notify_fields E (set_localStorage ls w)) as [_ ->].
Qed.

Lemma export_count E w :
  fst (exportToLocalStorage E w) =
    length (filter (fun b => b = true)
              (fst (exportEntries E (getAllFromIndexedDB w) (localStorage w)))).
Proof.
  unfold exportToLocalStorage.
  destruct (getAllFromIndexedDB w) as [|entry entries] eqn:Hdata; [done|].
  cbn [length Nat.eqb].
  by destruct (exportEntries E (entry :: entries) (localStorage w)).
Qed.

(** The entry of a record whose string fits, under a key that is not the
    key of a timestamp, is what a batch leaves under the key. *)
Lemma exportWrites_lookup E (entries : list (string * value)) ls k v s :
  NoDup (map fst entries) ->
  (k, v) ∈ entries ->
  serializeForLocalStorage v = Returns s ->
  String.length s <= MAX_LOCALSTORAGE_BYTES E ->
  endsWith "::ts" k = false ->
  writes (concat (map (entryWrites E) entries)) ls !! ("dt" ++ k) = Some s.
Proof.
  intros Hnd Hin Hs Hfits Hts.
  apply list_elem_of_split in Hin as (l1 & l2 & ->).
  rewrite map_app, concat_app. cbn [map concat].
  assert (exists rest, entryWrites E (k, v) = ("dt" ++ k, s) :: rest /\
            forall key, key ∈ map fst rest -> key = "dt" ++ (k ++ "::ts"))
    as (rest & -> & Hrest).
  { unfold entryWrites. rewrite Hs.
    assert (Nat.ltb (MAX_LOCALSTORAGE_BYTES E) (String.length s) = false) as ->
      by (apply Nat.ltb_ge; lia).
    destruct (timestampKey E v) as [ts|]; eexists; (split; [reflexivity|]).
    - intros key [->|?%elem_of_nil]%elem_of_cons; done.
    - by intros key ?%elem_of_nil. }
  rewrite <- app_comm_cons. apply writes_lookup_last.
  rewrite map_app. intros [Hkey|Hkey]%elem_of_app.
  - apply Hrest, append_inj_l in Hkey.
    symmetry in Hkey. by apply length_neq_append in Hkey.
  - apply exportWrites_keys in Hkey as (k0 & v0 & Hin0 & [Hkey|Hkey]);
      apply append_inj_l in Hkey; subst k.
    + rewrite map_app in Hnd. cbn [map fst] in Hnd.
      apply NoDup_app in Hnd as (_ & _ & Hnd). apply NoDup_cons in Hnd as [Hk _].
      apply Hk. by apply (list_elem_of_fmap_2 fst _ (k0, v0)).
    + by rewrite endsWith_append in Hts.
Qed.

Lemma export_lookup E w k v s :
  FILE_DATA w !! k = Some v ->
  serializeForLocalStorage v = Returns s ->
  String.length s <= MAX_LOCALSTORAGE_BYTES E ->
  endsWith "::ts" k = false ->
  localStorage (snd (exportToLocalStorage E w)) !! ("dt" ++ k) = Some s.
Proof.
  intros Hk Hs Hfits Hts. rewrite export_localStorage.
  apply (exportWrites_lookup E _ _ k v s); try done.
  - apply NoDup_fst_map_to_list.
  - by apply elem_of_map_to_list.
Qed.

End MoreSyncFacts.
(** ** The payloads *)

Section PayloadFacts.

Local Open Scope string_scope.

Lemma collect_fold (keep : string -> bool) (ls : gmap string string)
    (l : list string) : forall acc : payload,
  NoDup l ->
  (forall k, k ∈ l -> k ∉ map fst acc) ->
  fold_left
    (fun (all : payload) (key : string) =>
       if keep key then
         match getItem key ls with
         | Some v => obj_set key v all
         | None => all
         end
       else all) l acc =
  (acc ++ omap (collected keep ls) l)%list.
Proof.
  induction l as [|key l IH]; intros acc Hnd Hfresh; cbn [fold_left].
  { cbn. by rewrite app_nil_r. }
  apply NoDup_cons in Hnd as [Hkey Hnd].
  assert (key ∉ map fst acc) as Hacc by (apply Hfresh; left).
  cbn [omap list_omap]. unfold collected at 1.
  destruct (keep key); cbn [andb];
    [|apply IH; [done|intros k Hk; apply Hfresh; by right]].
  destruct (getItem key ls) as [v|]; cbn [fmap option_fmap option_map];
    [|destruct (negb _); apply IH; try done; intros k Hk; apply Hfresh; by right].
  unfold obj_set. destruct (String.eqb_spec key "__proto__") as [Hproto|Hproto];
    cbn [negb].
  { apply IH; [done|intros k Hk; apply Hfresh; by right]. }
  rewrite obj_define_fresh by done. rewrite IH; [by rewrite <- app_assoc|done|].
  intros k Hk. rewrite map_app. cbn [map fst].
  intros [Hin|Hin%list_elem_of_singleton]%elem_of_app.
  - by apply (Hfresh k); [right|].
  - by subst k.
Qed.

(** The object that a loop over [localStorage] fills. *)
Lemma collect_omap keep ls :
  collect keep ls = omap (collected keep ls) (keys ls).
Proof.
  unfold collect. rewrite collect_fold; [done|apply keys_nodup|].
  by intros k _ ?%elem_of_nil.
Qed.

Lemma collect_elem keep ls k v :
  (k, v) ∈ collect keep ls <->
  ls !! k = Some v /\ keep k = true /\ k <> "__proto__".
Proof.
  rewrite collect_omap, list_elem_of_omap. unfold collected, getItem. split.
  - intros (key & Hin & Hkey).
    destruct (keep key) eqn:Hkeep; [|done].
    destruct (String.eqb_spec key "__proto__") as [|Hproto]; [done|].
    destruct (ls !! key) as [x|] eqn:Hx; [|done].
    cbn in Hkey. by injection Hkey as -> ->.
  - intros (Hv & Hkeep & Hproto). exists k. split.
    + apply keys_lookup. eauto.
    + rewrite Hkeep, Hv. by destruct (String.eqb_spec k "__proto__").
Qed.

Lemma collect_nodup keep ls : NoDup (map fst (collect keep ls)).
Proof.
  rewrite collect_omap. apply NoDup_omap_fst; [apply keys_nodup|].
  intros x y r r' Hx Hy Hr. unfold collected in *.
  destruct (_ && _) in Hx; [|done]. destruct (_ && _) in Hy; [|done].
  destruct (getItem x ls); [|done]. destruct (getItem y ls); [|done].
  cbn in *. injection Hx as <-. injection Hy as <-. done.
Qed.

Lemma is_data_key_spec k :
  is_data_key k = true <-> k <> EmptyString /\ endsWith "::ts" k = false.
Proof.
  unfold is_data_key. rewrite negb_true_iff, orb_false_iff.
  split; intros [Hk Hts]; (split; [|done]).
  - by intros ->.
  - by destruct k.
Qed.

End PayloadFacts.

(** ** Runs of the script *)

Section RunFacts.

Import JSON.
Local Open Scope string_scope.

Lemma run_cons E ev evs w : run E (ev :: evs) w = run E evs (step E ev w).
Proof. reflexivity. Qed.

Lemma import_fields w :
  let w' := snd (importFromLocalStorage w) in
  localStorage w' = localStorage w /\ lastSyncedData w' = lastSyncedData w /\
  listener w' = listener w /\ timeout w' = timeout w /\ posted w' = posted w /\
  saveLoaded w' = saveLoaded w /\ reloads w' = reloads w.
Proof. unfold importFromLocalStorage. cbn [snd]. by rewrite puts_world. Qed.

Lemma import_is_Some w k :
  is_Some (FILE_DATA w !! k) ->
  is_Some (FILE_DATA (snd (importFromLocalStorage w)) !! k).
Proof.
  unfold importFromLocalStorage. cbn [snd]. rewrite puts_world.
  cbn [FILE_DATA set_FILE_DATA]. apply writes_is_Some.
Qed.

(** *** The object store keeps its records *)

Lemma handleSet_is_Some data w k :
  is_Some (FILE_DATA w !! k) ->
  is_Some (FILE_DATA (handleSetAllLocalStorageData data w) !! k).
Proof.
  intros Hk. unfold handleSetAllLocalStorageData.
  destruct (allLocalStorageData data) as [entries|]; [|done].
  match goal with |- context [importFromLocalStorage ?w0] =>
    pose proof (import_is_Some w0 k Hk) as H;
    destruct (importFromLocalStorage w0) as [n w1]
  end.
  exact H.
Qed.

Lemma responseHandler_is_Some id data w k :
  is_Some (FILE_DATA w !! k) ->
  is_Some (FILE_DATA (responseHandler id data w) !! k).
Proof.
  intros Hk. unfold responseHandler.
  destruct data as [data|]; [|done].
  destruct (_ && _); [|done].
  destruct (allLocalStorageData data) as [entries|]; [|done].
  destruct (Nat.ltb _ _); [|done].
  by apply import_is_Some.
Qed.

Lemma messageListener_is_Some data w k :
  is_Some (FILE_DATA w !! k) ->
  is_Some (FILE_DATA (messageListener data w) !! k).
Proof.
  intros Hk. unfold messageListener.
  destruct data as [data|]; [|done].
  repeat match goal with
  | |- context [if ?b then _ else _] => destruct b
  end; try done.
  by apply handleSet_is_Some.
Qed.

Lemma step_is_Some E ev w k :
  is_Some (FILE_DATA w !! k) -> is_Some (FILE_DATA (step E ev w) !! k).
Proof.
  intros Hk. destruct ev as [data| | |]; cbn [step].
  - assert (is_Some (FILE_DATA
              match listener w with
              | Some messageId => responseHandler messageId data w
              | None => w
              end !! k)) as Hk'.
    { destruct (listener w); [by apply responseHandler_is_Some|done]. }
    destruct (isInIframe E); [by apply messageListener_is_Some|done].
  - by destruct (timeout w).
  - by rewrite export_FILE_DATA.
  - by destruct (notify_fields E w) as [_ ->].
Qed.

Lemma run_is_Some E evs : forall w k,
  is_Some (FILE_DATA w !! k) -> is_Some (FILE_DATA (run E evs w) !! k).
Proof.
  induction evs as [|ev evs IH]; intros w k Hk; [done|].
  rewrite run_cons. by apply IH, step_is_Some.
Qed.

(** *** Outside a frame *)

Lemma step_standalone E ev w :
  isInIframe E = false -> listener w = None ->
  posted (step E ev w) = posted w /\
  lastSyncedData (step E ev w) = lastSyncedData w /\
  listener (step E ev w) = None.
Proof.
  intros Hframe Hlistener. destruct ev as [data| | |]; cbn [step].
  - by rewrite Hlistener, Hframe.
  - by destruct (timeout w).
  - unfold exportToLocalStorage. destruct (Nat.eqb _ _); [done|].
    destruct (exportEntries _ _ _) as [results ls]. cbn [snd].
    unfold notifySaveDataChanged. by rewrite Hframe.
  - unfold notifySaveDataChanged. by rewrite Hframe.
Qed.

(** *** Notifications in a row *)

Lemma no_repeat_snoc l x :
  no_repeat l -> last l <> Some x -> no_repeat (l ++ [x]).
Proof.
  induction l as [|a [|b l] IH]; intros Hl Hx; [done| |].
  - cbn in *. split; [|done]. intros ->. by apply Hx.
  - cbn [app no_repeat] in *. destruct Hl as [Hab Hl]. split; [done|].
    apply IH; [done|]. exact Hx.
Qed.

Lemma notifications_post m w :
  notifications (postMessage m w) =
    (notifications w ++
     match m with SaveDataChanged all => [all] | _ => [] end)%list.
Proof.
  unfold notifications. cbn [posted postMessage]. rewrite omap_app.
  by destruct m.
Qed.

(** What keeps [lastSyncedData] and the messages posted keeps the two
    properties. *)
Lemma synced_quiet w w' :
  lastSyncedData w' = lastSyncedData w ->
  notifications w' = notifications w ->
  synced w /\ no_repeat (stringify_payload <$> notifications w) ->
  synced w' /\ no_repeat (stringify_payload <$> notifications w').
Proof. unfold synced. by intros -> ->. Qed.

Lemma synced_notify E w :
  synced w /\ no_repeat (stringify_payload <$> notifications w) ->
  synced (notifySaveDataChanged E w) /\
  no_repeat (stringify_payload <$> notifications (notifySaveDataChanged E w)).
Proof.
  intros [Hsynced Hrepeat]. unfold notifySaveDataChanged.
  destruct (negb (isInIframe E)); [done|].
  case_bool_decide as Hsame; [done|].
  set (all := collect is_data_key (localStorage w)) in *.
  unfold synced. rewrite notifications_post.
  assert (notifications (set_lastSyncedData (Some (stringify_payload all)) w) =
          notifications w) as -> by done.
  split.
  - by rewrite last_snoc.
  - rewrite fmap_app. apply no_repeat_snoc; [done|].
    rewrite fmap_last, <- Hsynced. congruence.
Qed.

Lemma handleSet_quiet data w :
  lastSyncedData (handleSetAllLocalStorageData data w) = lastSyncedData w /\
  notifications (handleSetAllLocalStorageData data w) = notifications w.
Proof.
  unfold handleSetAllLocalStorageData.
  destruct (allLocalStorageData data) as [entries|]; [|done].
  match goal with |- context [importFromLocalStorage ?w0] =>
    pose proof (import_fields w0) as (_ & Hsynced & _ & _ & Hposted & _);
    destruct (importFromLocalStorage w0) as [n w1]
  end.
  cbn [snd] in *. unfold notifications.
  cbn [lastSyncedData posted scheduleReload postMessage].
  rewrite Hsynced, Hposted, omap_app. cbn. by rewrite app_nil_r.
Qed.

Lemma responseHandler_quiet id data w :
  lastSyncedData (responseHandler id data w) = lastSyncedData w /\
  notifications (responseHandler id data w) = notifications w.
Proof.
  unfold responseHandler. destruct data as [data|]; [|done].
  destruct (_ && _); [|done].
  destruct (allLocalStorageData data) as [entries|]; [|done].
  destruct (Nat.ltb _ _); [|done].
  match goal with |- context [importFromLocalStorage ?w0] =>
    pose proof (import_fields w0) as (_ & Hsynced & _ & _ & Hposted & _)
  end.
  unfold notifications. by rewrite Hsynced, Hposted.
Qed.

Lemma messageListener_quiet data w :
  lastSyncedData (messageListener data w) = lastSyncedData w /\
  notifications (messageListener data w) = notifications w.
Proof.
  unfold messageListener. destruct data as [data|]; [|done].
  repeat match goal with
  | |- context [if ?b then _ else _] => destruct b
  end; try done.
  - unfold handleGetAllLocalStorageData. rewrite notifications_post.
    by rewrite app_nil_r.
  - apply handleSet_quiet.
  - unfold handleSnapshotRequest. rewrite notifications_post.
    by rewrite app_nil_r.
Qed.

Lemma synced_step E ev w :
  synced w /\ no_repeat (stringify_payload <$> notifications w) ->
  synced (step E ev w) /\
  no_repeat (stringify_payload <$> notifications (step E ev w)).
Proof.
  intros Hw. destruct ev as [data| | |]; cbn [step].
  - assert (let w1 := match listener w with
                      | Some messageId => responseHandler messageId data w
                      | None => w
                      end in
            synced w1 /\ no_repeat (stringify_payload <$> notifications w1)) as Hw1.
    { destruct (listener w) as [id|]; [|done].
      destruct (responseHandler_quiet id data w) as [H1 H2].
      by apply (synced_quiet w). }
    cbn zeta in Hw1. destruct (isInIframe E); [|done].
    match goal with |- context [messageListener data ?w1] =>
      destruct (messageListener_quiet data w1) as [H1 H2];
      by apply (synced_quiet w1)
    end.
  - destruct (timeout w); [|done]. by apply (synced_quiet w).
  - unfold exportToLocalStorage. destruct (Nat.eqb _ _); [done|].
    destruct (exportEntries _ _ _) as [results ls]. cbn [snd].
    apply synced_notify. by apply (synced_quiet w).
  - by apply synced_notify.
Qed.

Lemma synced_run E evs : forall w,
  synced w /\ no_repeat (stringify_payload <$> notifications w) ->
  synced (run E evs w) /\
  no_repeat (stringify_payload <$> notifications (run E evs w)).
Proof.
  induction evs as [|ev evs IH]; intros w Hw; [done|].
  rewrite run_cons. by apply IH, synced_step.
Qed.

(** *** The payload that the parent holds *)

(** A payload with distinct keys is read back from its string. *)
Lemma stringify_payload_inj (p q : payload) :
  NoDup (map fst p) -> NoDup (map fst q) ->
  stringify_payload p = stringify_payload q -> p = q.
Proof.
  intros Hp Hq Heq. unfold stringify_payload in Heq.
  pose proof (parse_object p Hp) as Hpp. pose proof (parse_object q Hq) as Hpq.
  rewrite Heq, Hpq in Hpp.
  assert (map (fun kv : string * string => (fst kv, JStr (snd kv))) q =
          map (fun kv : string * string => (fst kv, JStr (snd kv))) p) as Hmap
    by congruence.
  clear -Hmap. revert q Hmap.
  induction p as [|[k v] p IH]; intros [|[k' v'] q] Hmap; try done.
  cbn [map fst snd] in Hmap. injection Hmap as -> -> Hmap. f_equal. by apply IH.
Qed.

(** A step posts no notification, or ends with
    [notifySaveDataChanged]. *)
Lemma step_cases E ev w :
  exists w0,
    (lastSyncedData w0 = lastSyncedData w /\ notifications w0 = notifications w) /\
    (step E ev w = w0 \/ step E ev w = notifySaveDataChanged E w0).
Proof.
  destruct ev as [data| | |]; cbn [step].
  - eexists. split; [|left; reflexivity].
    assert (let w1 := match listener w with
                      | Some messageId => responseHandler messageId data w
                      | None => w
                      end in
            lastSyncedData w1 = lastSyncedData w /\
            notifications w1 = notifications w) as [H1 H2].
    { destruct (listener w) as [id|]; [apply responseHandler_quiet|done]. }
    destruct (isInIframe E); [|done].
    match goal with |- context [messageListener data ?w1] =>
      destruct (messageListener_quiet data w1) as [-> ->] end.
    done.
  - eexists. split; [|left; reflexivity]. by destruct (timeout w).
  - unfold exportToLocalStorage. destruct (Nat.eqb _ _).
    + exists w. split; [done|by left].
    + destruct (exportEntries _ _ _) as [results ls]. cbn [snd].
      exists (set_localStorage ls w). split; [done|by right].
  - exists w. split; [done|by right].
Qed.

Lemma payloads_nodup_run E evs : forall w,
  Forall (fun p : payload => NoDup (map fst p)) (notifications w) ->
  Forall (fun p : payload => NoDup (map fst p)) (notifications (run E evs w)).
Proof.
  induction evs as [|ev evs IH]; intros w Hw; [done|].
  rewrite run_cons. apply IH.
  destruct (step_cases E ev w) as (w0 & [_ Hn] & [-> | ->]); [by rewrite Hn|].
  unfold notifySaveDataChanged. destruct (negb _); [by rewrite Hn|].
  case_bool_decide; [by rewrite Hn|].
  rewrite notifications_post. apply Forall_app. split.
  - assert (notifications (set_lastSyncedData
                             (Some (stringify_payload
                                      (collect is_data_key (localStorage w0)))) w0) =
            notifications w0) as -> by done.
    by rewrite Hn.
  - constructor; [apply collect_nodup|constructor].
Qed.

End RunFacts.

(** ** Game start-up *)

Section StartFacts.

Local Open Scope string_scope.

Lemma tryStart_attempted fns : forall s,
  _startAttempted (tryStart fns s) = _startAttempted s.
Proof.
  induction fns as [|[name [[[]|]|]] fns IH]; intros s; cbn [tryStart]; try done;
    by rewrite IH.
Qed.

Lemma tryStart_calls fns : forall s,
  exists new, calls (tryStart fns s) = (calls s ++ new)%list /\
              length new <= length fns.
Proof.
  induction fns as [|[name fn] fns IH]; intros s; cbn [tryStart length].
  - exists []. by rewrite app_nil_r.
  - destruct fn as [[[]|]|].
    + exists [name]. cbn. split; [done|lia].
    + match goal with |- context [tryStart fns ?s0] =>
        destruct (IH s0) as (new & -> & Hlen) end.
      exists (name :: new). cbn [calls length]. rewrite <- app_assoc. split; [done|lia].
    + match goal with |- context [tryStart fns ?s0] =>
        destruct (IH s0) as (new & -> & Hlen) end.
      exists (name :: new). cbn [calls length]. rewrite <- app_assoc. split; [done|lia].
    + destruct (IH s) as (new & -> & Hlen). exists new. split; [done|lia].
Qed.

End StartFacts.
(** ** What a value comes back as *)

Section ImageFacts.

Import JSON.
Local Open Scope string_scope.

(** [v] has a string from which [v'] is read back. *)
Local Abbreviation comes_back v v' :=
  (exists s, serializeForLocalStorage v = Returns s /\
     forall fuel, String.length s < fuel -> deserialize fuel s = Returns v').

Local Abbreviation not_proto := (fun kv : string * value => fst kv <> "__proto__").

Lemma comes_back_leaf v v' s :
  serializeForLocalStorage v = Returns s ->
  (forall fuel, deserialize (S fuel) s = Returns v') ->
  comes_back v v'.
Proof.
  intros Hs Hd. exists s. split; [done|].
  intros [|fuel] Hfuel; [lia|apply Hd].
Qed.

Lemma map_outcome_strings (l : list value) ss :
  Forall2 (fun x s => serializeForLocalStorage x = Returns s) l ss ->
  map_outcome serializeForLocalStorage l = Returns ss.
Proof.
  induction 1 as [|x s l ss Hs _ IH]; [done|].
  cbn [map_outcome]. by rewrite Hs, IH.
Qed.

Lemma map_outcome_leaves leaf (l' : list value) ss :
  Forall2 (fun x' s => leaf s = Returns x') l' ss ->
  map_outcome (rev leaf) (map JStr ss) = Returns l'.
Proof.
  induction 1 as [|x' s l' ss Hs _ IH]; [done|].
  cbn [map map_outcome rev]. rewrite Hs. cbn [mbind outcome_bind obind].
  by rewrite IH.
Qed.

(** The strings of the members of a sequence. *)
Lemma comes_back_strings (l l' : list value) :
  Forall2 (fun x x' => comes_back x x') l l' ->
  exists ss,
    Forall2 (fun x s => serializeForLocalStorage x = Returns s) l ss /\
    Forall2 (fun x' s => forall fuel, String.length s < fuel ->
                           deserialize fuel s = Returns x') l' ss.
Proof.
  induction 1 as [|x x' l l' (s & Hs & Hd) _ (ss & IH1 & IH2)].
  - exists []. split; constructor.
  - exists (s :: ss). split; by constructor.
Qed.

Lemma comes_back_array (l l' : list value) :
  Forall2 (fun x x' => comes_back x x') l l' ->
  comes_back (VArr l) (VArr l').
Proof.
  intros (ss & Hser & Hdes)%comes_back_strings.
  exists ("OBJ:" ++ stringify (JArr (map JStr ss))). split.
  - cbn [serializeForLocalStorage]. by rewrite (map_outcome_strings l ss).
  - intros [|fuel] Hfuel; [lia|].
    rewrite deserialize_OBJ, parse_array. cbn [mbind outcome_bind obind rev].
    rewrite (map_outcome_leaves (deserialize fuel) l' ss); [done|].
    assert (forall s, s ∈ ss -> String.length s < fuel) as Hsmall.
    { intros s Hin. pose proof (length_array_elem ss s Hin). lia. }
    clear -Hdes Hsmall.
    induction Hdes as [|x' s l' ss Hd _ IH]; constructor.
    + apply Hd, Hsmall. left.
    + apply IH. intros s' Hin. apply Hsmall. by right.
Qed.

(** The strings of the members of a mapping, under their keys. *)
Lemma comes_back_members (l l' : props value) :
  Forall2 (fun kx kx' => fst kx = fst kx' /\ comes_back (snd kx) (snd kx')) l l' ->
  exists out : props string,
    Forall2 (fun kx ks => fst kx = fst ks /\
               serializeForLocalStorage (snd kx) = Returns (snd ks)) l out /\
    Forall2 (fun ks kx' => fst ks = fst kx' /\
               forall fuel, String.length (snd ks) < fuel ->
                            deserialize fuel (snd ks) = Returns (snd kx')) out l'.
Proof.
  induction 1 as [|[k x] [k' x'] l l' [Hk (s & Hs & Hd)] _ (out & IH1 & IH2)].
  - exists []. split; constructor.
  - cbn [fst snd] in *. subst k'. exists ((k, s) :: out). split; by constructor.
Qed.

Lemma Forall2_keys {A B} (R : A -> B -> Prop) (l : props A) (r : props B) :
  Forall2 (fun kx ky => fst kx = fst ky /\ R (snd kx) (snd ky)) l r ->
  map fst l = map fst r.
Proof. induction 1 as [|? ? ? ? [Hk _] _ IH]; [done|]. cbn. by rewrite Hk, IH. Qed.

Lemma comes_back_object (l l' : props value) :
  NoDup (map fst l) ->
  existsb (String.eqb "__proto__") (map fst l) = false ->
  Forall2 (fun kx kx' => fst kx = fst kx' /\ comes_back (snd kx) (snd kx')) l l' ->
  comes_back (VObj l) (VObj l').
Proof.
  intros Hnd Hproto (out & Hser & Hdes)%comes_back_members.
  pose proof (Forall2_keys (fun x s => serializeForLocalStorage x = Returns s)
                _ _ Hser) as Hkeys.
  exists ("OBJ:" ++ stringify (JObj (map (fun kv => (fst kv, JStr (snd kv))) out))).
  split.
  - cbn [serializeForLocalStorage].
    by rewrite (for_in_fresh serializeForLocalStorage l out).
  - intros [|fuel] Hfuel; [lia|].
    rewrite deserialize_OBJ. rewrite parse_object by (by rewrite <- Hkeys).
    cbn [mbind outcome_bind obind rev].
    rewrite (for_in_fresh (rev (deserialize fuel)) _ l');
      [done| |by rewrite map_fst_snd_map, <- Hkeys
             |by rewrite map_fst_snd_map, <- Hkeys].
    assert (forall k s, (k, s) ∈ out -> String.length s < fuel) as Hsmall.
    { intros k s Hin. pose proof (length_object_elem out k s Hin). lia. }
    clear -Hdes Hsmall.
    induction Hdes as [|[k s] [k' x'] out l' [Hk Hd] _ IH]; cbn [map]; constructor.
    + cbn [fst snd rev] in *. split; [done|]. apply Hd, (Hsmall k). left.
    + apply IH. intros k0 s0 Hin. apply (Hsmall k0). by right.
Qed.

(** The loop of the serialiser leaves the key [__proto__] out. *)
Lemma for_in_proto {A B} (f : A -> outcome B) (l : props A) :
  Forall (fun kx => exists y, f (snd kx) = Returns y) l ->
  forall acc,
    for_in f l acc =
    for_in f (List.filter (fun kx => negb (String.eqb (fst kx) "__proto__")) l) acc.
Proof.
  induction 1 as [|[k x] l [y Hy] _ IH]; intros acc; [done|].
  cbn [List.filter fst]. unfold obj_set.
  destruct (String.eqb k "__proto__") eqn:Hk; cbn [negb for_in].
  - cbn [snd] in Hy. rewrite Hy. cbn [mbind outcome_bind obind].
    unfold obj_set. rewrite Hk. apply IH.
  - cbn [snd] in Hy. rewrite Hy. cbn [mbind outcome_bind obind]. apply IH.
Qed.

Lemma serializeForLocalStorage_proto (l : props value) :
  Forall (fun kx => exists s, serializeForLocalStorage (snd kx) = Returns s) l ->
  serializeForLocalStorage (VObj l) =
  serializeForLocalStorage
    (VObj (List.filter (fun kx => negb (String.eqb (fst kx) "__proto__")) l)).
Proof.
  intros Hl. cbn [serializeForLocalStorage].
  by rewrite (for_in_proto serializeForLocalStorage l Hl).
Qed.

Lemma filter_proto_keys {A} (l : props A) :
  map fst (List.filter (fun kx => negb (String.eqb (fst kx) "__proto__")) l) =
  List.filter (fun k => negb (String.eqb k "__proto__")) (map fst l).
Proof.
  induction l as [|[k x] l IH]; [done|]. cbn [List.filter map fst].
  destruct (String.eqb k "__proto__"); cbn [negb map fst]; by rewrite IH.
Qed.

Lemma filter_proto_nodup (ks : list string) :
  NoDup ks ->
  NoDup (List.filter (fun k => negb (String.eqb k "__proto__")) ks).
Proof.
  intros Hnd. apply NoDup_ListNoDup, List.NoDup_filter. by apply NoDup_ListNoDup.
Qed.

Lemma filter_proto_none (ks : list string) :
  existsb (String.eqb "__proto__")
    (List.filter (fun k => negb (String.eqb k "__proto__")) ks) = false.
Proof.
  induction ks as [|k ks IH]; [done|]. cbn [List.filter].
  destruct (String.eqb k "__proto__") eqn:Hk; cbn [negb existsb]; [done|].
  by rewrite String.eqb_sym, Hk, IH.
Qed.

Lemma serialize_image v :
  well_formed v = true -> comes_back v (round_trip_image v).
Proof.
  induction v as [| |b|n|s|z|t|bytes|kind buffer off len|type bytes|l IH|l IH]
    using value_ind'; intros Hv.
  - by eapply comes_back_leaf.
  - by eapply comes_back_leaf.
  - eapply comes_back_leaf; [done|]. intros. apply deserialize_bool.
  - cbn [well_formed round_trip_image] in *.
    destruct (finite_number n) eqn:Hn.
    + eapply comes_back_leaf; [done|]. intros. by apply deserialize_number.
    + destruct n; try discriminate; by eapply comes_back_leaf.
  - eapply comes_back_leaf; [done|]. intros. apply deserialize_string.
  - done.
  - eapply comes_back_leaf; [done|]. intros. by apply deserialize_date.
  - eapply comes_back_leaf; [done|]. intros. apply deserialize_buffer.
  - cbn [well_formed round_trip_image] in *.
    destruct (globalThis kind) as [size|] eqn:Hkind; [|done].
    eapply comes_back_leaf; [done|]. intros. by apply deserialize_view_any.
  - cbn [well_formed round_trip_image] in *.
    destruct (indexOf "," type) eqn:Htype; [done|].
    eapply comes_back_leaf; [done|]. intros fuel.
    rewrite blobToBase64_bytes by done.
    cbn [deserialize]. simpl. by rewrite base64ToArrayBuffer_arrayBufferToBase64.
  - cbn [well_formed round_trip_image] in *. apply comes_back_array.
    rewrite forallb_forall in Hv. rewrite Forall_forall in IH.
    clear -Hv IH. induction l as [|x l IHl]; cbn [map]; constructor.
    + apply IH; [left|]. apply Hv. by left.
    + apply IHl.
      * intros x' Hx'. apply IH. by right.
      * intros x' Hx'. apply Hv. by right.
  - cbn [well_formed] in Hv. apply andb_true_iff in Hv as [Hnd Hv].
    apply bool_decide_eq_true in Hnd. rewrite forallb_forall in Hv.
    rewrite Forall_forall in IH.
    assert (forall kx, kx ∈ l ->
              comes_back (snd kx) (round_trip_image (snd kx))) as Hall.
    { intros kx Hin. apply IH; [done|]. by apply Hv, list_elem_of_In. }
    set (l0 := List.filter (fun kx => negb (String.eqb (fst kx) "__proto__")) l).
    assert (comes_back (VObj l0) (round_trip_image (VObj l))) as (s & Hs & Hd).
    { cbn [round_trip_image]. apply comes_back_object.
      - unfold l0. rewrite filter_proto_keys. by apply filter_proto_nodup.
      - unfold l0. rewrite filter_proto_keys. apply filter_proto_none.
      - unfold l0. clear -Hall. induction l as [|[k x] l IHl]; [constructor|].
        cbn [List.filter flat_map fst snd].
        destruct (String.eqb k "__proto__"); cbn [negb app].
        + apply IHl. intros kx Hin. apply Hall. by right.
        + constructor.
          * split; [done|]. apply (Hall (k, x)). left.
          * apply IHl. intros kx Hin. apply Hall. by right. }
    exists s. split; [|done].
    rewrite serializeForLocalStorage_proto; [done|].
    apply Forall_forall. intros kx Hin.
    destruct (Hall kx Hin) as (s' & Hs' & _). eauto.
Qed.

(** What comes back is a value that the codec preserves. *)
Lemma image_preserved v :
  well_formed v = true -> preserved (round_trip_image v) = true.
Proof.
  induction v as [| |b|n|s|z|t|bytes|kind buffer off len|type bytes|l IH|l IH]
    using value_ind'; intros Hv; try done.
  - cbn [round_trip_image]. by destruct (finite_number n) eqn:Hn.
  - cbn [well_formed round_trip_image] in *.
    destruct (globalThis kind) as [size|] eqn:Hkind; [|done].
    destruct (Nat.eqb (length buffer mod size) 0) eqn:Hmod; [|done].
    cbn [preserved]. by rewrite Hkind, Hmod, !Nat.eqb_refl.
  - cbn [well_formed round_trip_image preserved] in *.
    rewrite forallb_forall in *. rewrite Forall_forall in IH.
    intros x' (x & <- & Hx)%in_map_iff.
    apply IH; [by apply list_elem_of_In|by apply Hv].
  - cbn [well_formed] in Hv. apply andb_true_iff in Hv as [Hnd Hv].
    apply bool_decide_eq_true in Hnd. rewrite forallb_forall in Hv.
    rewrite Forall_forall in IH. cbn [round_trip_image preserved].
    assert (map fst (flat_map
              (fun kv : string * value =>
                 if String.eqb (fst kv) "__proto__" then []
                 else [(fst kv, round_trip_image (snd kv))]) l) =
            List.filter (fun k => negb (String.eqb k "__proto__")) (map fst l))
      as Hkeys.
    { clear. induction l as [|[k x] l IHl]; [done|].
      cbn [flat_map List.filter map fst snd].
      destruct (String.eqb k "__proto__"); cbn [negb app map fst]; by rewrite IHl. }
    rewrite Hkeys, filter_proto_none. cbn [negb].
    rewrite bool_decide_eq_true_2 by (by apply filter_proto_nodup). cbn [andb].
    apply forallb_forall. intros kx' Hin. apply in_flat_map in Hin as (kx & Hkx & Hin).
    destruct (String.eqb (fst kx) "__proto__"); [done|].
    destruct Hin as [<-|[]]. cbn [snd].
    apply IH; [by apply list_elem_of_In|by apply Hv].
Qed.

End ImageFacts.
(** ** The effects of a handler *)

Section EffectFacts.

Local Open Scope string_scope.

Lemma perform_all_app l1 l2 w :
  perform_all (l1 ++ l2) w = perform_all l2 (perform_all l1 w).
Proof. apply fold_left_app. Qed.

Lemma perform_setItems (entries : payload) : forall w,
  perform_all (map (fun kv => SetItem (fst kv) (snd kv)) entries) w =
  set_localStorage (setItems entries (localStorage w)) w.
Proof.
  induction entries as [|[k v] entries IH]; intros w.
  - by destruct w.
  - cbn [map perform_all fold_left perform fst snd]. fold (perform_all).
    change (fold_left (fun w e => perform e w) ?l ?w0) with (perform_all l w0).
    rewrite IH. by destruct w.
Qed.

Lemma perform_puts (records : list (string * value)) : forall w,
  perform_all (map (fun kv => Put (fst kv) (snd kv)) records) w =
  fold_left (fun w kv => saveToIndexedDB (fst kv) (snd kv) w) records w.
Proof.
  induction records as [|[k v] records IH]; intros w; [done|].
  cbn [map perform_all fold_left perform fst snd].
  change (fold_left (fun w e => perform e w) ?l ?w0) with (perform_all l w0).
  by rewrite IH.
Qed.

(** The puts of an import are the import. *)
Lemma perform_import w :
  perform_all (importFromLocalStorage_effects (localStorage w)) w =
  snd (importFromLocalStorage w).
Proof. unfold importFromLocalStorage_effects. by rewrite perform_puts. Qed.

(** The effects of the handler, one after the other, make the state that
    the handler returns. *)
Lemma perform_handleSet data w :
  perform_all (handleSetAllLocalStorageData_effects data) w =
  handleSetAllLocalStorageData data w.
Proof.
  unfold handleSetAllLocalStorageData_effects, handleSetAllLocalStorageData.
  destruct (allLocalStorageData data) as [entries|]; [|done].
  rewrite !perform_all_app, perform_setItems.
  cbn [perform_all fold_left perform localStorage set_localStorage].
  change (fold_left (fun w e => perform e w) ?l ?w0) with (perform_all l w0).
  set (w1 := dispatchSaveLoaded entries false _).
  assert (localStorage w1 = setItems entries ∅) as Hls by done.
  rewrite <- Hls, perform_import.
  by destruct (importFromLocalStorage w1).
Qed.

End EffectFacts.

(** ** The store after an export and an import *)

Section RestoreFacts.

Local Open Scope string_scope.

(** The records of the export come back into the cleared store, and
    nothing else does. *)
Lemma restore_after_clear E w :
  (forall k v, FILE_DATA w !! k = Some v ->
     preserved v = true /\ endsWith "::ts" k = false /\
     forall s, serializeForLocalStorage v = Returns s ->
               String.length s <= MAX_LOCALSTORAGE_BYTES E) ->
  (forall key, is_Some (localStorage w !! key) -> startsWith "dt" key = true ->
     endsWith "::ts" key = true \/ is_Some (FILE_DATA w !! slice 2 key)) ->
  FILE_DATA (snd (importFromLocalStorage
                    (set_FILE_DATA ∅ (snd (exportToLocalStorage E w))))) =
  FILE_DATA w.
Proof.
  intros Hrecords Hstale.
  set (w1 := snd (exportToLocalStorage E w)).
  apply map_eq. intros k. rewrite import_lookup.
  cbn [localStorage FILE_DATA set_FILE_DATA]. rewrite lookup_empty.
  destruct (FILE_DATA w !! k) as [v|] eqn:Hk.
  - destruct (Hrecords k v Hk) as (Hv & Hts & Hfits).
    destruct (serialize_deserialize v Hv) as (s & Hs & Hd).
    pose proof (export_lookup E w k v s Hk Hs (Hfits s Hs) Hts) as Hls.
    fold w1 in Hls. rewrite Hls, Hts.
    cbn [deserializeFromLocalStorage]. rewrite Hd by lia. done.
  - destruct (localStorage w1 !! ("dt" ++ k)) as [s|] eqn:Hs; [|done].
    destruct (endsWith "::ts" k) eqn:Hts; [done|]. exfalso.
    unfold w1 in Hs. rewrite export_localStorage in Hs.
    apply writes_lookup_inv in Hs as [Hwritten|Hold].
    + apply exportWrites_keys in Hwritten as (k0 & v0 & Hin & [Hkey|Hkey]);
        apply append_inj_l in Hkey; subst k.
      * apply elem_of_map_to_list in Hin. congruence.
      * by rewrite endsWith_append in Hts.
    + destruct (Hstale ("dt" ++ k)) as [Hts'|[v Hv]]; [eauto|done| |].
      * by rewrite endsWith_prefixed, Hts in Hts'.
      * cbn in Hv. congruence.
Qed.

End RestoreFacts.

(** * The claims of the specification *)

Section Claims.

Local Open Scope string_scope.

(** Closes a conjunction of equations by computing each of them. *)
Ltac computed :=
  cbv zeta;
  repeat match goal with |- _ /\ _ => split end;
  vm_compute; try reflexivity.

(** C1, as stated, fails. A number that is not finite comes back as
    null; a typed view of a part of its buffer comes back as a view of the
    whole buffer; a blob comes back with the generic media type; a
    mapping comes back without its key [__proto__]. *)
Lemma round_trip_fails :
  let nan := VNum NaN in
  let view := VView "Uint8Array" [x01; x02]%byte 1 1 in
  let blob := VBlob "image/png" [x01]%byte in
  let map := VObj [("__proto__", VNum (Fin 1))] in
  supported nan = true /\ supported view = true /\ supported blob = true /\
  supported map = true /\
  serializeForLocalStorage nan = Returns "JS:null" /\
  deserializeFromLocalStorage (Some "JS:null") = Returns VNull /\
  serializeForLocalStorage view = Returns "TA:Uint8Array:AQI=" /\
  deserializeFromLocalStorage (Some "TA:Uint8Array:AQI=") =
    Returns (VView "Uint8Array" [x01; x02]%byte 0 2) /\
  window [x01; x02]%byte 1 1 <> window [x01; x02]%byte 0 2 /\
  serializeForLocalStorage blob = Returns "BL:AQ==" /\
  deserializeFromLocalStorage (Some "BL:AQ==") =
    Returns (VBlob "application/octet-stream" [x01]%byte) /\
  serializeForLocalStorage map = Returns "OBJ:{}" /\
  deserializeFromLocalStorage (Some "OBJ:{}") = Returns (VObj []).
Proof. computed; done. Qed.

(** The values that the codec preserves are supported values. *)
Lemma preserved_supported v : preserved v = true -> supported v = true.
Proof.
  induction v as [| |b|n|s|z|t|bytes|kind buffer off len|type bytes|l IH|l IH]
    using value_ind'; cbn [preserved supported]; try done.
  - destruct (globalThis kind) as [size|]; [|done].
    intros [[->%Nat.eqb_eq ->%Nat.eqb_eq]%andb_true_iff Hmod]%andb_true_iff.
    rewrite Hmod, Nat.leb_refl. cbn [andb]. by rewrite Nat.Div0.mod_0_l.
  - rewrite !forallb_forall, Forall_forall in *.
    intros Hl x Hx. apply IH; [by apply list_elem_of_In|by apply Hl].
  - intros [[Hnd _]%andb_true_iff Hl]%andb_true_iff. rewrite Hnd. cbn [andb].
    rewrite !forallb_forall, Forall_forall in *.
    intros x Hx. apply IH; [by apply list_elem_of_In|by apply Hl].
Qed.

(** C1, amended. For every structured value that holds no number that is
    not finite, no typed view of a part of its buffer, no blob of another
    media type than the generic one and no mapping with a key
    [__proto__], and whose string is no longer than the engines allow a
    string to be, [serializeForLocalStorage] returns a string from which
    [deserializeFromLocalStorage] returns the value. (A level of nesting
    doubles the escapes of the strings below it, so that the bound is
    reached from a nesting of some twenty-eight levels.) *)
Theorem serialize_then_deserialize v :
  preserved v = true ->
  (forall s, serializeForLocalStorage v = Returns s -> within_string_limit s) ->
  exists s,
    serializeForLocalStorage v = Returns s /\
    within_string_limit s /\
    deserializeFromLocalStorage (Some s) = Returns v.
Proof.
  intros Hv Hlimit. destruct (serialize_deserialize v Hv) as (s & Hs & Hd).
  exists s. split; [done|]. split; [by apply Hlimit|].
  cbn [deserializeFromLocalStorage]. apply Hd. lia.
Qed.



(** C7. Running [importFromLocalStorage] twice against an unchanged
    [localStorage] leaves, after the second run, the state that the first
    run left, the object store included, and reports the same count. *)
Theorem import_twice w :
  let '(count1, w1) := importFromLocalStorage w in
  let '(count2, w2) := importFromLocalStorage w1 in
  localStorage w1 = localStorage w /\ FILE_DATA w2 = FILE_DATA w1 /\
  w2 = w1 /\ count2 = count1.
Proof.
  pose proof (importFromLocalStorage_again w) as Hagain.
  pose proof (importFromLocalStorage_localStorage w) as Hls.
  destruct (importFromLocalStorage w) as [count1 w1]. cbn [snd] in *.
  by rewrite Hagain.
Qed.

(** C10. A message [setAllLocalStorageData] whose field
    [allLocalStorageData] is absent or falsy changes nothing: the handler
    and the listeners leave [localStorage], the object store and the
    messages posted as they were, so no [loadDataResponse] is posted. *)
Theorem set_without_payload E w data :
  type data = "setAllLocalStorageData" ->
  allLocalStorageData data = None ->
  handleSetAllLocalStorageData data w = w /\
  step E (Message (Some data)) w = w.
Proof.
  intros Htype Hdata.
  assert (handleSetAllLocalStorageData data w = w) as Hset
    by (unfold handleSetAllLocalStorageData; by rewrite Hdata).
  split; [done|].
  unfold step, responseHandler, messageListener. rewrite Htype.
  destruct (listener w), (isInIframe E);
    cbn -[handleSetAllLocalStorageData]; by rewrite ?Hset.
Qed.

(** C8. A message [setAllLocalStorageData] with the entries [{x: "1"}],
    whatever [localStorage] held before. The effects of the handler are,
    in this order: the clear, the [setItem] of [x], the event, no put
    (the import finds no key under the prefix), the response
    [loadDataResponse] with [success = true], the timer of the reload;
    one after the other they make the state that the handler returns. In
    the state [w'] that the effects before the response make, which is
    the state at the moment when the response is posted,
    [localStorage] holds [x] alone, the key [dtoldkey] is not there,
    nothing was posted since the message came, and the import is done:
    importing again puts nothing. *)
Theorem set_then_respond w id :
  let data := {| type := "setAllLocalStorageData"; messageId := id;
                 allLocalStorageData := Some [("x", "1")] |} in
  let before := [Clear; SetItem "x" "1"; DispatchSaveLoaded [("x", "1")] false] in
  handleSetAllLocalStorageData_effects data =
    (before ++ [Post (LoadDataResponse id true); ScheduleReload])%list /\
  perform_all (handleSetAllLocalStorageData_effects data) w =
    handleSetAllLocalStorageData data w /\
  let w' := perform_all before w in
  localStorage w' = {["x" := "1"]} /\
  localStorage w' !! "dtoldkey" = None /\
  posted w' = posted w /\
  importFromLocalStorage_effects (localStorage w') = [] /\
  importFromLocalStorage w' = (0, w').
Proof.
  cbn zeta. split; [reflexivity|]. split; [apply perform_handleSet|].
  cbn [perform_all fold_left perform].
  set (w' := dispatchSaveLoaded _ _ _).
  assert (localStorage w' = {["x" := "1"]}) as Hls by done.
  split; [exact Hls|]. split; [by rewrite Hls|]. split; [done|].
  split; [by rewrite Hls|].
  unfold importFromLocalStorage. rewrite Hls. by destruct w.
Qed.

(** C6. The response to [getAllLocalStorageData] carries the key of a
    timestamp as one of its entries: with [dta] and [dta::ts] in
    [localStorage], the payload of [saveDataResponse] holds the entry
    [dta::ts]. ([notifySaveDataChanged] and [importFromLocalStorage] leave
    such keys out: [notify_payload_keys], [importEntry_key].) *)
Theorem getAll_sends_timestamp_key :
  exists all,
    posted (step in_frame (Message (Some getAll_request))
              (start flat_with_timestamp ∅)) =
      [SaveDataResponse (Some "m1") all] /\
    ("dta::ts", "5") ∈ all.
Proof.
  eexists. split; [vm_compute; reflexivity|].
  apply list_elem_of_In. vm_compute. tauto.
Qed.

(** C5. In a batch of [exportToLocalStorage], an entry whose string is
    longer than the maximum is skipped: the export returns a count, the
    one of the batch without the entry, and [localStorage] is the one
    that the batch without the entry writes, the entries after the
    skipped one included; the notification follows as for that batch. *)
Theorem export_skips_oversized E w l1 key value l2 serialized :
  getAllFromIndexedDB w = (l1 ++ (key, value) :: l2)%list ->
  serializeForLocalStorage value = Returns serialized ->
  MAX_LOCALSTORAGE_BYTES E < String.length serialized ->
  let '(results, ls) := exportEntries E (l1 ++ l2)%list (localStorage w) in
  exportToLocalStorage E w =
    (length (filter (fun b => b = true) results),
     notifySaveDataChanged E (set_localStorage ls w)).
Proof.
  intros Hdata Hser Hlong. unfold exportToLocalStorage. rewrite Hdata.
  rewrite length_app. cbn [length]. rewrite Nat.add_succ_r. cbn [Nat.eqb].
  rewrite !exportEntries_app. cbn [exportEntries].
  destruct (exportEntries E l1 (localStorage w)) as [r1 ls1].
  unfold exportEntry at 1. rewrite Hser.
  apply Nat.ltb_lt in Hlong. rewrite Hlong.
  destruct (exportEntries E l2 ls1) as [r2 ls2].
  rewrite !filter_app, !length_app. cbn [filter]. done.
Qed.

(** C9, as stated, fails: with an entry [dtc] in [localStorage] of
    which the store has no record, the export writes [dta] and [dtb], and
    the import into the cleared store puts back [a] and [b], and [c] with
    them. *)
Lemma stale_entry_is_imported :
  let w1 := snd (exportToLocalStorage in_frame (start flat_stale store_a_b)) in
  let w2 := snd (importFromLocalStorage (set_FILE_DATA ∅ w1)) in
  localStorage w1 !! "dta" = Some "JS:1" /\
  localStorage w1 !! "dtb" = Some "DATE:1000" /\
  FILE_DATA w2 = <["c" := VNum (Fin 3)]> store_a_b /\
  FILE_DATA w2 <> store_a_b.
Proof.
  cbn zeta. split; [reflexivity|]. split; [reflexivity|].
  assert (FILE_DATA
            (snd (importFromLocalStorage
                    (set_FILE_DATA ∅
                       (snd (exportToLocalStorage in_frame
                               (start flat_stale store_a_b)))))) =
          <["c" := VNum (Fin 3)]> store_a_b) as -> by (vm_compute; reflexivity).
  split; [reflexivity|].
  intros Heq. apply (f_equal (fun m => m !! "c")) in Heq. discriminate Heq.
Qed.

(** C9, amended. With the store [{a: 1, b: Date(1000)}], a
    [localStorage] that holds under the prefix no other entries than
    those of [a] and [b] and timestamps, and a maximum of nine characters
    or more, the export writes [dta = "JS:1"] and [dtb = "DATE:1000"];
    after the store is cleared, the import puts [{a: 1, b: Date(1000)}]
    back. *)
Theorem export_then_import E w :
  9 <= MAX_LOCALSTORAGE_BYTES E ->
  FILE_DATA w = store_a_b ->
  (forall key, is_Some (localStorage w !! key) -> startsWith "dt" key = true ->
     endsWith "::ts" key = true \/ key = "dta" \/ key = "dtb") ->
  let w1 := snd (exportToLocalStorage E w) in
  let w2 := snd (importFromLocalStorage (set_FILE_DATA ∅ w1)) in
  localStorage w1 !! "dta" = Some "JS:1" /\
  localStorage w1 !! "dtb" = Some "DATE:1000" /\
  FILE_DATA w2 = store_a_b.
Proof.
  intros Hmax Hstore Hstale. cbn zeta.
  assert (forall k v, FILE_DATA w !! k = Some v ->
            (k = "a" /\ v = VNum (Fin 1)) \/ (k = "b" /\ v = VDate (Fin 1000)))
    as Hrecords.
  { intros k v. rewrite Hstore. unfold store_a_b.
    intros [[<- <-]|[_ Hk]]%lookup_insert_Some; [by left|].
    apply lookup_insert_Some in Hk as [[<- <-]|[_ Hk]]; [by right|].
    by rewrite lookup_empty in Hk. }
  assert (FILE_DATA w !! "a" = Some (VNum (Fin 1))) as Ha by (by rewrite Hstore).
  assert (FILE_DATA w !! "b" = Some (VDate (Fin 1000))) as Hb by (by rewrite Hstore).
  split; [|split].
  - apply (export_lookup E w "a" (VNum (Fin 1))); [done|done|cbn; lia|done].
  - apply (export_lookup E w "b" (VDate (Fin 1000))); [done|done|cbn; lia|done].
  - rewrite <- Hstore. apply restore_after_clear.
    + intros k v [[-> ->]|[-> ->]]%Hrecords;
        (split; [reflexivity|]; split; [reflexivity|]);
        intros s [= <-]; cbn; lia.
    + intros key Hkey Hprefix.
      destruct (Hstale key Hkey Hprefix) as [Hts|[-> | ->]]; [by left|right..].
      * change (slice 2 "dta") with "a". by rewrite Ha.
      * change (slice 2 "dtb") with "b". by rewrite Hb.
Qed.

(** C3, as stated, fails: with a store whose one value cannot be
    serialised, the export writes nothing, resolves to a count of zero and
    posts [saveDataChanged] all the same. *)
Lemma export_notifies_without_success :
  let result := exportToLocalStorage in_frame (start ∅ store_bigint) in
  fst result = 0 /\ posted (snd result) = [SaveDataChanged []].
Proof. computed. Qed.

(** C3, amended. The export posts [saveDataChanged] exactly when the
    script runs in a frame, the store is not empty and the string of the
    payload differs from [lastSyncedData]; the count of entries written
    has no part in it. The payload is made of the entries of
    [localStorage] whose key is not empty and is not the key of a
    timestamp. A second export right after the first, the store
    untouched, changes nothing: it posts nothing and resolves to the same
    count. *)
Theorem export_notification E w :
  let '(count1, w1) := exportToLocalStorage E w in
  let '(count2, w2) := exportToLocalStorage E w1 in
  let all := collect is_data_key (localStorage w1) in
  posted w1 =
    (if isInIframe E
        && negb (length (getAllFromIndexedDB w) =? 0)%nat
        && negb (bool_decide (Some (stringify_payload all) = lastSyncedData w))
     then (posted w ++ [SaveDataChanged all])%list
     else posted w) /\
  (forall k, k ∈ map fst all -> endsWith "::ts" k = false) /\
  w2 = w1 /\ count2 = count1.
Proof.
  pose proof (export_again E w) as Hagain.
  destruct (exportToLocalStorage E w) as [count1 w1] eqn:Hexport.
  cbn [snd] in Hagain. rewrite Hagain. cbn zeta.
  split; [|split; [intros k; apply notify_payload_keys|done]].
  unfold exportToLocalStorage in Hexport.
  destruct (length (getAllFromIndexedDB w) =? 0)%nat.
  { injection Hexport as <- <-. by rewrite andb_false_r. }
  destruct (exportEntries E (getAllFromIndexedDB w) (localStorage w)) as [results ls].
  injection Hexport as <- <-.
  destruct (notify_fields E (set_localStorage ls w)) as [-> _].
  rewrite notify_posted. unfold dataString.
  cbn [localStorage set_localStorage lastSyncedData posted negb].
  by rewrite andb_true_r.
Qed.

(** C4, as stated, fails: the request is posted, its timer runs out, and
    the response that comes afterwards still finds the listener: its
    entry is written to [localStorage] and imported into the store. *)
Lemma late_response_is_handled :
  let w1 := requestInitialSaveData in_frame 0 (start ∅ ∅) in
  let w2 := step in_frame Timeout w1 in
  let w3 := step in_frame (Message (Some initial_response)) w2 in
  posted w1 = [GetInitialSaveData "initial_load_0"] /\
  timeout w1 = true /\ timeout w2 = false /\
  listener w2 = Some "initial_load_0" /\
  localStorage w3 = {["dtx" := "JS:1"]} /\
  FILE_DATA w3 = {["x" := VNum (Fin 1)]}.
Proof. computed. Qed.

(** C4, amended. The listener of [requestInitialSaveData] matches a
    response by its type and its message id: a message of another type or
    with another id leaves it alone. The first match removes it and
    clears the timer: the same response a second time does nothing. The
    timer only logs: when it runs out the listener stays, and a matching
    response that comes after it is handled as one that comes before
    it. *)
Theorem response_listener_lifetime E w id data :
  listener w = Some id ->
  type data = "initialSaveDataResponse" ->
  messageId data = Some id ->
  let w' := step E (Message (Some data)) w in
  listener w' = None /\ timeout w' = false /\
  step E (Message (Some data)) w' = w' /\
  listener (step E Timeout w) = Some id /\
  step E (Message (Some data)) (step E Timeout w) = w' /\
  (forall other,
     type other <> "initialSaveDataResponse" \/ messageId other <> Some id ->
     responseHandler id (Some other) w = w).
Proof.
  intros Hlistener Htype Hid.
  assert (forall other,
            type other <> "initialSaveDataResponse" \/ messageId other <> Some id ->
            responseHandler id (Some other) w = w) as Hmiss.
  { intros other Hother. unfold responseHandler.
    destruct (String.eqb_spec (type other) "initialSaveDataResponse") as [Ht|_];
      [|done].
    case_bool_decide as Hi; [|done]. by destruct Hother. }
  assert (forall w0, messageListener (Some data) w0 = w0) as Hother.
  { intros w0. unfold messageListener. by rewrite Htype. }
  assert (forall w0, (if isInIframe E then messageListener (Some data) w0 else w0) = w0)
    as Hframe by (intros w0; rewrite Hother; by destruct (isInIframe E)).
  assert (forall w0, localStorage w0 = localStorage w -> FILE_DATA w0 = FILE_DATA w ->
            lastSyncedData w0 = lastSyncedData w -> posted w0 = posted w ->
            saveLoaded w0 = saveLoaded w -> reloads w0 = reloads w ->
            responseHandler id (Some data) w0 = responseHandler id (Some data) w)
    as Hsame.
  { intros w0 Hls Hdb Hsync Hposted Hloaded Hreloads.
    assert (set_listener None false w0 = set_listener None false w) as Hset
      by (unfold set_listener; congruence).
    unfold responseHandler. rewrite Htype, Hid, bool_decide_eq_true_2 by done.
    cbn [String.eqb Ascii.eqb Bool.eqb andb]. by rewrite Hset. }
  assert (listener (responseHandler id (Some data) w) = None /\
          timeout (responseHandler id (Some data) w) = false) as [Hgone Hclear].
  { unfold responseHandler. rewrite Htype, Hid, bool_decide_eq_true_2 by done.
    cbn [String.eqb Ascii.eqb Bool.eqb andb].
    destruct (allLocalStorageData data) as [entries|]; [|split; reflexivity].
    destruct (0 <? length entries)%nat; [|split; reflexivity].
    unfold importFromLocalStorage. cbn [snd]. rewrite puts_world.
    split; reflexivity. }
  assert (step E (Message (Some data)) w = responseHandler id (Some data) w)
    as Hstep by (unfold step; rewrite Hlistener; apply Hframe).
  assert (listener (step E Timeout w) = Some id) as Hstays
    by (unfold step; by destruct (timeout w)).
  cbn zeta. rewrite Hstep. repeat split; try done.
  - unfold step. rewrite Hgone. apply Hframe.
  - unfold step at 1. rewrite Hstays, Hframe.
    apply Hsame; unfold step; by destruct (timeout w).
Qed.

End Claims.

(** * The theorems at work on the scenarios *)

Section Witnesses.

Local Open Scope string_scope.

Lemma serialize_then_deserialize_witness :
  preserved nested_value = true /\
  exists s,
    serializeForLocalStorage nested_value = Returns s /\
    within_string_limit s /\
    deserializeFromLocalStorage (Some s) = Returns nested_value.
Proof.
  split; [reflexivity|].
  apply (serialize_then_deserialize nested_value); [reflexivity|].
  intros s Hs. vm_compute in Hs. injection Hs as <-.
  apply N.leb_le. reflexivity.
Defined.


Lemma response_listener_lifetime_witness :
  let w := requestInitialSaveData in_frame 0 (start ∅ ∅) in
  listener w = Some "initial_load_0" /\
  listener (step in_frame (Message (Some initial_response)) w) = None /\
  listener (step in_frame Timeout w) = Some "initial_load_0".
Proof.
  cbn zeta. split; [reflexivity|].
  pose proof (response_listener_lifetime in_frame
                (requestInitialSaveData in_frame 0 (start ∅ ∅))
                "initial_load_0" initial_response
                eq_refl eq_refl eq_refl) as H.
  cbn zeta in H. tauto.
Defined.

Lemma export_skips_oversized_witness :
  getAllFromIndexedDB (start ∅ store_short_long) =
    [("a", VNum (Fin 1)); ("b", VStr "0123456789")] /\
  MAX_LOCALSTORAGE_BYTES tight < String.length "JS:" + 12 /\
  fst (exportToLocalStorage tight (start ∅ store_short_long)) = 1 /\
  localStorage (snd (exportToLocalStorage tight (start ∅ store_short_long))) =
    {["dta" := "JS:1"]}.
Proof.
  split; [reflexivity|]. split; [cbn; lia|].
  pose proof (export_skips_oversized tight (start ∅ store_short_long)
                [("a", VNum (Fin 1))] "b" (VStr "0123456789") []
                (String.append "JS:" (JSON.stringify (JStr "0123456789")))
                eq_refl eq_refl ltac:(vm_compute; lia)) as H.
  cbn in H. rewrite H. split; reflexivity.
Defined.

Lemma export_then_import_witness :
  9 <= MAX_LOCALSTORAGE_BYTES in_frame /\
  FILE_DATA (start flat_with_timestamp store_a_b) = store_a_b /\
  let w1 := snd (exportToLocalStorage in_frame (start flat_with_timestamp store_a_b)) in
  let w2 := snd (importFromLocalStorage (set_FILE_DATA ∅ w1)) in
  localStorage w1 !! "dta" = Some "JS:1" /\
  localStorage w1 !! "dtb" = Some "DATE:1000" /\
  FILE_DATA w2 = store_a_b.
Proof.
  assert (9 <= MAX_LOCALSTORAGE_BYTES in_frame) as Hmax by (cbn; lia).
  split; [exact Hmax|]. split; [reflexivity|].
  apply (export_then_import in_frame (start flat_with_timestamp store_a_b) Hmax eq_refl).
  intros key Hkey _. cbn [localStorage start] in Hkey. unfold flat_with_timestamp in Hkey.
  destruct Hkey as [x Hx].
  apply lookup_insert_Some in Hx as [[<- _]|[_ Hx]]; [right; by left|].
  apply lookup_insert_Some in Hx as [[<- _]|[_ Hx]]; [by left|].
  by rewrite lookup_empty in Hx.
Defined.

Lemma set_without_payload_witness :
  type set_request_without_payload = "setAllLocalStorageData" /\
  allLocalStorageData set_request_without_payload = None /\
  step in_frame (Message (Some set_request_without_payload))
    (start flat_with_timestamp store_a_b) =
  start flat_with_timestamp store_a_b.
Proof.
  split; [reflexivity|]. split; [reflexivity|].
  apply (set_without_payload in_frame (start flat_with_timestamp store_a_b)
           set_request_without_payload); reflexivity.
Defined.

End Witnesses.
(** * Further properties of the script *)

Section Further.

Import JSON.
Local Open Scope string_scope.

(** ** The codec *)

(** X1. [base64ToArrayBuffer] undoes [arrayBufferToBase64]: every buffer
    comes back from its base64 string, byte for byte. *)
Theorem base64_round_trip buffer :
  base64ToArrayBuffer (arrayBufferToBase64 buffer) = Returns buffer.
Proof. apply base64ToArrayBuffer_arrayBufferToBase64. Qed.

(** X2. The string of a buffer of [n] bytes is the tag [AB:] and four
    characters for every three bytes or part of them, and the export
    writes the buffer exactly when these [3 + 4 * ceil (n / 3)]
    characters are no more than the maximum. *)
Theorem buffer_string_length E key bytes ls :
  let size := 3 + 4 * ((length bytes + 2) / 3) in
  (exists s, serializeForLocalStorage (VArrayBuffer bytes) = Returns s /\
             String.length s = size) /\
  fst (exportEntry E (key, VArrayBuffer bytes) ls) =
    Nat.leb size (MAX_LOCALSTORAGE_BYTES E).
Proof.
  cbn zeta.
  assert (String.length ("AB:" ++ arrayBufferToBase64 bytes) =
          3 + 4 * ((length bytes + 2) / 3)) as Hlen.
  { unfold arrayBufferToBase64. cbn [String.append String.length].
    simpl String.length.
    by rewrite length_btoa_groups, length_string_of_list_byte. }
  split; [by eexists|].
  unfold exportEntry. cbn [serializeForLocalStorage]. rewrite Hlen.
  destruct (Nat.ltb_spec (MAX_LOCALSTORAGE_BYTES E) (3 + 4 * ((length bytes + 2) / 3)))
    as [Hlt|Hle].
  - symmetry. apply Nat.leb_gt. lia.
  - destruct (timestampKey E _); symmetry; apply Nat.leb_le; lia.
Qed.

(** X3. A blob whose media type holds no comma: [blobToBase64] gives the
    base64 of its bytes, whatever the type, and the string of the blob
    comes back as a blob of the same bytes with the type
    [application/octet-stream]. *)
Theorem blob_round_trip type bytes :
  indexOf "," type = None ->
  blobToBase64 type bytes = arrayBufferToBase64 bytes /\
  exists s,
    serializeForLocalStorage (VBlob type bytes) = Returns s /\
    deserializeFromLocalStorage (Some s) =
      Returns (VBlob "application/octet-stream" bytes).
Proof.
  intros Htype. split; [by apply blobToBase64_bytes|].
  eexists. split; [reflexivity|].
  rewrite blobToBase64_bytes by done.
  cbn [deserializeFromLocalStorage deserialize]. simpl.
  by rewrite base64ToArrayBuffer_arrayBufferToBase64.
Qed.

(** X4. A record whose value is or holds a BigInt is never exported:
    [serializeForLocalStorage] does not return for it, and the export
    catches what is raised, counts the entry as failed and leaves
    [localStorage] as it was. *)
Theorem bigint_never_exported E key v ls :
  has_bigint v = true ->
  (exists e, serializeForLocalStorage v = Throws e) /\
  exportEntry E (key, v) ls = (false, ls).
Proof.
  intros Hv. pose proof (serialize_outcome v) as Hout. unfold exportEntry.
  destruct (serializeForLocalStorage v) as [s|e].
  - destruct Hout as [Hno _]. congruence.
  - split; [by exists e|done].
Qed.

(** X5. A typed view, whatever its window: its string holds the whole
    buffer under the view, and comes back as a view of the same
    constructor over the whole buffer, or, when the length of the buffer
    is no multiple of the element size, as the buffer alone. *)
Theorem view_round_trip kind buffer byteOffset byteLength size :
  globalThis kind = Some size ->
  exists s,
    serializeForLocalStorage (VView kind buffer byteOffset byteLength) = Returns s /\
    deserializeFromLocalStorage (Some s) =
      Returns (if Nat.eqb (length buffer mod size) 0
               then VView kind buffer 0 (length buffer)
               else VArrayBuffer buffer).
Proof.
  intros Hkind. eexists. split; [reflexivity|].
  cbn [deserializeFromLocalStorage]. by apply deserialize_view_any.
Qed.

(** X6. Two different values that the codec preserves have different
    strings. *)
Theorem serialize_distinct v1 v2 :
  preserved v1 = true -> preserved v2 = true ->
  v1 <> v2 ->
  serializeForLocalStorage v1 <> serializeForLocalStorage v2.
Proof.
  intros H1 H2 Hne Heq. apply Hne.
  destruct (serialize_deserialize v1 H1) as (s1 & Hs1 & Hd1).
  destruct (serialize_deserialize v2 H2) as (s2 & Hs2 & Hd2).
  assert (s2 = s1) as -> by congruence.
  specialize (Hd1 (S (String.length s1)) ltac:(lia)).
  specialize (Hd2 (S (String.length s1)) ltac:(lia)). congruence.
Qed.

(** X7. What a value comes back as. For every value with no BigInt in
    it, with distinct keys in its mappings, view constructors for its
    views and no comma in the media types of its blobs, and whose string
    is no longer than the engines allow a string to be,
    [serializeForLocalStorage] returns a string, and
    [deserializeFromLocalStorage] reads back from it the value with its
    numbers that are not finite turned to null, its views turned to views
    of their whole buffers (or to the buffers, when no view fits), its
    blobs given the generic media type and its keys [__proto__]
    dropped. *)
Theorem round_trip_result v :
  well_formed v = true ->
  (forall s, serializeForLocalStorage v = Returns s -> within_string_limit s) ->
  exists s,
    serializeForLocalStorage v = Returns s /\
    within_string_limit s /\
    deserializeFromLocalStorage (Some s) = Returns (round_trip_image v).
Proof.
  intros Hv Hlimit. destruct (serialize_image v Hv) as (s & Hs & Hd).
  exists s. split; [done|]. split; [by apply Hlimit|].
  cbn [deserializeFromLocalStorage]. apply Hd. lia.
Qed.

(** X8. What came back from a string comes back unchanged from its own
    string: a second round through the codec changes nothing, when the
    strings of both rounds are no longer than the engines allow. *)
Theorem round_trip_settles v :
  well_formed v = true ->
  (forall s, serializeForLocalStorage v = Returns s -> within_string_limit s) ->
  (forall s', serializeForLocalStorage (round_trip_image v) = Returns s' ->
              within_string_limit s') ->
  exists s v',
    serializeForLocalStorage v = Returns s /\
    deserializeFromLocalStorage (Some s) = Returns v' /\
    exists s',
      serializeForLocalStorage v' = Returns s' /\
      within_string_limit s /\ within_string_limit s' /\
      deserializeFromLocalStorage (Some s') = Returns v'.
Proof.
  intros Hv Hlimit Hlimit'. destruct (serialize_image v Hv) as (s & Hs & Hd).
  destruct (serialize_deserialize _ (image_preserved v Hv)) as (s' & Hs' & Hd').
  exists s, (round_trip_image v). split; [done|].
  cbn [deserializeFromLocalStorage]. split; [apply Hd; lia|].
  exists s'. split; [done|]. split; [by apply Hlimit|]. split; [by apply Hlimit'|].
  apply Hd'. lia.
Qed.

(** ** The import and the export *)

(** X9. What the object store holds under a key [k] after
    [importFromLocalStorage]. When [localStorage] has no entry under
    [dt k], or [k] is the key of a timestamp, or the string of the entry
    makes [deserializeFromLocalStorage] raise, it is what the store held
    before. When the string is one on which the embedding is exact, and
    [k] is not the key of a timestamp, it is the value of the string.
    [localStorage] is left as it was. *)
Theorem import_record w k :
  let w' := snd (importFromLocalStorage w) in
  (localStorage w !! ("dt" ++ k) = None \/ endsWith "::ts" k = true ->
   FILE_DATA w' !! k = FILE_DATA w !! k) /\
  (forall s e,
     localStorage w !! ("dt" ++ k) = Some s ->
     deserializeFromLocalStorage (Some s) = Throws e ->
     FILE_DATA w' !! k = FILE_DATA w !! k) /\
  (forall s v,
     localStorage w !! ("dt" ++ k) = Some s ->
     endsWith "::ts" k = false ->
     exact_string s ->
     deserializeFromLocalStorage (Some s) = Returns v ->
     FILE_DATA w' !! k = Some v) /\
  localStorage w' = localStorage w.
Proof.
  cbn zeta. pose proof (import_lookup w k) as Hk.
  split; [|split; [|split]].
  - intros [Hnone|Hts]; rewrite Hk.
    + by rewrite Hnone.
    + rewrite Hts. by destruct (localStorage w !! ("dt" ++ k)).
  - intros s e Hs He. rewrite Hk, Hs, He. by destruct (endsWith "::ts" k).
  - intros s v Hs Hts _ Hv. by rewrite Hk, Hs, Hts, Hv.
  - apply importFromLocalStorage_localStorage.
Qed.

(** X10. After [exportToLocalStorage], [localStorage] holds under [dt k]
    the string of the record [k] of the object store, for every record
    whose string is no longer than the maximum and whose key is not the
    key of a timestamp; the object store is left as it was. *)
Theorem export_record E w k v s :
  FILE_DATA w !! k = Some v ->
  serializeForLocalStorage v = Returns s ->
  String.length s <= MAX_LOCALSTORAGE_BYTES E ->
  endsWith "::ts" k = false ->
  let w' := snd (exportToLocalStorage E w) in
  localStorage w' !! ("dt" ++ k) = Some s /\ FILE_DATA w' = FILE_DATA w.
Proof.
  intros Hk Hs Hfits Hts. cbn zeta.
  split; [by apply (export_lookup E w k v s)|apply export_FILE_DATA].
Qed.

(** X11. [exportToLocalStorage] removes no key of [localStorage], and
    changes the entry of no key outside the prefix [dt]. *)
Theorem export_other_keys E w :
  let w' := snd (exportToLocalStorage E w) in
  dom (localStorage w) ⊆ dom (localStorage w') /\
  forall key,
    startsWith "dt" key = true \/
    localStorage w' !! key = localStorage w !! key.
Proof.
  cbn zeta. rewrite export_localStorage. split.
  - intros key Hkey%elem_of_dom. by apply elem_of_dom, writes_is_Some.
  - intros key. destruct (startsWith "dt" key) eqn:Hkey; [by left|right].
    apply writes_lookup_notin.
    intros (k0 & v0 & _ & [->| ->])%exportWrites_keys; discriminate Hkey.
Qed.

(** X12. Export, then import into the cleared store. When every record
    of the object store is a value that the codec preserves, with a
    string no longer than the maximum, under a key that is not the key of
    a timestamp, and [localStorage] holds no entry under the prefix that
    is neither a timestamp nor the entry of a record, the export counts
    every record and the import puts every record back: the object store
    is the one before the export. *)
Theorem export_clear_import E w :
  (forall k v, FILE_DATA w !! k = Some v ->
     preserved v = true /\ endsWith "::ts" k = false /\
     forall s, serializeForLocalStorage v = Returns s ->
               String.length s <= MAX_LOCALSTORAGE_BYTES E) ->
  (forall key, is_Some (localStorage w !! key) -> startsWith "dt" key = true ->
     endsWith "::ts" key = true \/ is_Some (FILE_DATA w !! slice 2 key)) ->
  let exported := exportToLocalStorage E w in
  let imported := importFromLocalStorage (set_FILE_DATA ∅ (snd exported)) in
  FILE_DATA (snd imported) = FILE_DATA w /\
  fst exported = size (FILE_DATA w) /\
  fst imported = size (FILE_DATA w).
Proof.
  intros Hrecords Hstale. cbn zeta.
  set (w1 := snd (exportToLocalStorage E w)).
  assert (FILE_DATA (snd (importFromLocalStorage (set_FILE_DATA ∅ w1))) =
          FILE_DATA w) as Hstore.
  { apply map_eq. intros k. rewrite import_lookup.
    cbn [localStorage FILE_DATA set_FILE_DATA]. rewrite lookup_empty.
    destruct (FILE_DATA w !! k) as [v|] eqn:Hk.
    - destruct (Hrecords k v Hk) as (Hv & Hts & Hfits).
      destruct (serialize_deserialize v Hv) as (s & Hs & Hd).
      pose proof (export_lookup E w k v s Hk Hs (Hfits s Hs) Hts) as Hls.
      fold w1 in Hls. rewrite Hls, Hts. cbn [deserializeFromLocalStorage]. rewrite Hd by lia. done.
    - destruct (localStorage w1 !! ("dt" ++ k)) as [s|] eqn:Hs; [|done].
      destruct (endsWith "::ts" k) eqn:Hts; [done|]. exfalso.
      unfold w1 in Hs. rewrite export_localStorage in Hs.
      apply writes_lookup_inv in Hs as [Hwritten|Hold].
      + apply exportWrites_keys in Hwritten as (k0 & v0 & Hin & [Hkey|Hkey]);
          apply append_inj_l in Hkey; subst k.
        * apply elem_of_map_to_list in Hin. congruence.
        * by rewrite endsWith_append in Hts.
      + destruct (Hstale ("dt" ++ k)) as [Hts'|[v Hv]]; [eauto|done| |].
        * by rewrite endsWith_prefixed, Hts in Hts'.
        * cbn in Hv. congruence. }
  split; [exact Hstore|]. split.
  - rewrite export_count. unfold getAllFromIndexedDB.
    rewrite <- (length_map_to_list (FILE_DATA w)).
    assert (forall k v, (k, v) ∈ map_to_list (FILE_DATA w) ->
              exists s, serializeForLocalStorage v = Returns s /\
                        String.length s <= MAX_LOCALSTORAGE_BYTES E) as Hall.
    { intros k v Hin%elem_of_map_to_list.
      destruct (Hrecords k v Hin) as (Hv & _ & Hfits).
      destruct (serialize_deserialize v Hv) as (s & Hs & _). eauto. }
    generalize (localStorage w).
    induction (map_to_list (FILE_DATA w)) as [|[k v] entries IH]; intros ls; [done|].
    cbn [exportEntries].
    destruct (Hall k v) as (s & Hs & Hfits); [left|].
    unfold exportEntry at 1. rewrite Hs.
    assert (Nat.ltb (MAX_LOCALSTORAGE_BYTES E) (String.length s) = false) as ->
      by (apply Nat.ltb_ge; lia).
    assert (forall ls1, (let '(ok, ls0) := (true, ls1) : bool * gmap string string in
              let '(results, ls2) := exportEntries E entries ls0 in
              (ok :: results, ls2)) =
            (true :: fst (exportEntries E entries ls1), snd (exportEntries E entries ls1)))
      as Hstep by (intros ls1; by destruct (exportEntries E entries ls1)).
    destruct (timestampKey E v); rewrite Hstep; cbn [fst length];
      rewrite filter_cons_True by done; cbn [length]; f_equal;
      apply IH; intros k' v' Hin; apply (Hall k' v'); by right.
  - rewrite <- Hstore. unfold importFromLocalStorage. cbn [fst snd].
    rewrite puts_world. cbn [FILE_DATA set_FILE_DATA].
    symmetry. apply writes_size, import_records_nodup.
Qed.

(** X13. An export, then an import, the object store not cleared: every
    record is replaced by what its value comes back as from its string.
    This holds when the values of the records hold no BigInt and are
    well formed, their strings are no longer than the maximum and their
    keys are not keys of timestamps, and [localStorage] holds no entry
    under the prefix that is neither a timestamp nor the entry of a
    record. *)
Theorem export_import_image E w :
  (forall k v, FILE_DATA w !! k = Some v ->
     well_formed v = true /\ endsWith "::ts" k = false /\
     forall s, serializeForLocalStorage v = Returns s ->
               String.length s <= MAX_LOCALSTORAGE_BYTES E) ->
  (forall key, is_Some (localStorage w !! key) -> startsWith "dt" key = true ->
     endsWith "::ts" key = true \/ is_Some (FILE_DATA w !! slice 2 key)) ->
  FILE_DATA (snd (importFromLocalStorage (snd (exportToLocalStorage E w)))) =
    round_trip_image <$> FILE_DATA w.
Proof.
  intros Hrecords Hstale.
  set (w1 := snd (exportToLocalStorage E w)).
  apply map_eq. intros k. rewrite import_lookup, lookup_fmap.
  unfold w1 at 2 3 4. rewrite export_FILE_DATA.
  destruct (FILE_DATA w !! k) as [v|] eqn:Hk; cbn [fmap option_fmap option_map].
  - destruct (Hrecords k v Hk) as (Hv & Hts & Hfits).
    destruct (serialize_image v Hv) as (s & Hs & Hd).
    pose proof (export_lookup E w k v s Hk Hs (Hfits s Hs) Hts) as Hls.
    fold w1 in Hls. rewrite Hls, Hts.
    cbn [deserializeFromLocalStorage]. rewrite Hd by lia. done.
  - destruct (localStorage w1 !! ("dt" ++ k)) as [s|] eqn:Hs; [|done].
    destruct (endsWith "::ts" k) eqn:Hts; [done|]. exfalso.
    unfold w1 in Hs. rewrite export_localStorage in Hs.
    apply writes_lookup_inv in Hs as [Hwritten|Hold].
    + apply exportWrites_keys in Hwritten as (k0 & v0 & Hin & [Hkey|Hkey]);
        apply append_inj_l in Hkey; subst k.
      * apply elem_of_map_to_list in Hin. congruence.
      * by rewrite endsWith_append in Hts.
    + destruct (Hstale ("dt" ++ k)) as [Hts'|[v Hv]]; [eauto|done| |].
      * by rewrite endsWith_prefixed, Hts in Hts'.
      * cbn in Hv. congruence.
Qed.

(** X14. [IndexedDBSync.initialize] puts [localStorage] first. When
    the entries of [localStorage] under the prefix, the timestamps apart,
    are strings on which the embedding is exact, so that no put of the
    import raises and the export follows, the value of an entry replaces
    the record of the object store, and the entry is written back as the
    string of its value. A string under no tag is so rewritten under the
    tag [JS:]. *)
Theorem initialize_normalises E w k s v s' :
  (forall key x, localStorage w !! key = Some x ->
     startsWith "dt" key = true -> endsWith "::ts" key = false ->
     exact_string x) ->
  localStorage w !! ("dt" ++ k) = Some s ->
  endsWith "::ts" k = false ->
  deserializeFromLocalStorage (Some s) = Returns v ->
  serializeForLocalStorage v = Returns s' ->
  String.length s' <= MAX_LOCALSTORAGE_BYTES E ->
  let w' := IndexedDBSync.initialize E w in
  FILE_DATA w' !! k = Some v /\ localStorage w' !! ("dt" ++ k) = Some s'.
Proof.
  intros _ Hs Hts Hv Hs' Hfits. cbn zeta.
  unfold IndexedDBSync.initialize.
  pose proof (import_lookup w k) as Hk. rewrite Hs, Hts, Hv in Hk.
  destruct (importFromLocalStorage w) as [n w1]. cbn [snd] in Hk.
  split; [by rewrite export_FILE_DATA|by apply (export_lookup E w1 k v s')].
Qed.

(** ** The messages *)

(** X15. The payload of a message [saveDataChanged] is made of the
    entries of [localStorage] whose key is not empty, is not the key of a
    timestamp and is not [__proto__]: every such entry, with its value,
    and nothing else, each key once. *)
Theorem notify_payload E w all :
  posted (notifySaveDataChanged E w) = (posted w ++ [SaveDataChanged all])%list ->
  NoDup (map fst all) /\
  forall k v,
    (k, v) ∈ all <->
    localStorage w !! k = Some v /\ k <> EmptyString /\
    endsWith "::ts" k = false /\ k <> "__proto__".
Proof.
  rewrite notify_posted. destruct (_ && _).
  - intros [= <-]%app_inv_head. split; [apply collect_nodup|].
    intros k v. rewrite collect_elem, is_data_key_spec. tauto.
  - intros H. apply (f_equal length) in H. rewrite length_app in H.
    cbn in H. lia.
Qed.

(** X16. [handleGetAllLocalStorageData] posts one message
    [saveDataResponse], with the message id of the request, and changes
    nothing else; its payload is made of every entry of [localStorage]
    but the one of the key [__proto__], the keys of timestamps
    included. *)
Theorem getAll_payload data w :
  exists all,
    handleGetAllLocalStorageData data w =
      postMessage (SaveDataResponse (messageId data) all) w /\
    NoDup (map fst all) /\
    forall k v, (k, v) ∈ all <-> localStorage w !! k = Some v /\ k <> "__proto__".
Proof.
  eexists. split; [reflexivity|]. split; [apply collect_nodup|].
  intros k v. rewrite collect_elem. tauto.
Qed.

(** X17. A message [setAllLocalStorageData], then a message
    [getAllLocalStorageData]: in the state that the first leaves, the
    handler of the second posts a response [saveDataResponse] whose
    payload is made of the entries that were set, whatever
    [localStorage] held before and whatever the import does, when none of
    the entries has the key [__proto__]. *)
Theorem set_then_getAll data request w entries :
  allLocalStorageData data = Some entries ->
  NoDup (map fst entries) ->
  "__proto__" ∉ map fst entries ->
  let w1 := handleSetAllLocalStorageData data w in
  exists all,
    handleGetAllLocalStorageData request w1 =
      postMessage (SaveDataResponse (messageId request) all) w1 /\
    forall k v, (k, v) ∈ all <-> (k, v) ∈ entries.
Proof.
  intros Hdata Hnd Hproto. cbn zeta.
  assert (localStorage (handleSetAllLocalStorageData data w) = writes entries ∅)
    as Hls.
  { unfold handleSetAllLocalStorageData. rewrite Hdata.
    match goal with |- context [importFromLocalStorage ?w0] =>
      pose proof (import_fields w0) as (Hls & _);
      destruct (importFromLocalStorage w0) as [n w1]
    end.
    cbn [snd] in *. cbn [localStorage scheduleReload postMessage].
    by rewrite Hls. }
  eexists. split; [reflexivity|].
  intros k v. rewrite collect_elem, Hls. split.
  - intros (Hk & _ & _).
    pose proof Hk as [([k' v'] & Heq & Hin)%list_elem_of_fmap|Hk']%writes_lookup_inv;
      [|by rewrite lookup_empty in Hk'].
    cbn [fst] in Heq. subst k'.
    rewrite (writes_lookup_nodup _ _ _ _ Hnd Hin) in Hk. by injection Hk as <-.
  - intros Hin. split; [by apply writes_lookup_nodup|]. split; [done|].
    intros ->. apply Hproto. by apply (list_elem_of_fmap_2 fst _ ("__proto__", v)).
Qed.

(** X18. The response to [getInitialSaveData] is merged into
    [localStorage]: the entries of its payload are written, and the
    entries under other keys stay as they were. *)
Theorem initial_response_merges id data w entries :
  type data = "initialSaveDataResponse" ->
  messageId data = Some id ->
  allLocalStorageData data = Some entries ->
  entries <> [] ->
  NoDup (map fst entries) ->
  let w' := responseHandler id (Some data) w in
  (forall k v, (k, v) ∈ entries -> localStorage w' !! k = Some v) /\
  (forall k, k ∉ map fst entries -> localStorage w' !! k = localStorage w !! k) /\
  listener w' = None.
Proof.
  intros Htype Hid Hdata Hentries Hnd. cbn zeta.
  unfold responseHandler. rewrite Htype, Hid, Hdata.
  rewrite bool_decide_eq_true_2 by done. rewrite String.eqb_refl.
  cbn [andb]. destruct entries as [|entry entries]; [done|].
  cbn [length Nat.ltb Nat.leb].
  match goal with |- context [importFromLocalStorage ?w0] =>
    pose proof (import_fields w0) as (-> & _ & -> & _)
  end.
  cbn [localStorage listener set_localStorage set_listener dispatchSaveLoaded].
  rewrite setItems_writes. split; [|split; [|done]].
  - intros k v Hin. by apply writes_lookup_nodup.
  - intros k Hk. by apply writes_lookup_notin.
Qed.

(** X19. A message [setAllLocalStorageData] clears [localStorage] but
    not the object store: an entry of its payload under the prefix [dt]
    whose string is one on which the embedding is exact replaces the
    record of its key with its value, and the records of the keys that
    the payload does not name stay as they were. *)
Theorem set_keeps_other_records data w entries k :
  allLocalStorageData data = Some entries ->
  NoDup (map fst entries) ->
  let w' := handleSetAllLocalStorageData data w in
  (forall s v,
     ("dt" ++ k, s) ∈ entries -> endsWith "::ts" k = false ->
     exact_string s ->
     deserializeFromLocalStorage (Some s) = Returns v ->
     FILE_DATA w' !! k = Some v) /\
  ("dt" ++ k ∉ map fst entries -> FILE_DATA w' !! k = FILE_DATA w !! k).
Proof.
  intros Hdata Hnd. cbn zeta. unfold handleSetAllLocalStorageData. rewrite Hdata.
  match goal with |- context [importFromLocalStorage ?w0] =>
    pose proof (import_lookup w0 k) as Hk;
    destruct (importFromLocalStorage w0) as [n w1]
  end.
  cbn [snd FILE_DATA scheduleReload postMessage] in *.
  cbn [localStorage FILE_DATA set_localStorage dispatchSaveLoaded] in Hk.
  rewrite setItems_writes in Hk. split.
  - intros s v Hin Hts _ Hv.
    by rewrite (writes_lookup_nodup _ _ _ _ Hnd Hin), Hts, Hv in Hk.
  - intros Hout. rewrite writes_lookup_notin in Hk by done.
    by rewrite lookup_empty in Hk.
Qed.

(** ** Runs of the script *)

(** X20. Outside a frame the script posts no message, whatever events
    come: no notification, no request and no response. *)
Theorem standalone_silent E evs w :
  isInIframe E = false ->
  listener w = None ->
  posted (run E evs w) = posted w /\
  lastSyncedData (run E evs w) = lastSyncedData w.
Proof.
  intros Hframe. revert w.
  induction evs as [|ev evs IH]; intros w Hlistener; [done|].
  rewrite run_cons.
  destruct (step_standalone E ev w Hframe Hlistener) as (Hposted & Hsynced & Hl).
  destruct (IH _ Hl) as [-> ->]. done.
Qed.

(** X21. From a page that has posted nothing yet, whatever events come,
    no two messages [saveDataChanged] posted one after the other carry
    the same payload string. *)
Theorem no_repeated_notification E evs w :
  posted w = [] ->
  lastSyncedData w = None ->
  no_repeat (stringify_payload <$> notifications (run E evs w)).
Proof.
  intros Hposted Hsynced. apply synced_run.
  unfold synced, notifications. by rewrite Hposted, Hsynced.
Qed.

(** X22. In a frame, once [notifySaveDataChanged] has run, the last
    message [saveDataChanged] that the parent was sent carries the
    entries of [localStorage] as they are now, those that a notification
    sends: whatever events came before, from a page that had posted
    nothing. *)
Theorem notification_up_to_date E evs w :
  isInIframe E = true ->
  posted w = [] ->
  lastSyncedData w = None ->
  let w' := run E (evs ++ [NotifyInterval]) w in
  last (notifications w') = Some (collect is_data_key (localStorage w')).
Proof.
  intros Hframe Hposted Hnone. cbn zeta.
  unfold run. rewrite fold_left_app. fold (run E evs w). cbn [fold_left step].
  assert (synced (run E evs w)) as Hsynced.
  { apply synced_run. unfold synced, notifications. by rewrite Hposted, Hnone. }
  assert (Forall (fun p : payload => NoDup (map fst p))
            (notifications (run E evs w))) as Hnodup.
  { apply payloads_nodup_run. unfold notifications. rewrite Hposted. constructor. }
  set (w1 := run E evs w) in *.
  destruct (notify_fields E w1) as [-> _].
  unfold notifySaveDataChanged. rewrite Hframe. cbn [negb].
  case_bool_decide as Hsame.
  - unfold synced in Hsynced. rewrite <- Hsame in Hsynced.
    destruct (last (notifications w1)) as [p|] eqn:Hlast; [|done].
    f_equal. cbn [fmap option_fmap option_map] in Hsynced.
    apply stringify_payload_inj; [|apply collect_nodup|congruence].
    rewrite Forall_forall in Hnodup. apply Hnodup.
    by apply last_Some_elem_of.
  - rewrite notifications_post. apply last_snoc.
Qed.

(** X23. No event removes a record from the object store: the keys of
    the object store before a run are keys of it after the run. *)
Theorem store_keeps_records E evs w :
  dom (FILE_DATA w) ⊆ dom (FILE_DATA (run E evs w)).
Proof.
  intros k Hk%elem_of_dom. by apply elem_of_dom, run_is_Some.
Qed.

(** ** Game start-up *)

(** X24. A second call of [_startGameOnce] does nothing: it calls no
    start function and leaves the variables and [localStorage] as the
    first call left them. *)
Theorem startGameOnce_once G s w :
  let first := _startGameOnce G s w in
  _startGameOnce G (fst first) (snd first) = first.
Proof.
  cbn zeta. remember (_startGameOnce G s w) as first eqn:Hfirst.
  unfold _startGameOnce in Hfirst.
  destruct (_gameStarted s || _startAttempted s) eqn:Hflags;
    subst first; cbn [fst snd]; unfold _startGameOnce.
  - by rewrite Hflags.
  - reflexivity.
Qed.

(** X25. The first call of [_startGameOnce] calls at most the three
    start functions, and none after [startGame] when that returns a true
    value; it ends with [_gameStarted] set, whether a start function
    started the game or not, and with a flag [deltarune_loaded] in
    [localStorage] that is not empty: the one that was there, or [true];
    the other entries of [localStorage] stay as they were. *)
Theorem startGameOnce_first G s w :
  _gameStarted s = false ->
  _startAttempted s = false ->
  let s' := fst (_startGameOnce G s w) in
  let w' := snd (_startGameOnce G s w) in
  _gameStarted s' = true /\ _startAttempted s' = true /\
  (exists new, calls s' = (calls s ++ new)%list /\ length new <= 3) /\
  (startGame G = Some (Returns true) -> calls s' = (calls s ++ ["startGame"])%list) /\
  (exists flag,
     localStorage w' !! "deltarune_loaded" = Some flag /\ flag <> EmptyString /\
     (forall old, localStorage w !! "deltarune_loaded" = Some old ->
                  old <> EmptyString -> flag = old)) /\
  (forall k, k <> "deltarune_loaded" -> localStorage w' !! k = localStorage w !! k).
Proof.
  intros Hstarted Hattempted. cbn zeta. unfold _startGameOnce.
  rewrite Hstarted, Hattempted. cbn [orb fst snd _gameStarted _startAttempted calls].
  split; [done|]. split; [by rewrite tryStart_attempted|]. split; [|split].
  - match goal with |- context [tryStart _ ?s0] =>
      destruct (tryStart_calls (startFunctions G) s0) as (new & -> & Hlen) end.
    by exists new.
  - intros HG. unfold startFunctions. rewrite HG. reflexivity.
  - unfold getItem, setItem.
    destruct (localStorage w !! "deltarune_loaded") as [old|] eqn:Hold.
    + destruct old as [|c old]; cbn [is_empty localStorage set_localStorage].
      * split.
        -- exists "true". rewrite lookup_insert_eq. split; [done|]. split; [done|].
           by intros old [= <-].
        -- intros k Hk. by rewrite lookup_insert_ne.
      * split; [|done]. exists (String c old). split; [done|]. split; [done|].
        by intros old' [= <-].
    + cbn [localStorage set_localStorage]. split.
      * exists "true". rewrite lookup_insert_eq. by split.
      * intros k Hk. by rewrite lookup_insert_ne.
Qed.

End Further.
(** * The further properties at work on the scenarios *)

Section FurtherWitnesses.

Local Open Scope string_scope.

Lemma bigint_never_exported_witness :
  has_bigint (VArr [VNum (Fin 1); VBigInt 10]) = true /\
  exportToLocalStorage in_frame (start ∅ store_nested_bigint) =
    (0, notifySaveDataChanged in_frame (start ∅ store_nested_bigint)).
Proof.
  split; [reflexivity|].
  destruct (bigint_never_exported in_frame "a" (VArr [VNum (Fin 1); VBigInt 10]) ∅
              eq_refl) as [_ Hentry].
  unfold exportToLocalStorage.
  assert (getAllFromIndexedDB (start ∅ store_nested_bigint) =
            [("a", VArr [VNum (Fin 1); VBigInt 10])]) as -> by reflexivity.
  cbn [length Nat.eqb exportEntries localStorage start]. rewrite Hentry.
  reflexivity.
Defined.

Lemma blob_round_trip_witness :
  indexOf "," "image/png" = None /\
  blobToBase64 "image/png" [x2a]%byte = arrayBufferToBase64 [x2a]%byte /\
  exists s,
    serializeForLocalStorage (VBlob "image/png" [x2a]%byte) = Returns s /\
    deserializeFromLocalStorage (Some s) =
      Returns (VBlob "application/octet-stream" [x2a]%byte).
Proof.
  split; [reflexivity|].
  apply (blob_round_trip "image/png" [x2a]%byte). reflexivity.
Defined.

Lemma view_round_trip_witness :
  globalThis "Uint16Array" = Some 2 /\
  exists s,
    serializeForLocalStorage odd_view = Returns s /\
    deserializeFromLocalStorage (Some s) =
      Returns (VArrayBuffer [x01; x02; x03]%byte).
Proof.
  split; [reflexivity|].
  apply (view_round_trip "Uint16Array" [x01; x02; x03]%byte 0 2 2). reflexivity.
Defined.

Lemma serialize_distinct_witness :
  preserved (VNum (Fin 1)) = true /\ preserved (VStr "1") = true /\
  VNum (Fin 1) <> VStr "1" /\
  serializeForLocalStorage (VNum (Fin 1)) <> serializeForLocalStorage (VStr "1").
Proof.
  split; [reflexivity|]. split; [reflexivity|]. split; [discriminate|].
  apply (serialize_distinct (VNum (Fin 1)) (VStr "1"));
    [reflexivity|reflexivity|discriminate].
Defined.

Lemma round_trip_result_witness :
  well_formed lossy_value = true /\
  exists s,
    serializeForLocalStorage lossy_value = Returns s /\
    within_string_limit s /\
    deserializeFromLocalStorage (Some s) =
      Returns (VObj [("n", VNull);
                     ("view", VArrayBuffer [x01; x02; x03]%byte);
                     ("blob", VBlob "application/octet-stream" [x2a]%byte);
                     ("list", VArr [VNull])]).
Proof.
  split; [reflexivity|].
  apply (round_trip_result lossy_value eq_refl).
  intros s Hs. vm_compute in Hs. injection Hs as <-.
  apply N.leb_le. reflexivity.
Defined.

Lemma round_trip_settles_witness :
  well_formed lossy_value = true /\
  exists s v',
    serializeForLocalStorage lossy_value = Returns s /\
    deserializeFromLocalStorage (Some s) = Returns v' /\
    exists s',
      serializeForLocalStorage v' = Returns s' /\
      within_string_limit s /\ within_string_limit s' /\
      deserializeFromLocalStorage (Some s') = Returns v'.
Proof.
  split; [reflexivity|].
  apply (round_trip_settles lossy_value eq_refl).
  - intros s Hs. vm_compute in Hs. injection Hs as <-.
    apply N.leb_le. reflexivity.
  - intros s Hs. vm_compute in Hs. injection Hs as <-.
    apply N.leb_le. reflexivity.
Defined.

Lemma export_record_witness :
  FILE_DATA (start ∅ store_a_b) !! "a" = Some (VNum (Fin 1)) /\
  serializeForLocalStorage (VNum (Fin 1)) = Returns "JS:1" /\
  String.length "JS:1" <= MAX_LOCALSTORAGE_BYTES in_frame /\
  endsWith "::ts" "a" = false /\
  localStorage (snd (exportToLocalStorage in_frame (start ∅ store_a_b))) !! "dta" =
    Some "JS:1" /\
  FILE_DATA (snd (exportToLocalStorage in_frame (start ∅ store_a_b))) = store_a_b.
Proof.
  assert (String.length "JS:1" <= MAX_LOCALSTORAGE_BYTES in_frame) as Hfits
    by (apply Nat.leb_le; reflexivity).
  split; [reflexivity|]. split; [reflexivity|]. split; [exact Hfits|].
  split; [reflexivity|].
  exact (export_record in_frame (start ∅ store_a_b) "a" (VNum (Fin 1)) "JS:1"
           eq_refl eq_refl Hfits eq_refl).
Defined.

Lemma export_clear_import_witness :
  let exported := exportToLocalStorage in_frame (start ∅ store_a_b) in
  let imported := importFromLocalStorage (set_FILE_DATA ∅ (snd exported)) in
  FILE_DATA (snd imported) = store_a_b /\
  fst exported = 2 /\ fst imported = 2.
Proof.
  apply (export_clear_import in_frame (start ∅ store_a_b)).
  - intros k v Hk. cbn [FILE_DATA start] in Hk. unfold store_a_b in Hk.
    apply lookup_insert_Some in Hk as [[<- <-]|[_ Hk]].
    { split; [reflexivity|]. split; [reflexivity|].
      intros s [= <-]. apply Nat.leb_le. reflexivity. }
    apply lookup_insert_Some in Hk as [[<- <-]|[_ Hk]].
    { split; [reflexivity|]. split; [reflexivity|].
      intros s [= <-]. apply Nat.leb_le. reflexivity. }
    by rewrite lookup_empty in Hk.
  - intros key [x Hx]. cbn [localStorage start] in Hx.
    by rewrite lookup_empty in Hx.
Defined.

Lemma export_import_image_witness :
  FILE_DATA (snd (importFromLocalStorage
                    (snd (exportToLocalStorage in_frame (start ∅ store_lossy))))) =
    <["a" := VNull]>
      (<["b" := VBlob "application/octet-stream" [x2a]%byte]> ∅).
Proof.
  rewrite (export_import_image in_frame (start ∅ store_lossy)).
  - reflexivity.
  - intros k v Hk. cbn [FILE_DATA start] in Hk. unfold store_lossy in Hk.
    apply lookup_insert_Some in Hk as [[<- <-]|[_ Hk]].
    { split; [reflexivity|]. split; [reflexivity|].
      intros s [= <-]. apply Nat.leb_le. reflexivity. }
    apply lookup_insert_Some in Hk as [[<- <-]|[_ Hk]].
    { split; [reflexivity|]. split; [reflexivity|].
      intros s [= <-]. apply Nat.leb_le. reflexivity. }
    by rewrite lookup_empty in Hk.
  - intros key [x Hx]. cbn [localStorage start] in Hx.
    by rewrite lookup_empty in Hx.
Defined.

Lemma initialize_normalises_witness :
  localStorage (start flat_raw ∅) !! "dtx" = Some "hello" /\
  exact_string "hello" /\
  deserializeFromLocalStorage (Some "hello") = Returns (VStr "hello") /\
  FILE_DATA (IndexedDBSync.initialize in_frame (start flat_raw ∅)) !! "x" =
    Some (VStr "hello") /\
  localStorage (IndexedDBSync.initialize in_frame (start flat_raw ∅)) !! "dtx" =
    Some ("JS:" ++ JSON.quote "hello").
Proof.
  split; [reflexivity|]. split; [by left|]. split; [reflexivity|].
  apply (initialize_normalises in_frame (start flat_raw ∅) "x" "hello"
           (VStr "hello") ("JS:" ++ JSON.quote "hello"));
    [|reflexivity|reflexivity|reflexivity|reflexivity|apply Nat.leb_le; reflexivity].
  intros key x Hx _ _. cbn [localStorage start] in Hx. unfold flat_raw in Hx.
  apply lookup_insert_Some in Hx as [[_ <-]|[_ Hx]]; [by left|].
  by rewrite lookup_empty in Hx.
Defined.

Lemma notify_payload_witness :
  posted (notifySaveDataChanged in_frame (start flat_with_timestamp ∅)) =
    [SaveDataChanged [("dta", "JS:1")]] /\
  forall k v,
    (k, v) ∈ [("dta", "JS:1")] <->
    flat_with_timestamp !! k = Some v /\ k <> EmptyString /\
    endsWith "::ts" k = false /\ k <> "__proto__".
Proof.
  split; [reflexivity|].
  apply (notify_payload in_frame (start flat_with_timestamp ∅) [("dta", "JS:1")]).
  reflexivity.
Defined.

Lemma set_then_getAll_witness :
  allLocalStorageData set_request = Some [("x", "1")] /\
  let w1 := handleSetAllLocalStorageData set_request (start flat_with_timestamp ∅) in
  exists all,
    handleGetAllLocalStorageData getAll_request w1 =
      postMessage (SaveDataResponse (Some "m1") all) w1 /\
    forall k v, (k, v) ∈ all <-> (k, v) ∈ [("x", "1")].
Proof.
  split; [reflexivity|].
  apply (set_then_getAll set_request getAll_request (start flat_with_timestamp ∅)
           [("x", "1")]).
  - reflexivity.
  - apply (bool_decide_unpack _). reflexivity.
  - apply (bool_decide_unpack _). reflexivity.
Defined.

Lemma initial_response_merges_witness :
  let w := requestInitialSaveData in_frame 0 (start flat_with_timestamp ∅) in
  let w' := responseHandler "initial_load_0" (Some initial_response) w in
  localStorage w' !! "dtx" = Some "JS:1" /\
  localStorage w' !! "dta" = Some "JS:1" /\
  listener w' = None.
Proof.
  cbn zeta.
  pose proof (initial_response_merges "initial_load_0" initial_response
                (requestInitialSaveData in_frame 0 (start flat_with_timestamp ∅))
                [("dtx", "JS:1")] eq_refl eq_refl eq_refl
                ltac:(discriminate)
                ltac:(apply (bool_decide_unpack _); reflexivity))
    as (Hin & Hout & Hlistener).
  split; [apply Hin; left|]. split; [|exact Hlistener].
  rewrite Hout; [reflexivity|]. apply (bool_decide_unpack _). reflexivity.
Defined.

Lemma set_keeps_other_records_witness :
  allLocalStorageData set_request = Some [("x", "1")] /\
  FILE_DATA (handleSetAllLocalStorageData set_request (start ∅ store_a_b)) !! "a" =
    Some (VNum (Fin 1)).
Proof.
  split; [reflexivity|].
  pose proof (set_keeps_other_records set_request (start ∅ store_a_b)
                [("x", "1")] "a" eq_refl
                ltac:(apply (bool_decide_unpack _); reflexivity)) as [_ Hout].
  rewrite Hout; [reflexivity|]. apply (bool_decide_unpack _). reflexivity.
Defined.

Lemma standalone_silent_witness :
  isInIframe standalone = false /\
  listener (start ∅ store_a_b) = None /\
  posted (run standalone
            [ExportInterval; Message (Some getAll_request); NotifyInterval]
            (start ∅ store_a_b)) = [] /\
  lastSyncedData (run standalone
            [ExportInterval; Message (Some getAll_request); NotifyInterval]
            (start ∅ store_a_b)) = None.
Proof.
  split; [reflexivity|]. split; [reflexivity|].
  apply (standalone_silent standalone
           [ExportInterval; Message (Some getAll_request); NotifyInterval]
           (start ∅ store_a_b)); reflexivity.
Defined.

Lemma no_repeated_notification_witness :
  posted (start ∅ store_a_b) = [] /\
  lastSyncedData (start ∅ store_a_b) = None /\
  no_repeat
    (stringify_payload <$>
     notifications
       (run in_frame
          [ExportInterval; NotifyInterval; Message (Some set_request); NotifyInterval]
          (start ∅ store_a_b))).
Proof.
  split; [reflexivity|]. split; [reflexivity|].
  apply (no_repeated_notification in_frame
           [ExportInterval; NotifyInterval; Message (Some set_request); NotifyInterval]
           (start ∅ store_a_b)); reflexivity.
Defined.

Lemma notification_up_to_date_witness :
  isInIframe in_frame = true /\
  let w' := run in_frame ([ExportInterval] ++ [NotifyInterval]) (start ∅ store_a_b) in
  last (notifications w') = Some (collect is_data_key (localStorage w')).
Proof.
  split; [reflexivity|].
  apply (notification_up_to_date in_frame [ExportInterval] (start ∅ store_a_b));
    reflexivity.
Defined.

Lemma startGameOnce_first_witness :
  _gameStarted not_started = false /\ _startAttempted not_started = false /\
  let s' := fst (_startGameOnce game_second not_started (start ∅ ∅)) in
  let w' := snd (_startGameOnce game_second not_started (start ∅ ∅)) in
  _gameStarted s' = true /\
  calls s' = ["startGame"; "GameMaker_Init"] /\
  localStorage w' !! "deltarune_loaded" = Some "true".
Proof.
  split; [reflexivity|]. split; [reflexivity|].
  pose proof (startGameOnce_first game_second not_started (start ∅ ∅)
                eq_refl eq_refl) as (Hstarted & _).
  cbn zeta. split; [exact Hstarted|]. split; reflexivity.
Defined.

End FurtherWitnesses.
